(** * usdt_balance_checker: a shallow embedding of the balance-query engine

    The development follows the Go sources package by package:
    - [tron]  : address.go (address codec), the rate limiter, api.go (one
                balance query with its retry loop and response decoding);
    - [core]  : the API-key manager with its key and usage files, query.go
                (the worker pool), the address loaders, the CSV export and
                the AES helpers.

    Conventions.  A Go [int], [int64] or [time.Duration] is a [Z] with its
    two's-complement wrap-around written out ([wrap64]); a byte is a [Z] in
    [0, 256); a Go [string] is a [string] (a sequence of 8-bit characters);
    a slice is a [list].  A function that may return an [error] or stop with
    a run-time panic (index out of range, division by zero) returns an
    [outcome]; a method that may wait for ever for a mutex returns an
    [ending].  A Go map is a [gmap], a map used as a set a [gset]. *)

From Stdlib Require Import ZArith List Ascii String Lia Bool.
From Stdlib Require Import DecimalString DecimalPos DecimalN DecimalZ.
From stdpp Require Import base tactics option list list_numbers strings gmap.

Local Open Scope string_scope.
Local Open Scope list_scope.
Local Open Scope Z_scope.

(** ** Results of Go calls *)

Inductive outcome (A : Type) : Type :=
| Ret (a : A)          (* the call returns [a] (and a nil error) *)
| Fail (msg : string)  (* the call returns a non-nil error with this text *)
| Panic.               (* the call stops with a run-time panic *)

Arguments Ret {A} a.
Arguments Fail {A} msg.
Arguments Panic {A}.

Definition obind {A B} (m : outcome A) (k : A -> outcome B) : outcome B :=
  match m with
  | Ret a => k a
  | Fail e => Fail e
  | Panic => Panic
  end.

#[global] Instance outcome_bind : MBind outcome := fun A B k m => obind m k.

(** ** Machine integers *)

Definition wrap64 (z : Z) : Z := (z + 2 ^ 63) mod 2 ^ 64 - 2 ^ 63.

Definition int_range (z : Z) : Prop := - 2 ^ 63 <= z < 2 ^ 63.

(** ** Slices *)

(** [s[lo:hi]]; panics unless [lo <= hi <= len(s)]. *)
Definition slice {A} (s : list A) (lo hi : nat) : outcome (list A) :=
  if decide (lo <= hi <= length s)%nat then Ret (take (hi - lo) (drop lo s)) else Panic.

(** [s[lo:]]; panics unless [lo <= len(s)]. *)
Definition slice_from {A} (s : list A) (lo : nat) : outcome (list A) :=
  slice s lo (length s).

(** [s[i]]; panics when [i] is out of range. *)
Definition index {A} (s : list A) (i : nat) : outcome A :=
  match s !! i with
  | Some a => Ret a
  | None => Panic
  end.

(** [copy(dst[off:], src)]: copies [min(len(dst) - off, len(src))] elements;
    panics unless [off <= len(dst)]. *)
Definition copy_at {A} (dst : list A) (off : nat) (src : list A) : outcome (list A) :=
  if decide (off <= length dst)%nat then
    let n := Nat.min (length dst - off) (length src) in
    Ret (take off dst ++ take n src ++ drop (off + n) dst)
  else Panic.

(** ** encoding/hex *)

Definition hextable : string := "0123456789abcdef".

Definition hexdigit (v : Z) : ascii :=
  match String.get (Z.to_nat v) hextable with
  | Some c => c
  | None => "0"%char
  end.

(** [hex.EncodeToString]: two characters per byte, [hextable[b>>4]] then
    [hextable[b&0x0f]]. *)
Fixpoint EncodeToString (src : list Z) : string :=
  match src with
  | [] => ""
  | b :: rest =>
      String (hexdigit (Z.shiftr b 4)) (String (hexdigit (Z.land b 15)) (EncodeToString rest))
  end.

(** ** btcutil/base58

    [base58.Decode] is not part of the repository; this is its input/output
    behaviour: the empty slice when a character is outside the alphabet,
    otherwise one zero byte per leading '1' followed by the big-endian bytes
    of the number the characters spell in base 58. *)

Module base58.

Definition alphabet : string := "123456789ABCDEFGHJKLMNPQRSTUVWXYZabcdefghijkmnopqrstuvwxyz".

(** The table [b58]: the position of a character in the alphabet, [None]
    (the table's 255) for every other byte. *)
Fixpoint b58_from (c : ascii) (alpha : string) (i : Z) : option Z :=
  match alpha with
  | EmptyString => None
  | String a rest => if Ascii.eqb a c then Some i else b58_from c rest (i + 1)
  end.

Definition b58 (c : ascii) : option Z := b58_from c alphabet 0.

(** The big integer [answer]: the digits read in base 58, most significant
    first; [None] when a character is outside the alphabet. *)
Fixpoint answer (b : string) (acc : Z) : option Z :=
  match b with
  | EmptyString => Some acc
  | String c rest =>
      match b58 c with
      | Some d => answer rest (acc * 58 + d)
      | None => None
      end
  end.

(** The count of leading '1' characters ([numZeros]). *)
Fixpoint numZeros (b : string) : nat :=
  match b with
  | String "1" rest => S (numZeros rest)
  | _ => O
  end.

(** [big.Int.Bytes]: the big-endian bytes of a non-negative integer, none
    for zero. *)
Definition Bytes (n : Z) : list Z :=
  if decide (n <= 0) then []
  else reverse (Z_to_little_endian (Z.log2 n / 8 + 1) 8 n).

Definition Decode (b : string) : list Z :=
  match answer b 0 with
  | None => []
  | Some n => replicate (numZeros b) 0 ++ Bytes n
  end.

End base58.

(** ** crypto/sha256

    [sha256.Sum256] of the Go standard library (FIPS 180-4), on 32-bit words
    held in [Z]. *)

Module sha256.

Definition mask32 : Z := 0xffffffff.
Definition add32 (a b : Z) : Z := Z.land (a + b) mask32.
Definition rotr (n x : Z) : Z :=
  Z.lor (Z.shiftr x n) (Z.land (Z.shiftl x (32 - n)) mask32).
Definition not32 (x : Z) : Z := Z.lxor x mask32.

Definition Ch (x y z : Z) : Z := Z.lxor (Z.land x y) (Z.land (not32 x) z).
Definition Maj (x y z : Z) : Z :=
  Z.lxor (Z.lxor (Z.land x y) (Z.land x z)) (Z.land y z).
Definition Sigma0 (x : Z) : Z := Z.lxor (Z.lxor (rotr 2 x) (rotr 13 x)) (rotr 22 x).
Definition Sigma1 (x : Z) : Z := Z.lxor (Z.lxor (rotr 6 x) (rotr 11 x)) (rotr 25 x).
Definition sigma0 (x : Z) : Z := Z.lxor (Z.lxor (rotr 7 x) (rotr 18 x)) (Z.shiftr x 3).
Definition sigma1 (x : Z) : Z := Z.lxor (Z.lxor (rotr 17 x) (rotr 19 x)) (Z.shiftr x 10).

(** The constants are read off the first primes: the round constants are
    the first 32 bits of the fractional parts of their cube roots, the
    initial words those of their square roots. *)
Definition prime (p : Z) : bool :=
  forallb (fun d => negb (p mod d =? 0)) (Z.of_nat <$> seq 2 (Z.to_nat p - 2)).

Definition primes (upto : nat) : list Z :=
  List.filter prime (Z.of_nat <$> seq 2 (upto - 1)).

(** The integer cube root of [x], found bit by bit below [2 ^ bits]. *)
Fixpoint cbrt (bits : nat) (x r : Z) : Z :=
  match bits with
  | O => r
  | S b =>
      let c := r + 2 ^ Z.of_nat b in
      cbrt b x (if c * c * c <=? x then c else r)
  end.

Definition K : list Z :=
  (fun p => Z.land (cbrt 36 (p * 2 ^ 96) 0) mask32) <$> primes 311.

(** The eight working words. *)
Record digest := Digest { h0 : Z; h1 : Z; h2 : Z; h3 : Z; h4 : Z; h5 : Z; h6 : Z; h7 : Z }.

Definition init : digest :=
  match (fun p => Z.land (Z.sqrt (p * 2 ^ 64)) mask32) <$> primes 19 with
  | [a; b; c; d; e; f; g; h] => Digest a b c d e f g h
  | _ => Digest 0 0 0 0 0 0 0 0
  end.

(** Padding: a 0x80 byte, zeros up to 56 modulo 64, the bit length on 8 bytes. *)
Definition pad (msg : list Z) : list Z :=
  let len := Z.of_nat (length msg) in
  let zeros := Z.to_nat ((55 - len) mod 64) in
  msg ++ [0x80] ++ replicate zeros 0 ++ reverse (Z_to_little_endian 8 8 (len * 8)).

Definition word_of (b3 b2 b1 b0 : Z) : Z :=
  Z.lor (Z.lor (Z.shiftl b3 24) (Z.shiftl b2 16)) (Z.lor (Z.shiftl b1 8) b0).

(** The big-endian words of a byte sequence. *)
Fixpoint words (bs : list Z) : list Z :=
  match bs with
  | b3 :: b2 :: b1 :: b0 :: rest => word_of b3 b2 b1 b0 :: words rest
  | _ => []
  end.

(** The message schedule, kept newest first: [w] holds w(t-1), w(t-2), ... *)
Fixpoint schedule (n : nat) (w : list Z) : list Z :=
  match n with
  | O => w
  | S n' =>
      let g i := default 0 (w !! i) in
      schedule n' (add32 (add32 (sigma1 (g 1%nat)) (g 6%nat)) (add32 (sigma0 (g 14%nat)) (g 15%nat)) :: w)
  end.

Definition round (d : digest) (kw : Z * Z) : digest :=
  let '(Digest a b c d' e f g h) := d in
  let t1 := add32 (add32 (add32 h (Sigma1 e)) (add32 (Ch e f g) kw.1)) kw.2 in
  let t2 := add32 (Sigma0 a) (Maj a b c) in
  Digest (add32 t1 t2) a b c (add32 d' t1) e f g.

Definition block (d : digest) (w16 : list Z) : digest :=
  let w := reverse (schedule 48 (reverse w16)) in
  let r := foldl round d (zip K w) in
  Digest (add32 (h0 d) (h0 r)) (add32 (h1 d) (h1 r)) (add32 (h2 d) (h2 r)) (add32 (h3 d) (h3 r))
         (add32 (h4 d) (h4 r)) (add32 (h5 d) (h5 r)) (add32 (h6 d) (h6 r)) (add32 (h7 d) (h7 r)).

(** The blocks of 16 words each. *)
Fixpoint blocks (n : nat) (d : digest) (ws : list Z) : digest :=
  match n with
  | O => d
  | S n' => blocks n' (block d (take 16 ws)) (drop 16 ws)
  end.

Definition word_bytes (w : Z) : list Z :=
  [Z.land (Z.shiftr w 24) 255; Z.land (Z.shiftr w 16) 255; Z.land (Z.shiftr w 8) 255; Z.land w 255].

Definition Sum256 (data : list Z) : list Z :=
  let ws := words (pad data) in
  let d := blocks (length ws / 16) init ws in
  word_bytes (h0 d) ++ word_bytes (h1 d) ++ word_bytes (h2 d) ++ word_bytes (h3 d) ++
  word_bytes (h4 d) ++ word_bytes (h5 d) ++ word_bytes (h6 d) ++ word_bytes (h7 d).

End sha256.

(** ** strings, math/big and fmt *)

Definition ascii_in (lo hi : nat) (c : ascii) : bool :=
  (lo <=? nat_of_ascii c)%nat && (nat_of_ascii c <=? hi)%nat.

(** The six ASCII characters of [asciiSpace]. *)
Definition space1 (c : ascii) : bool :=
  ascii_in 9 13 c || Ascii.eqb c " ".

(** The two-byte UTF-8 encodings of white space: U+0085 and U+00A0. *)
Definition space2 (c1 c2 : ascii) : bool :=
  (nat_of_ascii c1 =? 194)%nat && ((nat_of_ascii c2 =? 133)%nat || (nat_of_ascii c2 =? 160)%nat).

(** The three-byte ones: U+1680, U+2000..U+200A, U+2028, U+2029, U+202F,
    U+205F and U+3000. *)
Definition space3 (c1 c2 c3 : ascii) : bool :=
  let n1 := nat_of_ascii c1 in
  let n2 := nat_of_ascii c2 in
  let n3 := nat_of_ascii c3 in
  ((n1 =? 225) && (n2 =? 154) && (n3 =? 128))%nat
  || ((n1 =? 226) && (n2 =? 128) && (ascii_in 128 138 c3 || (n3 =? 168) || (n3 =? 169) || (n3 =? 175)))%nat
  || ((n1 =? 226) && (n2 =? 129) && (n3 =? 159))%nat
  || ((n1 =? 227) && (n2 =? 128) && (n3 =? 128))%nat.

(** Leading white space removed; [fwd] tells whether the characters come in
    reading order or reversed (for the trailing side). *)
Fixpoint trimSpaces (fwd : bool) (s : list ascii) : list ascii :=
  match s with
  | [] => []
  | c1 :: s1 =>
      if space1 c1 then trimSpaces fwd s1
      else
        match s1 with
        | c2 :: s2 =>
            if (if fwd then space2 c1 c2 else space2 c2 c1) then trimSpaces fwd s2
            else
              match s2 with
              | c3 :: s3 =>
                  if (if fwd then space3 c1 c2 c3 else space3 c3 c2 c1) then trimSpaces fwd s3
                  else s
              | [] => s
              end
        | [] => s
        end
  end.

(** [strings.TrimSpace]: leading and trailing Unicode white space removed. *)
Definition TrimSpace (s : string) : string :=
  string_of_list_ascii
    (reverse (trimSpaces false (reverse (trimSpaces true (list_ascii_of_string s))))).

Fixpoint inCutset (c : ascii) (cutset : string) : bool :=
  match cutset with
  | EmptyString => false
  | String d rest => Ascii.eqb c d || inCutset c rest
  end.

(** [strings.TrimRight s cutset] for a cutset of ASCII characters. *)
Fixpoint TrimRight (s : string) (cutset : string) : string :=
  match s with
  | EmptyString => EmptyString
  | String c rest =>
      let t := TrimRight rest cutset in
      if String.eqb t EmptyString && inCutset c cutset then EmptyString else String c t
  end.

(** The value of a digit character as [big.Int.SetString] reads it for a
    base of at most 36: letters count from ten, in either case. *)
Definition digitVal (c : ascii) : option Z :=
  let n := Z.of_nat (nat_of_ascii c) in
  if ascii_in 48 57 c then Some (n - 48)
  else if ascii_in 97 122 c then Some (n - 97 + 10)
  else if ascii_in 65 90 c then Some (n - 65 + 10)
  else None.

Fixpoint scanDigits (base : Z) (s : string) (acc : Z) : option Z :=
  match s with
  | EmptyString => Some acc
  | String c rest =>
      match digitVal c with
      | Some d => if d <? base then scanDigits base rest (acc * base + d) else None
      | None => None
      end
  end.

(** [new(big.Int).SetString(s, base)] for an explicit base (2..36): an
    optional sign, then at least one digit, and nothing else; [None] is the
    [ok = false] result. *)
Definition SetString (s : string) (base : Z) : option Z :=
  let '(neg, digits) :=
    match s with
    | String "+" rest => (false, rest)
    | String "-" rest => (true, rest)
    | _ => (false, s)
    end in
  match digits with
  | EmptyString => None
  | _ =>
      match scanDigits base digits 0 with
      | Some v => Some (if neg : bool then - v else v)
      | None => None
      end
  end.

(** The [String] method of a big integer: the decimal digits, with a minus sign when negative. *)
Definition Int_String (n : Z) : string := NilEmpty.string_of_int (Z.to_int n).

(** [strings.Repeat]. *)
Fixpoint Repeat (c : ascii) (n : nat) : string :=
  match n with
  | O => EmptyString
  | S n' => String c (Repeat c n')
  end.

(** [fmt.Sprintf("%0*d", width, n)] for a big integer [n]: zeros between the sign
    and the digits up to [width] characters in all. *)
Definition Sprintf_0d (width : Z) (n : Z) : string :=
  let digits := Int_String (Z.abs n) in
  let sign := if n <? 0 then "-" else "" in
  let len := Z.of_nat (String.length sign + String.length digits) in
  String.append sign (String.append (Repeat "0" (Z.to_nat (width - len))) digits).

(** [strings.Contains s sep] and [strings.Split s sep] for a separator of
    one byte: the pieces between the occurrences of [sep], one more than
    there are occurrences. *)
Fixpoint Contains (s : string) (sep : ascii) : bool :=
  match s with
  | EmptyString => false
  | String c rest => Ascii.eqb c sep || Contains rest sep
  end.

Fixpoint Split (s : string) (sep : ascii) : list string :=
  match s with
  | EmptyString => [EmptyString]
  | String c rest =>
      if Ascii.eqb c sep then EmptyString :: Split rest sep
      else
        match Split rest sep with
        | part :: parts => String c part :: parts
        | [] => [String c EmptyString]
        end
  end.

(** [strings.ToLower] on ASCII letters.  (On a string with other bytes Go
    maps rune by rune; no four bytes with a byte outside ASCII are mapped
    to four ASCII characters, so the comparison of a four-byte suffix
    with an ASCII extension comes out the same.) *)
Definition toLowerByte (c : ascii) : ascii :=
  if ascii_in 65 90 c then ascii_of_nat (nat_of_ascii c + 32) else c.

Fixpoint ToLower (s : string) : string :=
  match s with
  | EmptyString => EmptyString
  | String c rest => String (toLowerByte c) (ToLower rest)
  end.

(** [s[lo:]] on a string, for a Go integer [lo]; panics unless
    [0 <= lo <= len(s)]. *)
Definition string_from (s : string) (lo : Z) : outcome string :=
  if decide (0 <= lo <= Z.of_nat (String.length s))
  then Ret (String.substring (Z.to_nat lo) (String.length s - Z.to_nat lo) s)
  else Panic.

(** [for _, a := range l { body }] over a state, with the panics of the body. *)
Fixpoint forEach {A S : Type} (body : A -> S -> outcome S) (l : list A) (s : S) : outcome S :=
  match l with
  | [] => Ret s
  | a :: rest => s' ← body a s; forEach body rest s'
  end.

Module tron.

(** *** The rate limiter

    [time.Time] values are clock readings in nanoseconds and a
    [time.Duration] is a 64-bit count of nanoseconds. *)

Record RateLimiter := mkRateLimiter {
  rate : Z;
  interval : Z;
  tokens : Z;
  maxTokens : Z;
  lastRefill : Z
}.

Definition set_tokens (rl : RateLimiter) (t : Z) : RateLimiter :=
  mkRateLimiter (rate rl) (interval rl) t (maxTokens rl) (lastRefill rl).

Definition set_lastRefill (rl : RateLimiter) (t : Z) : RateLimiter :=
  mkRateLimiter (rate rl) (interval rl) (tokens rl) (maxTokens rl) t.

Definition NewRateLimiter (rate interval now : Z) : RateLimiter :=
  mkRateLimiter rate interval rate rate now.

(** [t.Sub(u)]: the difference, saturated to the range of a Duration. *)
Definition Sub (t u : Z) : Z := Z.max (- 2 ^ 63) (Z.min (2 ^ 63 - 1) (t - u)).

(** Integer division of Go: truncated, and a panic on a zero divisor. *)
Definition quo (a b : Z) : outcome Z :=
  if decide (b = 0) then Panic else Ret (wrap64 (Z.quot a b)).

(** [Wait]: [now1] is the clock read on entry, [now2] the clock read after
    the sleep (read only when the bucket was found empty). *)
Definition Wait (rl : RateLimiter) (now1 now2 : Z) : outcome RateLimiter :=
  let now := now1 in
  let elapsed := Sub now (lastRefill rl) in
  rl ← (if decide (elapsed > 0) then
          q ← quo elapsed (interval rl);
          let tokensToAdd := wrap64 (q * rate rl) in
          if decide (tokensToAdd > 0) then
            let rl := set_tokens rl (wrap64 (tokens rl + tokensToAdd)) in
            let rl := if decide (tokens rl > maxTokens rl)
                      then set_tokens rl (maxTokens rl) else rl in
            Ret (set_lastRefill rl now)
          else Ret rl
        else Ret rl);
  rl ← (if decide (tokens rl <= 0) then
          waitTime ← quo (interval rl) (rate rl);
          (* time.Sleep(waitTime) *)
          let now := now2 in
          let elapsed := Sub now (lastRefill rl) in
          if decide (elapsed > 0) then
            q ← quo elapsed (interval rl);
            let tokensToAdd := wrap64 (q * rate rl) in
            let rl := set_tokens rl tokensToAdd in
            let rl := if decide (tokens rl > maxTokens rl)
                      then set_tokens rl (maxTokens rl) else rl in
            Ret (set_lastRefill rl now)
          else Ret rl
        else Ret rl);
  Ret (set_tokens rl (wrap64 (tokens rl - 1))).

(** A sequence of [Wait] calls on one limiter, one pair of clock readings
    per call. *)
Fixpoint Waits (rl : RateLimiter) (clock : list (Z * Z)) : outcome RateLimiter :=
  match clock with
  | [] => Ret rl
  | (now1, now2) :: rest => rl' ← Wait rl now1 now2; Waits rl' rest
  end.

(** The duration [Wait] passes to [time.Sleep], if it sleeps: the refill
    on entry, then the test of the bucket. *)
Definition Wait_sleep (rl : RateLimiter) (now1 : Z) : outcome (option Z) :=
  let now := now1 in
  let elapsed := Sub now (lastRefill rl) in
  rl ← (if decide (elapsed > 0) then
          q ← quo elapsed (interval rl);
          let tokensToAdd := wrap64 (q * rate rl) in
          if decide (tokensToAdd > 0) then
            let rl := set_tokens rl (wrap64 (tokens rl + tokensToAdd)) in
            let rl := if decide (tokens rl > maxTokens rl)
                      then set_tokens rl (maxTokens rl) else rl in
            Ret (set_lastRefill rl now)
          else Ret rl
        else Ret rl);
  if decide (tokens rl <= 0) then
    waitTime ← quo (interval rl) (rate rl);
    Ret (Some waitTime)
  else Ret None.

(** *** address.go *)

Section client.

(** The two library functions address.go calls: [base58.Decode] of btcutil
    and [sha256.Sum256] of the Go standard library (a [[32]byte]). *)
Variable Decode : string -> list Z.
Variable Sum256 : list Z -> list Z.

Definition AddressToParameter (address : string) : outcome string :=
  let decoded := Decode address in
  if decide (length decoded < 21)%nat then Fail "无效的 TRON 地址"
  else
    addressBytes ← slice decoded 1 21;
    let param := replicate 32 0 in
    param ← copy_at param 12 addressBytes;
    Ret (EncodeToString param).

(** The loop [for i := 0; i < 4; i++] of ValidateAddress, entered at [i]
    with [n = 4 - i] iterations left. *)
Fixpoint checksumLoop (checkSum secondHash : list Z) (i n : nat) : outcome bool :=
  match n with
  | O => Ret true
  | S n' =>
      c ← index checkSum i;
      h ← index secondHash i;
      if decide (c <> h) then Ret false
      else checksumLoop checkSum secondHash (S i) n'
  end.

Definition ValidateAddress (address : string) : outcome bool :=
  let decoded := Decode address in
  if decide (length decoded <> 25%nat) then Ret false
  else
    addrBytes ← slice decoded 0 21;
    checkSum ← slice_from decoded 21;
    let firstHash := Sum256 addrBytes in
    let secondHash := Sum256 firstHash in
    checksumLoop checkSum secondHash 0 4.

Definition AddressToHex (address : string) : outcome string :=
  let decoded := Decode address in
  if decide (length decoded < 21)%nat then Fail "无效的 TRON 地址"
  else
    addressBytes ← slice decoded 0 21;
    Ret (EncodeToString addressBytes).

(** The loop of ValidateAddressWithError, entered at [i] with [n = 4 - i]
    iterations left; [Ret tt] is the nil error. *)
Fixpoint checksumErrorLoop (checkSum secondHash : list Z) (i n : nat) : outcome unit :=
  match n with
  | O => Ret tt
  | S n' =>
      c ← index checkSum i;
      h ← index secondHash i;
      if decide (c <> h) then Fail "地址校验码错误"
      else checksumErrorLoop checkSum secondHash (S i) n'
  end.

Definition ValidateAddressWithError (address : string) : outcome unit :=
  let decoded := Decode address in
  if decide (length decoded <> 25%nat) then Fail "地址长度不正确"
  else
    addrBytes ← slice decoded 0 21;
    checkSum ← slice_from decoded 21;
    let firstHash := Sum256 addrBytes in
    let secondHash := Sum256 firstHash in
    checksumErrorLoop checkSum secondHash 0 4.

(** *** api.go *)

Definition USDTContractAddress : string := "TR7NHqjeKQxGTCi8q8ZY4pL8otSzgjLj6t".
Definition TronGridAPI : string := "https://api.trongrid.io/wallet/triggerconstantcontract".
Definition BalanceOfSelector : string := "balanceOf(address)".

Record TriggerConstantContractRequest := mkRequest {
  OwnerAddress : string;
  ContractAddress : string;
  FunctionSelector : string;
  Parameter_ : string;   (* the field Parameter *)
  Visible : bool
}.

(** The response structure the body is unmarshalled into. *)
Record apiResp := mkApiResp {
  ConstantResult : list string;
  Result_Result : bool;
  Result_Code : string;
  Result_Message : string;
  Error : string;
  ErrorDescription : string
}.

(** What reading and unmarshalling a response body gives. *)
Inductive body :=
| ReadError                (* io.ReadAll fails *)
| BadJSON                  (* json.Unmarshal fails *)
| Parsed (r : apiResp).

Record Response := mkResponse { StatusCode : Z; Body : body }.

(** What [c.HTTPClient.Do(req)] gives: a response and a nil error, or an
    error (with a response only when a redirect failed). *)
Inductive DoResult :=
| DoOk (resp : Response)
| DoErr (resp : option Response).

(** The world one query runs in: whether building the request fails,
    whether the context is already cancelled when attempt [i] is about to
    start, and what attempt [i] of the request gives. *)
Record world := mkWorld {
  newRequestFails : bool;
  ctxErr : nat -> bool;
  Do : TriggerConstantContractRequest -> nat -> DoResult
}.

Inductive event :=
| Sent (i : nat)          (* attempt i was sent *)
| Slept (seconds : Z).    (* time.Sleep *)

Inductive loopExit :=
| Cancelled                                         (* return "", "请求已取消" *)
| LoopDone (resp : option Response) (lastErr : bool).

Definition maxRetries : nat := 3.

(** The events of an iteration, then those of the rest of the loop. *)
Definition later (evs : list event) (rest : loopExit * list event) : loopExit * list event :=
  (rest.1, evs ++ rest.2).

(** The loop [for i := 0; i < maxRetries; i++], entered at [i] with
    [n = maxRetries - i] iterations left: how it is left, and the attempts
    and sleeps in order. *)
Fixpoint sendLoop (w : world) (req : TriggerConstantContractRequest)
    (i n : nat) (resp : option Response) (lastErr : bool) : loopExit * list event :=
  match n with
  | O => (LoopDone resp lastErr, [])
  | S n' =>
      if ctxErr w i then (Cancelled, [])
      else
        let '(resp, lastErr) :=
          match Do w req i with
          | DoOk r => (Some r, false)
          | DoErr r => (r, true)
          end in
        let status := StatusCode <$> resp in
        if negb lastErr && bool_decide (status = Some 200) then
          (LoopDone resp lastErr, [Sent i])                               (* break *)
        else if bool_decide (status = Some 429) then
          later [Sent i; Slept ((Z.of_nat i + 1) * 2)]
                (sendLoop w req (S i) n' resp lastErr)                    (* continue *)
        else if lastErr then
          if (i <? maxRetries - 1)%nat then
            later [Sent i; Slept (Z.of_nat i + 1)]
                  (sendLoop w req (S i) n' resp lastErr)                  (* continue *)
          else later [Sent i] (sendLoop w req (S i) n' resp lastErr)
        else later [Sent i] (sendLoop w req (S i) n' resp lastErr)
  end.

(** The diagnostic texts the function picks from the response. *)
Definition topLevelDescription (r : apiResp) : string :=
  let desc := ErrorDescription r in
  if String.eqb desc "" then Error r else desc.

Definition resultErrorMsg (r : apiResp) : string :=
  let errorMsg := Result_Message r in
  let errorMsg := if String.eqb errorMsg "" then Result_Code r else errorMsg in
  if String.eqb errorMsg "" then "未知错误" else errorMsg.

Definition formatDecimals (n : Z) (decimals : Z) : string :=
  if decide (decimals = 0) then Int_String n
  else
    let tenPow := if decimals <? 0 then 1 else 10 ^ decimals in
    let intPart := n / tenPow in
    let fracPart := n mod tenPow in
    let fracStr := Sprintf_0d decimals fracPart in
    let fracStr := TrimRight fracStr "0" in
    if String.eqb fracStr "" then Int_String intPart
    else String.append (Int_String intPart) (String.append "." fracStr).

(** From the unmarshalled response to the balance: the checks of the
    top-level error, of the result flag and of [constant_result], then the
    conversion of the first hex string. *)
Definition decodeResponse (r : apiResp) : outcome string :=
  if negb (String.eqb (Error r) "") then
    let desc := topLevelDescription r in
    Fail "API 错误: %s (完整响应: %s)"
  else if negb (Result_Result r) then
    let errorMsg := resultErrorMsg r in
    Fail "查询失败: result=false, code=%s, 完整响应: %s"
  else if decide (0 < length (ConstantResult r))%nat then   (* len(...) > 0 *)
    let constantResults := ConstantResult r in
    balanceHex ← index constantResults 0;
    let balanceHex := TrimSpace balanceHex in
    let balanceHex := if String.eqb balanceHex "" then "0" else balanceHex in
    match SetString balanceHex 16 with
    | None => Fail "无法解析hex余额: %s"
    | Some n => Ret (formatDecimals n 6)
    end
  else Fail "查询失败: 响应中没有 constant_result (完整响应: %s)".

(** What follows the loop: the last error, the status, the body. *)
Definition afterLoop (resp : option Response) (lastErr : bool) : outcome string :=
  if lastErr then Fail "请求失败: %v"
  else
    match resp with
    | None => Panic
    | Some resp =>
        if decide (StatusCode resp <> 200) then Fail "API 返回错误 (HTTP %d): %s"
        else
          match Body resp with
          | ReadError => Fail "读取响应失败: %v"
          | BadJSON => Fail "解析响应失败: %v, 响应内容: %s"
          | Parsed r => decodeResponse r
          end
    end.

(** [QueryBalanceWithContext], after [c.RateLimiter.Wait()] (modelled by
    [Wait] above; it changes the limiter only): the balance or the error,
    and the attempts and sleeps of the call. *)
Definition QueryBalanceWithContext (w : world) (address : string)
    : outcome string * list event :=
  match AddressToParameter address with
  | Ret param =>
      let reqBody := mkRequest address USDTContractAddress BalanceOfSelector param true in
      if newRequestFails w then (Fail "创建请求失败: %v", [])
      else
        match sendLoop w reqBody 0 maxRetries None false with
        | (Cancelled, log) => (Fail "请求已取消", log)
        | (LoopDone resp lastErr, log) => (afterLoop resp lastErr, log)
        end
  | Fail _ => (Fail "地址转换失败: %v", [])
  | Panic => (Panic, [])
  end.

(** [QueryBalance]: the same call under [context.Background()], whose
    [Err()] is nil at every attempt. *)
Definition QueryBalance (w : world) (address : string) : outcome string * list event :=
  QueryBalanceWithContext (mkWorld (newRequestFails w) (fun _ => false) (Do w)) address.

(** The client: [Timeout] is the one of its [http.Client], in nanoseconds,
    and [Limiter] the field RateLimiter. *)
Record APIClient := mkClient {
  APIKey : string;
  BaseURL : string;
  Timeout : Z;
  Limiter : RateLimiter
}.

Definition Second : Z := 1000000000.

(** [NewAPIClient]; [now] is the clock NewRateLimiter reads. *)
Definition NewAPIClient (apiKey : string) (now : Z) : APIClient :=
  mkClient apiKey TronGridAPI (30 * Second) (NewRateLimiter 12 Second now).

End client.

End tron.

Module core.

(** *** The API-key manager *)

Definition MaxQueriesPerKey : Z := 100000.

Record APIKeyInfo := mkKey {
  Key : string;
  Used : Z;
  MaxLimit : Z;
  Enabled : bool
}.

(** [current] is an index that starts at 0 and is only ever set to 0 or to
    a remainder modulo the number of keys, hence a [nat]. *)
Record APIKeyManager := mkManager {
  keys : list APIKeyInfo;
  current : nat;
  totalUsed : Z
}.

Definition NewAPIKeyManager : APIKeyManager := mkManager [] 0 0.

Definition GetKeyCount (m : APIKeyManager) : nat := length (keys m).

(** The mutex [m.mu] as the goroutine that runs a method finds it: free,
    or write-locked by that goroutine itself ([m.mu.Lock()] with the
    unlock deferred to the return). *)
Inductive mutex := Unlocked | Locked.

(** How a call ends: it returns, or it waits for ever for [m.mu]. *)
Inductive ending (A : Type) : Type :=
| Returns (a : A)
| Blocked.

Arguments Returns {A} a.
Arguments Blocked {A}.

#[global] Instance ending_bind : MBind ending :=
  fun A B k m => match m with Returns a => k a | Blocked => Blocked end.

(** [saveStats]: it takes [m.mu.RLock()], which a goroutine holding the
    write lock never gets, builds the map from key to use count and hands
    it to the JSON encoder.  The result is that map; the errors of the
    file system are left out (no caller looks at them). *)
Definition saveStats (mu : mutex) (m : APIKeyManager) : ending (gmap string Z) :=
  match mu with
  | Locked => Blocked
  | Unlocked =>
      Returns (foldl (fun stats keyInfo => <[Key keyInfo := Used keyInfo]> stats) ∅ (keys m))
  end.

(** What [RemoveKey] and [RemoveKeysByUsageThreshold] do to the manager
    before they call saveStats, and the result they are about to return. *)
Definition RemoveKey_update (m : APIKeyManager) (keyToRemove : string)
    : APIKeyManager * outcome unit :=
  let newKeys := filter (fun keyInfo => Key keyInfo <> keyToRemove) (keys m) in
  let found := bool_decide (Exists (fun keyInfo => Key keyInfo = keyToRemove) (keys m)) in
  if negb found then (m, Fail "未找到指定的 API Key")
  else
    let cur := if decide (length newKeys <= current m)%nat then O else current m in
    (mkManager newKeys cur (totalUsed m), Ret tt).

Definition RemoveKeysByUsageThreshold_update (m : APIKeyManager) (threshold : Z)
    : APIKeyManager * outcome Z :=
  if decide (length (keys m) = 0)%nat then (m, Ret 0)
  else
    let newKeys := filter (fun keyInfo => ~ (Used keyInfo >= threshold)) (keys m) in
    let removedCount := Z.of_nat (length (keys m) - length newKeys) in
    let cur := if decide (length newKeys <= current m)%nat then O else current m in
    (mkManager newKeys cur (totalUsed m), Ret removedCount).

(** The two methods: [m.mu.Lock()] with the unlock deferred, the update,
    and, unless the method has returned early, [m.saveStats()] under that
    lock. *)
Definition RemoveKey (m : APIKeyManager) (keyToRemove : string)
    : ending (APIKeyManager * outcome unit) :=
  match RemoveKey_update m keyToRemove with
  | (m', Ret tt) => _ ← saveStats Locked m'; Returns (m', Ret tt)
  | early => Returns early
  end.

Definition RemoveKeysByUsageThreshold (m : APIKeyManager) (threshold : Z)
    : ending (APIKeyManager * outcome Z) :=
  if decide (length (keys m) = 0)%nat then Returns (m, Ret 0)
  else
    let '(m', removedCount) := RemoveKeysByUsageThreshold_update m threshold in
    _ ← saveStats Locked m'; Returns (m', removedCount).

(** The test [keyInfo.Enabled && keyInfo.Used < keyInfo.MaxLimit]. *)
Definition available (keyInfo : APIKeyInfo) : bool :=
  Enabled keyInfo && (Used keyInfo <? MaxLimit keyInfo).

(** [keyInfo.Used++]. *)
Definition spend (keyInfo : APIKeyInfo) : APIKeyInfo :=
  mkKey (Key keyInfo) (wrap64 (Used keyInfo + 1)) (MaxLimit keyInfo) (Enabled keyInfo).

Definition exhaustedOne : string := "API Key 已达到使用上限".
Definition exhaustedAll : string := "所有 API Key 都已达到使用上限".
Definition noKeys : string := "没有可用的 API Key".

(** The loop [for i := 0; i < maxAttempts; i++] of GetNextKey with [n]
    iterations left. *)
Fixpoint scanKeys (m : APIKeyManager) (startIndex : nat) (n : nat)
    : APIKeyManager * outcome string :=
  match n with
  | O => (m, Fail exhaustedAll)
  | S n' =>
      match keys m !! current m with
      | None => (m, Panic)
      | Some keyInfo =>
          let nextIndex := ((current m + 1) mod length (keys m))%nat in
          if available keyInfo then
            (mkManager (<[current m := spend keyInfo]> (keys m)) nextIndex
                       (wrap64 (totalUsed m + 1)),
             Ret (Key keyInfo))
          else
            let m := mkManager (keys m) nextIndex (totalUsed m) in
            if decide (current m = startIndex) then (m, Fail exhaustedAll)   (* break *)
            else scanKeys m startIndex n'
      end
  end.

(** [GetNextKey]: the manager after the call and what the call returns.
    The usage file is written in the background afterwards; that write
    neither changes the manager nor the result. *)
Definition GetNextKey (m : APIKeyManager) : APIKeyManager * outcome string :=
  if decide (length (keys m) = 0)%nat then (m, Fail noKeys)
  else if decide (length (keys m) = 1)%nat then
    match keys m !! O with
    | None => (m, Panic)
    | Some keyInfo =>
        if available keyInfo then
          (mkManager (<[O := spend keyInfo]> (keys m)) (current m)
                     (wrap64 (totalUsed m + 1)),
           Ret (Key keyInfo))
        else (m, Fail exhaustedOne)
    end
  else scanKeys m (current m) (length (keys m)).

(** [n] calls in a row: the manager at the end and the results in order. *)
Fixpoint GetNextKeys (m : APIKeyManager) (n : nat)
    : APIKeyManager * list (outcome string) :=
  match n with
  | O => (m, [])
  | S n' =>
      let '(m1, r) := GetNextKey m in
      let '(m2, rs) := GetNextKeys m1 n' in
      (m2, r :: rs)
  end.

(** *** The key file and the usage file *)

(** What a [bufio.Scanner] gives for a text file: the lines in order, and
    the error of [scanner.Err()] when the scan stopped on one. *)
Record textFile := mkTextFile {
  fileLines : list string;
  scanErr : option string
}.

(** The usage file as [loadStats] finds it: [getStatsPath] fails with an
    error, or the file cannot be opened or decoded, or it decodes to a
    [KeyStatsFile] whose [Keys] may be nil. *)
Inductive statsFile :=
| NoStatsPath (err : string)
| NoStats
| Stats (Keys : option (gmap string Z)).

Definition loadStats (f : statsFile) : outcome (gmap string Z) :=
  match f with
  | NoStatsPath err => Fail err
  | NoStats => Ret ∅
  | Stats None => Ret ∅
  | Stats (Some Keys) => Ret Keys
  end.

(** The loop [for i := range keys] that copies the recorded counts. *)
Definition mergeStats (stats : gmap string Z) (ks : list APIKeyInfo) : list APIKeyInfo :=
  (fun keyInfo =>
     match stats !! Key keyInfo with
     | Some used => mkKey (Key keyInfo) used (MaxLimit keyInfo) (Enabled keyInfo)
     | None => keyInfo
     end) <$> ks.

(** The loop [for scanner.Scan()] of LoadKeysFromFile. *)
Fixpoint scanKeyLines (lines : list string) (keys : list APIKeyInfo) (seen : gset string)
    : list APIKeyInfo :=
  match lines with
  | [] => keys
  | text :: rest =>
      let line := TrimSpace text in
      if String.eqb line "" then scanKeyLines rest keys seen
      else if bool_decide (line ∈ seen) then scanKeyLines rest keys seen
      else scanKeyLines rest (keys ++ [mkKey line 0 MaxQueriesPerKey true]) ({[line]} ∪ seen)
  end.

(** [LoadKeysFromFile]: [file] is what [os.Open] gives ([None] when it
    fails) and [stats] the usage file. *)
Definition LoadKeysFromFile (m : APIKeyManager) (file : option textFile) (stats : statsFile)
    : ending (APIKeyManager * outcome unit) :=
  match file with
  | None => Returns (m, Fail "打开文件失败")
  | Some f =>
      let keys := scanKeyLines (fileLines f) [] ∅ in
      if bool_decide (scanErr f <> None) then Returns (m, Fail "读取文件失败")
      else if decide (length keys = 0)%nat then Returns (m, Fail "文件中没有找到有效的 API Key")
      else
        (* m.mu.Lock() *)
        let keys := match loadStats stats with
                    | Ret stats => mergeStats stats keys
                    | _ => keys
                    end in
        let m := mkManager keys 0 (totalUsed m) in
        (* m.mu.Unlock() *)
        _ ← saveStats Unlocked m;
        Returns (m, Ret tt)
  end.

Definition LoadStatsIfExists (m : APIKeyManager) (stats : statsFile)
    : APIKeyManager * outcome unit :=
  match loadStats stats with
  | Ret stats => (mkManager (mergeStats stats (keys m)) (current m) (totalUsed m), Ret tt)
  | Fail err => (m, Fail err)
  | Panic => (m, Panic)
  end.

(** [GetKeyStatus]; [Remaining] is a difference of Go integers. *)
Module status.
Record APIKeyStatus := mkStatus {
  Key : string;
  Used : Z;
  Remaining : Z;
  MaxLimit : Z;
  Enabled : bool;
  DisplayName : string
}.
End status.

Definition GetKeyStatus (m : APIKeyManager) : list status.APIKeyStatus :=
  imap (fun i keyInfo =>
          status.mkStatus (Key keyInfo) (Used keyInfo)
                          (wrap64 (MaxLimit keyInfo - Used keyInfo))
                          (MaxLimit keyInfo) (Enabled keyInfo)
                          (String.append "Key " (Int_String (Z.of_nat i + 1))))
       (keys m).

Definition GetTotalUsed (m : APIKeyManager) : Z := totalUsed m.

(** *** query.go *)

Record QueryResult := mkResult {
  Address : string;
  Balance : string;
  Status : string;
  Error : string
}.

(** [GetStats]: the loop over the results.  The counters never exceed the
    number of results, so no wrap-around is written. *)
Definition countResult (acc : Z * Z) (r : QueryResult) : Z * Z :=
  let '(success, failed) := acc in
  if String.eqb (Status r) "success" then (success + 1, failed)
  else if String.eqb (Status r) "error" then (success, failed + 1)
  else (success, failed).

Definition GetStats (results : list QueryResult) : Z * Z * Z :=
  let total := Z.of_nat (length results) in
  let '(success, failed) := foldl countResult (0, 0) results in
  (total, success, failed).

(** [SetMaxConcurrent]: the value kept in [maxConcurrent]. *)
Definition SetMaxConcurrent (max : Z) : Z :=
  let max := if decide (max < 1) then 1 else max in
  if decide (max > 50) then 50 else max.

(** **** The worker pool of QueryAddresses

    The goroutines of one call are modelled by a labelled transition
    function: a label names the goroutine that moves and what its
    environment answers, and [fire] gives the state after the move (or
    [None] when that move is not possible in the state).  A run of
    QueryAddresses is a list of labels. *)

Inductive worker :=
| Idle                                   (* at [for i := range jobs] *)
| Holding (i : nat)                      (* received i, before the select *)
| Querying (i : nat) (apiKey : string)   (* inside QueryBalanceWithContext *)
| Exited.                                (* after wg.Done() *)

Record state := mkState {
  results : list QueryResult;
  keyManager : APIKeyManager;
  ctxDone : bool;           (* qm.ctx is cancelled *)
  next : nat;               (* the sender's loop index *)
  closed : bool;            (* the sender has returned and closed jobs *)
  workers : list worker;
  completedCount : Z
}.

Inductive label :=
| Cancel                  (* qm.Cancel() is called *)
| Send (w : nat)          (* the select sends the next index, worker w receives it *)
| Stop                    (* the select takes <-qm.ctx.Done(): the sender returns *)
| Finish                  (* the sender's loop is over *)
| Check (w : nat)         (* worker w: the select on ctx.Done(), then GetNextKey *)
| Answer (w : nat) (balance : string) (err : option string)
                          (* QueryBalanceWithContext returns to worker w *)
| Exit (w : nat).         (* worker w finds jobs closed *)

Definition pendingResult (addr : string) : QueryResult := mkResult addr "" "pending" "".
Definition noKeyResult (addr : string) : QueryResult := mkResult addr "" "error" noKeys.
Definition cancelledResult (addr : string) : QueryResult := mkResult addr "" "cancelled" "已取消".
Definition keyErrorResult (addr : string) (e : string) : QueryResult :=
  mkResult addr "" "error" (String.append "API Key 获取失败: " e).
Definition errorResult (addr : string) (e : string) : QueryResult := mkResult addr "" "error" e.
Definition successResult (addr : string) (balance : string) : QueryResult :=
  mkResult addr balance "success" "".

(** [qm.results[i] = r] by worker [w], which then counts the completion and
    goes back to the channel; a panic when [i] is out of range. *)
Definition complete (s : state) (km : APIKeyManager) (w i : nat) (r : QueryResult)
    : option state :=
  if decide (i < length (results s))%nat then
    Some (mkState (<[i := r]> (results s)) km (ctxDone s) (next s) (closed s)
                  (<[w := Idle]> (workers s)) (wrap64 (completedCount s + 1)))
  else None.

Definition set_worker (s : state) (km : APIKeyManager) (w : nat) (x : worker) : state :=
  mkState (results s) km (ctxDone s) (next s) (closed s) (<[w := x]> (workers s))
          (completedCount s).

Definition fire (addresses : list string) (l : label) (s : state) : option state :=
  match l with
  | Cancel =>
      if ctxDone s then None
      else Some (mkState (results s) (keyManager s) true (next s) (closed s) (workers s)
                         (completedCount s))
  | Send w =>
      match workers s !! w with
      | Some Idle =>
          if negb (closed s) && bool_decide (next s < length addresses)%nat then
            Some (mkState (results s) (keyManager s) (ctxDone s) (S (next s)) (closed s)
                          (<[w := Holding (next s)]> (workers s)) (completedCount s))
          else None
      | _ => None
      end
  | Stop =>
      if negb (closed s) && bool_decide (next s < length addresses)%nat && ctxDone s then
        Some (mkState (results s) (keyManager s) (ctxDone s) (next s) true (workers s)
                      (completedCount s))
      else None
  | Finish =>
      if negb (closed s) && bool_decide (length addresses <= next s)%nat then
        Some (mkState (results s) (keyManager s) (ctxDone s) (next s) true (workers s)
                      (completedCount s))
      else None
  | Check w =>
      match workers s !! w with
      | Some (Holding i) =>
          addr ← addresses !! i;
          if ctxDone s then complete s (keyManager s) w i (cancelledResult addr)
          else
            match GetNextKey (keyManager s) with
            | (km, Ret apiKey) => Some (set_worker s km w (Querying i apiKey))
            | (km, Fail e) => complete s km w i (keyErrorResult addr e)
            | (_, Panic) => None
            end
      | _ => None
      end
  | Answer w balance err =>
      match workers s !! w with
      | Some (Querying i _) =>
          addr ← addresses !! i;
          match err with
          | Some e => complete s (keyManager s) w i (errorResult addr e)
          | None => complete s (keyManager s) w i (successResult addr balance)
          end
      | _ => None
      end
  | Exit w =>
      match workers s !! w with
      | Some Idle =>
          if closed s then Some (set_worker s (keyManager s) w Exited) else None
      | _ => None
      end
  end.

(** The state a list of moves leads to. *)
Fixpoint exec (addresses : list string) (trace : list label) (s : state) : option state :=
  match trace with
  | [] => Some s
  | l :: rest => s' ← fire addresses l s; exec addresses rest s'
  end.

(** [wg.Wait()] returns: every worker has exited. *)
Definition returned (s : state) : bool :=
  forallb (fun x => match x with Exited => true | _ => false end) (workers s).

(** The beginning of QueryAddresses: with no key every result is an error
    and the call returns at once; otherwise the workers and the sender are
    started. *)
Inductive begun :=
| ReturnedAtOnce (results : list QueryResult) (progress : Z * Z)
| Started (s : state).

Definition QueryAddresses (km : APIKeyManager) (maxConcurrent : Z) (addresses : list string)
    : begun :=
  if decide (GetKeyCount km = 0)%nat then
    ReturnedAtOnce (noKeyResult <$> addresses)
                   (Z.of_nat (length addresses), Z.of_nat (length addresses))
  else
    Started (mkState (pendingResult <$> addresses) km false 0 false
                     (replicate (Z.to_nat maxConcurrent) Idle) 0).

Definition terminal (r : QueryResult) : Prop :=
  Status r = "success" \/ Status r = "error" \/ Status r = "cancelled".

(** *** Loading addresses *)

Section files.

Variable Decode : string -> list Z.
Variable Sum256 : list Z -> list Z.

(** The addresses kept so far and the map [seen]. *)
Definition kept : Type := list string * gset string.

(** The test [tron.ValidateAddressWithError(addr) == nil]. *)
Definition validNoError (addr : string) : outcome bool :=
  match tron.ValidateAddressWithError Decode Sum256 addr with
  | Ret _ => Ret true
  | Fail _ => Ret false
  | Panic => Panic
  end.

(** [if addr != "" && !seen[addr] { if valid(addr) { addresses =
    append(addresses, addr); seen[addr] = true } }], the statement the
    loops below repeat. *)
Definition keep (valid : string -> outcome bool) (addr : string) (acc : kept) : outcome kept :=
  if negb (String.eqb addr "") && negb (bool_decide (addr ∈ acc.2)) then
    ok ← valid addr;
    if ok : bool then Ret (acc.1 ++ [addr], {[addr]} ∪ acc.2) else Ret acc
  else Ret acc.

Definition tab : ascii := "009"%char.
Definition newline : ascii := "010"%char.

Definition separators : list ascii := [","%char; " "%char; tab; ";"%char].

(** One round of the loop over the separators: every part that contains
    [sep] is replaced by its pieces. *)
Definition splitParts (parts : list string) (sep : ascii) : list string :=
  flat_map (fun part => if Contains part sep then Split part sep else [part]) parts.

Definition noAddressInText : string :=
  String.append "没有找到有效的 TRON 地址。"
    (String newline
       (String.append "TRON 地址应该是 34 个字符，以 T 开头。"
          (String newline "如果地址格式正确但仍报错，可能是校验码错误（地址本身无效）"))).

Definition LoadAddressesFromText (text : string) : outcome (list string) :=
  let lines := Split text newline in
  acc ← forEach (fun line acc =>
                   let line := TrimSpace line in
                   if String.eqb line "" then Ret acc   (* continue *)
                   else
                     let parts := foldl splitParts [line] separators in
                     forEach (fun part acc => keep validNoError (TrimSpace part) acc) parts acc)
                lines (([], ∅) : kept);
  if decide (length acc.1 = 0)%nat then Fail noAddressInText else Ret acc.1.

(** What [csv.NewReader(file).ReadAll()] gives. *)
Inductive csvRead :=
| CSVError (err : string)
| CSVRecords (records : list (list string)).

(** An open file, as each of the two readers would read it. *)
Record inputFile := mkInputFile {
  asCSV : csvRead;
  asText : textFile
}.

(** What [os.Open] gives. *)
Inductive opened :=
| OpenError (err : string)
| Opened (f : inputFile).

Definition noAddressInFile : string :=
  String.append "文件中没有找到有效的 TRON 地址。"
    (String newline "TRON 地址应该是 34 个字符，以 T 开头，并且通过校验码验证").

Definition LoadAddressesFromFile (file : opened) (filepath : string) : outcome (list string) :=
  match file with
  | OpenError err => Fail (String.append "打开文件失败: " err)
  | Opened f =>
      suffix ← string_from filepath (Z.of_nat (String.length filepath) - 4);
      let ext := ToLower suffix in
      acc ← (if String.eqb ext ".csv" then
               match asCSV f with
               | CSVError err => Fail (String.append "读取 CSV 失败: " err)
               | CSVRecords records =>
                   forEach (fun record acc =>
                              forEach (fun field acc =>
                                         keep (tron.ValidateAddress Decode Sum256)
                                              (TrimSpace field) acc)
                                      record acc)
                           records (([], ∅) : kept)
               end
             else
               acc ← forEach (fun text acc =>
                                let line := TrimSpace text in
                                if String.eqb line "" then Ret acc   (* continue *)
                                else if Contains line ","%char then
                                  let parts := Split line ","%char in
                                  forEach (fun part acc =>
                                             keep (tron.ValidateAddress Decode Sum256)
                                                  (TrimSpace part) acc)
                                          parts acc
                                else if negb (bool_decide (line ∈ acc.2)) then
                                  ok ← tron.ValidateAddress Decode Sum256 line;
                                  if ok : bool then Ret (acc.1 ++ [line], {[line]} ∪ acc.2)
                                  else Ret acc
                                else Ret acc)
                             (fileLines (asText f)) (([], ∅) : kept);
               match scanErr (asText f) with
               | Some err => Fail (String.append "读取文件失败: " err)
               | None => Ret acc
               end);
      if decide (length acc.1 = 0)%nat then Fail noAddressInFile else Ret acc.1
  end.

End files.

(** *** Exporting results *)

Definition exportHeader : list string := ["地址"; "余额"; "状态"; "错误信息"].

(** The record ExportToCSV writes for a result. *)
Definition exportRecord (result : QueryResult) : list string :=
  let status := "成功" in
  let status := if String.eqb (Status result) "error" then "失败"
                else if String.eqb (Status result) "cancelled" then "已取消"
                else status in
  let balance := Balance result in
  let balance := if String.eqb balance "" then "0.000000" else balance in
  [Address result; balance; status; Error result].

(** The loop over the results; [writeErr k] is the error of the call of
    [writer.Write] number [k], if it fails, and [written] the records
    the writer has accepted. *)
Fixpoint writeRecords (writeErr : nat -> option string) (k : nat) (results : list QueryResult)
    (written : list (list string)) : list (list string) * outcome unit :=
  match results with
  | [] => (written, Ret tt)
  | result :: rest =>
      match writeErr k with
      | Some err => (written, Fail (String.append "写入数据失败: " err))
      | None => writeRecords writeErr (S k) rest (written ++ [exportRecord result])
      end
  end.

(** [ExportToCSV]: [createErr] is the error of [os.Create], if it fails;
    the result is the records written and the error returned. *)
Definition ExportToCSV (results : list QueryResult) (createErr : option string)
    (writeErr : nat -> option string) : list (list string) * outcome unit :=
  match createErr with
  | Some err => ([], Fail (String.append "创建文件失败: " err))
  | None =>
      match writeErr O with
      | Some err => ([], Fail (String.append "写入表头失败: " err))
      | None => writeRecords writeErr 1 results [exportHeader]
      end
  end.

(** *** The AES helpers

    [crypto/aes] and [crypto/cipher] are not part of the repository.  The
    block cipher is a pair of functions on 16-byte blocks, [Encrypt] and
    [Decrypt], under a key of 16, 24 or 32 bytes; the CBC modes are those of
    [cipher.NewCBCEncrypter] and [cipher.NewCBCDecrypter], whose
    [CryptBlocks] panics when its input is not a whole number of blocks. *)

Section aes.

Variable Encrypt : list Z -> list Z -> list Z.
Variable Decrypt : list Z -> list Z -> list Z.
Variable Sum256 : list Z -> list Z.

Definition BlockSize : nat := 16.

(** [aes.NewCipher]: the key as the block cipher, or a KeySizeError. *)
Definition NewCipher (key : list Z) : outcome (list Z) :=
  if bool_decide (length key = 16 \/ length key = 24 \/ length key = 32)%nat then Ret key
  else Fail (String.append "crypto/aes: invalid key size " (Int_String (Z.of_nat (length key)))).

Definition xorBytes (a b : list Z) : list Z := zip_with Z.lxor a b.

(** The blocks of [src] in CBC mode, [n] of them, after the block [prev]. *)
Fixpoint cbcEncrypt (block prev src : list Z) (n : nat) : list Z :=
  match n with
  | O => []
  | S n' =>
      let c := Encrypt block (xorBytes (take BlockSize src) prev) in
      c ++ cbcEncrypt block c (drop BlockSize src) n'
  end.

Fixpoint cbcDecrypt (block prev src : list Z) (n : nat) : list Z :=
  match n with
  | O => []
  | S n' =>
      let c := take BlockSize src in
      xorBytes (Decrypt block c) prev ++ cbcDecrypt block c (drop BlockSize src) n'
  end.

(** [mode.CryptBlocks(dst, src)] with [dst] as long as [src]. *)
Definition CryptBlocks (crypt : list Z -> nat -> list Z) (src : list Z) : outcome (list Z) :=
  if decide (length src mod BlockSize <> 0)%nat then Panic   (* input not full blocks *)
  else Ret (crypt src (length src / BlockSize)%nat).

(** [encryptAES]; [random] is what [io.ReadFull(rand.Reader, iv)] gives:
    16 bytes, or an error. *)
Definition encryptAES (plaintext key : list Z) (random : outcome (list Z)) : outcome (list Z) :=
  block ← NewCipher key;
  let blockSize := BlockSize in
  let padding := (blockSize - length plaintext mod blockSize)%nat in
  let plaintext := plaintext ++ [Z.of_nat padding mod 256] in
  iv ← random;
  encrypted ← CryptBlocks (cbcEncrypt block iv) plaintext;
  Ret (iv ++ encrypted).

Definition decryptAES (ciphertext key : list Z) : outcome (list Z) :=
  block ← NewCipher key;
  let blockSize := BlockSize in
  if decide (length ciphertext < blockSize)%nat then Fail "ciphertext too short"
  else
    iv ← slice ciphertext 0 blockSize;
    ciphertext ← slice_from ciphertext blockSize;
    ciphertext ← CryptBlocks (cbcDecrypt block iv) ciphertext;
    if decide (length ciphertext = 0)%nat then Panic   (* ciphertext[len(ciphertext)-1] *)
    else
      last ← index ciphertext (length ciphertext - 1);
      let padding := Z.to_nat last in
      if decide (length ciphertext < padding)%nat then Panic
      else slice ciphertext 0 (length ciphertext - padding).

(** [generateKey]: the SHA-256 digest of the bytes of the password. *)
Definition generateKey (password : string) : list Z :=
  Sum256 ((fun c => Z.of_nat (nat_of_ascii c)) <$> list_ascii_of_string password).

End aes.

End core.

(** * The vocabulary of the properties

    What the statements below are written with: predicates on strings,
    the reading of one query's attempts, the rendering of a balance as the
    specification words it, the invariants of the key manager and of the
    worker pool, and the data of the examples. *)

Import tron core.

(** ** Strings *)

(** A string of lowercase hex characters. *)
Fixpoint lowerHex (s : string) : bool :=
  match s with
  | EmptyString => true
  | String c rest => (ascii_in 48 57 c || ascii_in 97 102 c) && lowerHex rest
  end.

(** A string of zeros only. *)
Fixpoint allZeros (s : string) : bool :=
  match s with
  | EmptyString => true
  | String c rest => Ascii.eqb c "0" && allZeros rest
  end.

(** ** The attempts of a query *)

(** An attempt that ends the loop: a response with status 200 and no error. *)
Definition succeeded (r : DoResult) : bool :=
  match r with
  | DoOk resp => bool_decide (StatusCode resp = 200)
  | DoErr _ => false
  end.

(** The status of the response an attempt gave, if it gave one. *)
Definition statusOf (r : DoResult) : option Z :=
  match r with
  | DoOk resp => Some (StatusCode resp)
  | DoErr resp => StatusCode <$> resp
  end.

(** The values of [resp] and [lastErr] after an attempt. *)
Definition assigned (r : DoResult) : option Response * bool :=
  match r with
  | DoOk resp => (Some resp, false)
  | DoErr resp => (resp, true)
  end.

(** The sleep that follows attempt [i]: twice [i+1] seconds after a 429,
    [i+1] seconds after another transport error unless it was the last
    attempt, none otherwise. *)
Definition pause (i : nat) (r : DoResult) : list event :=
  if succeeded r then []
  else if bool_decide (statusOf r = Some 429) then [Slept ((Z.of_nat i + 1) * 2)]
  else
    match r with
    | DoErr _ => if (i <? 2)%nat then [Slept (Z.of_nat i + 1)] else []
    | DoOk _ => []
    end.

(** The events of attempts [i], ..., [i + k - 1]. *)
Definition attemptsLog (w : world) (req : TriggerConstantContractRequest) (i k : nat)
    : list event :=
  flat_map (fun j => Sent j :: pause j (Do w req j)) (seq i k).

(** ** The rendering of a balance *)

(** The rendering the specification describes, in its words: the unsigned
    value of the hex digits; the decimal digits of the quotient by 10^6;
    when the remainder is not zero, a point and the remainder padded with
    zeros to 6 digits, its trailing zeros removed. *)
Definition isHexDigit (c : ascii) : bool :=
  ascii_in 48 57 c || ascii_in 97 102 c || ascii_in 65 70 c.

Fixpoint allHex (s : string) : bool :=
  match s with
  | EmptyString => true
  | String c rest => isHexDigit c && allHex rest
  end.

Definition hexDigitValue (c : ascii) : Z :=
  let n := Z.of_nat (nat_of_ascii c) in
  if ascii_in 48 57 c then n - 48
  else if ascii_in 97 102 c then n - 87
  else n - 55.

Fixpoint unsignedHex (s : string) (acc : Z) : Z :=
  match s with
  | EmptyString => acc
  | String c rest => unsignedHex rest (16 * acc + hexDigitValue c)
  end.

Definition zeroPadded (width : nat) (r : Z) : string :=
  let digits := Int_String r in
  String.append (Repeat "0" (width - String.length digits)) digits.

Fixpoint dropZeros (l : list ascii) : list ascii :=
  match l with
  | c :: rest => if Ascii.eqb c "0" then dropZeros rest else l
  | [] => []
  end.

Definition withoutTrailingZeros (s : string) : string :=
  string_of_list_ascii (reverse (dropZeros (reverse (list_ascii_of_string s)))).

Definition scaledDecimal (n : Z) : string :=
  let whole := Int_String (n / 10 ^ 6) in
  let remainder := n mod 10 ^ 6 in
  if remainder =? 0 then whole
  else String.append whole (String.append "." (withoutTrailingZeros (zeroPadded 6 remainder))).

(** ** The key manager *)

(** The counters are Go integers. *)
Definition counters_in_range (m : APIKeyManager) : Prop :=
  Forall (fun keyInfo => int_range (Used keyInfo) /\ int_range (MaxLimit keyInfo)) (keys m).

(** The cursor points at a key (or at 0 in an empty manager): what
    NewAPIKeyManager sets up and every method keeps. *)
Definition cursor_in_range (m : APIKeyManager) : Prop :=
  (current m < length (keys m))%nat \/ (keys m = [] /\ current m = 0%nat).

(** The manager the scan of GetNextKey works on after [d] keys were found
    unavailable, for a scan started at [start]. *)
Definition atOffset (ks : list APIKeyInfo) (start : nat) (tu : Z) (d : nat) : APIKeyManager :=
  mkManager ks ((start + d) mod length ks) tu.

(** ** The statistics *)

(** The number of results with a given status, and of those that are
    neither a success nor an error. *)
Definition withStatus (status : string) (results : list QueryResult) : Z :=
  Z.of_nat (length (filter (fun r => Status r = status) results)).

Definition otherStatus (results : list QueryResult) : Z :=
  Z.of_nat (length (filter (fun r => Status r <> "success" /\ Status r <> "error") results)).

(** ** The worker pool *)

(** The index a worker has received and not yet completed. *)
Definition held (x : worker) : option nat :=
  match x with
  | Holding i | Querying i _ => Some i
  | Idle | Exited => None
  end.

(** Worker [w] holds index [i]. *)
Definition holder (ws : list worker) (i w : nat) : Prop :=
  held <$> (ws !! w) = Some (Some i).

Section PoolVocabulary.

Variable addresses : list string.

(** What holds of every state of a run: the result table has one entry
    per address; the addresses not yet handed out are pending; an index a
    worker holds was handed out, is held by that worker only and is still
    pending; an index handed out and no longer held has a terminal result;
    the key manager's cursor is on a key; no result is marked cancelled
    before the context is. *)
Record Inv (s : state) : Prop := mkInv {
  inv_length : length (results s) = length addresses;
  inv_next : (next s <= length addresses)%nat;
  inv_rest : forall i a, addresses !! i = Some a -> (next s <= i)%nat ->
             results s !! i = Some (pendingResult a);
  inv_held : forall w i, holder (workers s) i w ->
             (i < next s)%nat
             /\ exists a, addresses !! i = Some a /\ results s !! i = Some (pendingResult a);
  inv_once : forall w w' i, holder (workers s) i w -> holder (workers s) i w' -> w = w';
  inv_done : forall i a, addresses !! i = Some a -> (i < next s)%nat ->
             (exists w, holder (workers s) i w)
             \/ (exists r, results s !! i = Some r /\ terminal r /\ Address r = a);
  inv_cursor : cursor_in_range (keyManager s);
  inv_fresh : ctxDone s = false ->
              forall i r, results s !! i = Some r -> Status r <> "cancelled"
}.

(** The result a worker writes for address [a]: the cancelled marker or a
    key error before the query, an error or a balance after it. *)
Definition resultOf (x : worker) (done : bool) (a : string) (r : QueryResult) : Prop :=
  match x with
  | Holding _ => if done then r = cancelledResult a else exists e, r = keyErrorResult a e
  | Querying _ _ => (exists e, r = errorResult a e) \/ (exists balance, r = successResult a balance)
  | Idle | Exited => False
  end.

(** The moves, by what they change. *)
Inductive move (s s' : state) : Prop :=
| move_cancel :
    ctxDone s = false ->
    s' = mkState (results s) (keyManager s) true (next s) (closed s) (workers s)
                 (completedCount s) ->
    move s s'
| move_send (w : nat) :
    workers s !! w = Some Idle -> closed s = false -> (next s < length addresses)%nat ->
    s' = mkState (results s) (keyManager s) (ctxDone s) (S (next s)) (closed s)
                 (<[w := Holding (next s)]> (workers s)) (completedCount s) ->
    move s s'
| move_close :
    closed s = false ->
    s' = mkState (results s) (keyManager s) (ctxDone s) (next s) true (workers s)
                 (completedCount s) ->
    move s s'
| move_complete (w i : nat) (x : worker) (a : string) (r : QueryResult)
                (km : APIKeyManager) :
    workers s !! w = Some x -> held x = Some i -> addresses !! i = Some a ->
    (i < length (results s))%nat -> resultOf x (ctxDone s) a r ->
    s' = mkState (<[i := r]> (results s)) km (ctxDone s) (next s) (closed s)
                 (<[w := Idle]> (workers s)) (wrap64 (completedCount s + 1)) ->
    move s s'
| move_key (w i : nat) (apiKey : string) (km : APIKeyManager) :
    workers s !! w = Some (Holding i) -> ctxDone s = false ->
    s' = set_worker s km w (Querying i apiKey) ->
    move s s'
| move_exit (w : nat) :
    workers s !! w = Some Idle -> closed s = true ->
    s' = set_worker s (keyManager s) w Exited ->
    move s s'.

(** The moves a worker still has to make, and those of the whole run. *)
Definition weight (x : worker) : nat :=
  match x with
  | Exited => 0
  | Idle => 1
  | Querying _ _ => 2
  | Holding _ => 3
  end.

Definition remaining (s : state) : nat :=
  3 * (length addresses - next s) + (if closed s then 0 else 1)
  + (if ctxDone s then 0 else 1) + sum_list (weight <$> workers s).

(** Once the context is cancelled, whatever a worker receives from index
    [b] on is marked cancelled. *)
Definition cancelledFrom (b : nat) (s : state) : Prop :=
  ctxDone s = true
  /\ forall i a, addresses !! i = Some a -> (b <= i < next s)%nat ->
       results s !! i = Some (cancelledResult a) \/ exists w, workers s !! w = Some (Holding i).

End PoolVocabulary.

Arguments inv_length {addresses} s _.
Arguments inv_next {addresses} s _.
Arguments inv_rest {addresses} s _.
Arguments inv_held {addresses} s _.
Arguments inv_once {addresses} s _.
Arguments inv_done {addresses} s _.
Arguments inv_cursor {addresses} s _.
Arguments inv_fresh {addresses} s _.
Arguments move_cancel {addresses}.
Arguments move_send {addresses}.
Arguments move_close {addresses}.
Arguments move_complete {addresses}.
Arguments move_key {addresses}.
Arguments move_exit {addresses}.

(** ** The cost of a query *)

(** The seconds a call slept and the requests it sent. *)
Definition slept (log : list event) : Z :=
  foldr (fun e acc => match e with Slept seconds => seconds + acc | Sent _ => acc end) 0 log.

Definition sent (log : list event) : nat :=
  foldr (fun e acc => match e with Sent _ => S acc | Slept _ => acc end) O log.

(** ** The key file and the usage counts *)

(** The keys a file names: its lines, trimmed, that are not empty. *)
Definition namedIn (f : textFile) (key : string) : Prop :=
  key <> "" /\ exists line, line ∈ fileLines f /\ TrimSpace line = key.

(** The count the usage file records for a key, 0 when it records none. *)
Definition recorded (stats : statsFile) (key : string) : Z :=
  match loadStats stats with
  | Ret Keys => default 0 (Keys !! key)
  | _ => 0
  end.

(** A key as LoadKeysFromFile sets it up, whatever its count. *)
Definition standardKey (keyInfo : APIKeyInfo) : Prop :=
  MaxLimit keyInfo = MaxQueriesPerKey /\ Enabled keyInfo = true.

(** Two entries for the same key, with the same limit and switch. *)
Definition sameKey (a b : APIKeyInfo) : Prop :=
  Key a = Key b /\ MaxLimit a = MaxLimit b /\ Enabled a = Enabled b.

(** No key is charged beyond its limit. *)
Definition within_limit (m : APIKeyManager) : Prop :=
  Forall (fun keyInfo => 0 <= Used keyInfo <= MaxLimit keyInfo) (keys m).

(** The sum of the counts of the keys, and the number of calls of a
    sequence that returned a key. *)
Definition sumUsed (m : APIKeyManager) : Z := foldr Z.add 0 (Used <$> keys m).

Definition successes (rs : list (outcome string)) : Z :=
  foldr (fun r acc => match r with Ret _ => 1 + acc | _ => acc end) 0 rs.

(** ** The progress of a run *)

(** The number of results that are no longer pending. *)
Definition finished (results : list QueryResult) : nat :=
  length (filter (fun r => Status r <> "pending") results).

(** The sender stops only at the end of the addresses or on cancellation,
    and a worker exits only after the sender has stopped. *)
Definition senderDone (addresses : list string) (s : state) : Prop :=
  closed s = true -> ctxDone s = true \/ next s = length addresses.

Definition exitedAfterClose (s : state) : Prop :=
  forall w, workers s !! w = Some Exited -> closed s = true.

(** ** The addresses a text or a file offers *)

(** The strings LoadAddressesFromText tests, in order: the lines, trimmed;
    each line that is not empty cut at the separators; the pieces, trimmed. *)
Definition textCandidates (text : string) : list string :=
  flat_map (fun line =>
              if String.eqb (TrimSpace line) "" then []
              else TrimSpace <$> foldl splitParts [TrimSpace line] separators)
           (Split text newline).

(** Those LoadAddressesFromFile tests: the fields of a CSV file, trimmed;
    for another file the lines, trimmed, a line with a comma cut at the
    commas and its pieces trimmed. *)
Definition lineCandidates (text : string) : list string :=
  let line := TrimSpace text in
  if String.eqb line "" then []
  else if Contains line ","%char then TrimSpace <$> Split line ","%char
  else [line].

Definition isCSV (filepath : string) : bool :=
  String.eqb (ToLower (String.substring (String.length filepath - 4) 4 filepath)) ".csv".

Definition fileCandidates (f : inputFile) (filepath : string) : list string :=
  if isCSV filepath then
    match asCSV f with
    | CSVRecords records => flat_map (fun record => TrimSpace <$> record) records
    | CSVError _ => []
    end
  else flat_map lineCandidates (fileLines (asText f)).

(** A string that is kept when it is tested: not empty and accepted by
    ValidateAddress. *)
Definition accepted (Decode : string -> list Z) (Sum256 : list Z -> list Z) (a : string)
    : Prop :=
  a <> "" /\ ValidateAddress Decode Sum256 a = Ret true.

(** The addresses kept and the map [seen] after the strings [tested] were
    tested: no duplicates, [seen] holds what was kept, and what was kept
    is what was accepted. *)
Definition keptFrom (Decode : string -> list Z) (Sum256 : list Z -> list Z)
    (tested : list string) (acc : kept) : Prop :=
  NoDup acc.1
  /\ (forall a, a ∈ acc.2 <-> a ∈ acc.1)
  /\ (forall a, a ∈ acc.1 <-> a ∈ tested /\ accepted Decode Sum256 a).

(** ** Reading a balance back *)

(** The amount, in millionths, that a rendered balance denotes: the digits
    before the point count units, the digits after it millionths once they
    are completed with zeros to six digits. *)
Fixpoint beforePoint (s : string) : string :=
  match s with
  | EmptyString => EmptyString
  | String c rest => if Ascii.eqb c "." then EmptyString else String c (beforePoint rest)
  end.

Fixpoint afterPoint (s : string) : string :=
  match s with
  | EmptyString => EmptyString
  | String c rest => if Ascii.eqb c "." then rest else afterPoint rest
  end.

Definition readBalance (s : string) : option Z :=
  let fraction := afterPoint s in
  match scanDigits 10 (beforePoint s) 0,
        scanDigits 10 (String.append fraction (Repeat "0" (6 - String.length fraction))) 0 with
  | Some units, Some millionths => Some (units * 10 ^ 6 + millionths)
  | _, _ => None
  end.

(** ** The data of the examples *)

(** Thirteen calls one millisecond apart on the limiter NewAPIClient
    builds (12 tokens per second); the thirteenth finds the bucket empty
    and wakes up 83333333 ns after it went to sleep. *)
Definition thirteenCalls : list (Z * Z) :=
  (fun k => (Z.of_nat k * 1000000, Z.of_nat k * 1000000 + 83333333)) <$> seq 1 13.

(** A response with a balance of one token, and a server that answers the
    first attempt with status 500 and the following ones with status 200
    and that response. *)
Definition oneToken : apiResp :=
  mkApiResp ["00000000000000000000000000000000000000000000000000000000000f4240"]
            true "" "" "" "".

Definition fails500Once : world :=
  mkWorld false (fun _ => false)
          (fun _ i => match i with
                      | O => DoOk (mkResponse 500 BadJSON)
                      | _ => DoOk (mkResponse 200 (Parsed oneToken))
                      end).

(** A server that answers every attempt with status 429. *)
Definition always429 : world :=
  mkWorld false (fun _ => false) (fun _ _ => DoOk (mkResponse 429 BadJSON)).

(** A server that answers with a failed result and its reason. *)
Definition reverted : apiResp :=
  mkApiResp [] false "CONTRACT_EXE_ERROR" "REVERT opcode executed" "" "".

(** A server that answers every attempt with status 200 and body [r]. *)
Definition answers (r : apiResp) : world :=
  mkWorld false (fun _ => false) (fun _ _ => DoOk (mkResponse 200 (Parsed r))).

(** Three keys, the cursor on the second, which is used up. *)
Definition threeKeys : APIKeyManager :=
  mkManager [mkKey "k1" 5 MaxQueriesPerKey true;
             mkKey "k2" MaxQueriesPerKey MaxQueriesPerKey true;
             mkKey "k3" 7 MaxQueriesPerKey true] 1 12.

(** Five addresses and one key. *)
Definition fiveAddresses : list string := ["addr1"; "addr2"; "addr3"; "addr4"; "addr5"].

Definition oneKey : APIKeyManager := mkManager [mkKey "key" 0 MaxQueriesPerKey true] 0 0.

(** With one worker: the first address is queried, then the cancellation
    comes. *)
Definition firstThenCancel : list label :=
  [Send 0; Check 0; Answer 0 "1.5" None; Cancel].

(** The first address is queried; later the sender hands out the four
    other addresses and the worker checks each of them. *)
Definition firstAddress : list label := [Send 0; Check 0; Answer 0 "1.5" None].

Definition allReceived : list label :=
  [Send 0; Check 0; Send 0; Check 0; Send 0; Check 0; Send 0; Check 0; Finish; Exit 0].

(** A key file with a padded key, a blank line and a repeated key; the
    manager it loads into, and the counts saved after three keys were
    handed out. *)
Definition keyFile : textFile := mkTextFile ["k1"; " k2 "; ""; "k1"] None.

Definition twoKeys : APIKeyManager :=
  mkManager [mkKey "k1" 0 MaxQueriesPerKey true; mkKey "k2" 0 MaxQueriesPerKey true] 0 0.

Definition savedCounts : gmap string Z := <["k2" := 1]> (<["k1" := 2]> ∅).

(** Three keys with quota left, the cursor on the second. *)
Definition threeAvailable : APIKeyManager :=
  mkManager [mkKey "k1" 5 MaxQueriesPerKey true;
             mkKey "k2" 0 MaxQueriesPerKey true;
             mkKey "k3" 7 MaxQueriesPerKey true] 1 12.

(** Two addresses and a run, with one worker, that queries both: a balance
    for the first, an error for the second. *)
Definition twoAddresses : list string := ["addr1"; "addr2"].

Definition bothQueried : list label :=
  [Send 0; Check 0; Answer 0 "1.5" None;
   Send 0; Check 0; Answer 0 "" (Some "请求失败: %v"); Finish; Exit 0].

(** A pasted text: the contract address twice on one line, once with its
    last character changed on the next line, then a word that is no
    address. *)
Definition pastedText : string :=
  String.append "TR7NHqjeKQxGTCi8q8ZY4pL8otSzgjLj6t, TR7NHqjeKQxGTCi8q8ZY4pL8otSzgjLj6t"
    (String newline
       (String.append " TR7NHqjeKQxGTCi8q8ZY4pL8otSzgjLj6u ;"
          (String newline "address"))).

(** A text file with the contract address on a line of its own and on a
    line with commas. *)
Definition addressFile : inputFile :=
  mkInputFile (CSVError "EOF")
    (mkTextFile ["TR7NHqjeKQxGTCi8q8ZY4pL8otSzgjLj6t "; "";
                 "x,TR7NHqjeKQxGTCi8q8ZY4pL8otSzgjLj6t"] None).

(** ** Tactics *)

(** One step of [scanDigits] on a string that starts with a known digit. *)
Ltac scan_digit :=
  cbn [NilEmpty.string_of_uint scanDigits Pos.of_uint_acc Pos.of_uint];
  match goal with
  | |- context [digitVal ?c] =>
      let v := eval vm_compute in (digitVal c) in change (digitVal c) with v
  end;
  cbv iota;
  match goal with
  | |- context [?a <? ?b] =>
      let v := eval vm_compute in (a <? b) in change (a <? b) with v
  end;
  cbv iota.

(** * Properties *)

(** ** Slices and hex encoding *)

Lemma slice_in_range {A} (s : list A) (lo hi : nat) :
  (lo <= hi <= length s)%nat -> slice s lo hi = Ret (take (hi - lo) (drop lo s)).
Proof. intros H. unfold slice. destruct (decide _); [reflexivity | contradiction]. Qed.

Lemma index_lookup {A} (s : list A) (i : nat) (a : A) :
  s !! i = Some a -> index s i = Ret a.
Proof. intros H. unfold index. now rewrite H. Qed.

Lemma EncodeToString_length (src : list Z) :
  String.length (EncodeToString src) = (2 * length src)%nat.
Proof. induction src as [|b rest IH]; simpl; [reflexivity | rewrite IH; lia]. Qed.

Lemma EncodeToString_app (a b : list Z) :
  EncodeToString (a ++ b) = String.append (EncodeToString a) (EncodeToString b).
Proof. induction a as [|x a IH]; simpl; [reflexivity | now rewrite IH]. Qed.

Lemma EncodeToString_zeros (n : nat) :
  EncodeToString (replicate n 0) = Repeat "0" (2 * n).
Proof.
  induction n as [|n IH]; [reflexivity|].
  replace (2 * S n)%nat with (S (S (2 * n))) by lia. simpl. now rewrite IH.
Qed.

Lemma hexdigit_lower (v : Z) :
  (ascii_in 48 57 (hexdigit v) || ascii_in 97 102 (hexdigit v)) = true.
Proof.
  unfold hexdigit, hextable. generalize (Z.to_nat v) as n. intros n.
  do 16 (destruct n as [|n]; [reflexivity|]). reflexivity.
Qed.

Lemma EncodeToString_lowerHex (src : list Z) : lowerHex (EncodeToString src) = true.
Proof.
  induction src as [|b rest IH]; simpl; [reflexivity|].
  now rewrite !hexdigit_lower, IH.
Qed.

Lemma sha256_Sum256_length (data : list Z) : length (sha256.Sum256 data) = 32%nat.
Proof. unfold sha256.Sum256, sha256.word_bytes. rewrite !length_app. reflexivity. Qed.

(** ** address.go *)

Section AddressCodecProperties.

Variable Decode : string -> list Z.
Variable Sum256 : list Z -> list Z.
Hypothesis Sum256_length : forall data, length (Sum256 data) = 32%nat.

Lemma checksumLoop_agrees (checkSum secondHash : list Z) (n i : nat) :
  (i + n <= length checkSum)%nat -> (i + n <= length secondHash)%nat ->
  checksumLoop checkSum secondHash i n
  = Ret (bool_decide (take n (drop i checkSum) = take n (drop i secondHash))).
Proof.
  revert i. induction n as [|n IH]; intros i Hc Hh; simpl.
  - reflexivity.
  - destruct (lookup_lt_is_Some_2 checkSum i) as [c Hci]; [lia|].
    destruct (lookup_lt_is_Some_2 secondHash i) as [h Hhi]; [lia|].
    rewrite (index_lookup _ _ _ Hci), (index_lookup _ _ _ Hhi). simpl.
    rewrite (drop_S _ _ _ Hci), (drop_S _ _ _ Hhi). simpl.
    destruct (decide (c <> h)) as [Hne | Heq].
    + f_equal. symmetry. apply bool_decide_eq_false_2. congruence.
    + apply dec_stable in Heq. subst h. rewrite IH by lia.
      f_equal. apply bool_decide_ext. split; [congruence | intros [=]; assumption].
Qed.

Lemma ValidateAddress_unfold (address : string) :
  ValidateAddress Decode Sum256 address
  = Ret (bool_decide (length (Decode address) = 25%nat
                      /\ drop 21 (Decode address)
                         = take 4 (Sum256 (Sum256 (take 21 (Decode address)))))).
Proof.
  unfold ValidateAddress.
  destruct (decide (length (Decode address) <> 25%nat)) as [Hne | Heq].
  - f_equal. symmetry. apply bool_decide_eq_false_2. tauto.
  - apply dec_stable in Heq.
    unfold slice_from. rewrite !slice_in_range by lia.
    unfold mbind, outcome_bind, obind.
    rewrite checksumLoop_agrees.
    + f_equal. apply bool_decide_ext. rewrite !drop_0, Heq.
      rewrite (take_ge (take _ (drop 21 _))) by (rewrite length_take, length_drop; lia).
      rewrite (take_ge (drop 21 _)) by (rewrite length_drop; lia).
      rewrite Nat.sub_0_r. tauto.
    + rewrite length_take, length_drop. lia.
    + rewrite Sum256_length. lia.
Qed.

(** C7.  ValidateAddress never panics and returns true exactly when the
    Base58 decoding has 25 bytes of which the last 4 are the first 4 bytes of
    the double SHA-256 of the first 21; and once an address validates, any
    25-byte decoding with the same first 21 bytes and a different checksum
    byte is rejected. *)
Theorem ValidateAddress_checksum (address : string) :
  ValidateAddress Decode Sum256 address
  = Ret (bool_decide (length (Decode address) = 25%nat
                      /\ drop 21 (Decode address)
                         = take 4 (Sum256 (Sum256 (take 21 (Decode address))))))
  /\ (forall address' : string,
        ValidateAddress Decode Sum256 address = Ret true ->
        length (Decode address') = 25%nat ->
        take 21 (Decode address') = take 21 (Decode address) ->
        (exists i, (21 <= i < 25)%nat /\ Decode address' !! i <> Decode address !! i) ->
        ValidateAddress Decode Sum256 address' = Ret false).
Proof.
  split; [apply ValidateAddress_unfold|].
  intros address' Hok Hlen Hbody (i & Hi & Hdiff).
  rewrite ValidateAddress_unfold in Hok |- *.
  injection Hok as Hok. apply bool_decide_eq_true_1 in Hok. destruct Hok as [_ Hsum].
  f_equal. apply bool_decide_eq_false_2. intros [_ Hsum'].
  rewrite Hbody, <- Hsum in Hsum'.
  apply Hdiff.
  replace i with (21 + (i - 21))%nat by lia.
  rewrite <- !lookup_drop. now rewrite Hsum'.
Qed.

Lemma AddressToParameter_unfold (address : string) :
  AddressToParameter Decode address
  = if decide (length (Decode address) < 21)%nat then Fail "无效的 TRON 地址"
    else Ret (String.append (Repeat "0" 24)
                            (EncodeToString (take 20 (drop 1 (Decode address))))).
Proof.
  unfold AddressToParameter.
  destruct (decide _) as [|Hge]; [reflexivity|].
  rewrite slice_in_range by lia.
  unfold mbind, outcome_bind, obind, copy_at. rewrite length_replicate.
  destruct (decide (12 <= 32)%nat) as [_|]; [|lia].
  rewrite length_take, length_drop.
  replace (Nat.min (32 - 12) (Nat.min (21 - 1) (length (Decode address) - 1))) with 20%nat by lia.
  rewrite take_replicate, drop_replicate.
  rewrite (take_ge (take 20 _)) by (rewrite length_take, length_drop; lia).
  replace (32 - (12 + 20))%nat with 0%nat by lia.
  replace (Nat.min 12 32) with 12%nat by lia.
  simpl replicate at 2. rewrite app_nil_r.
  rewrite EncodeToString_app, (EncodeToString_zeros 12). reflexivity.
Qed.

Lemma AddressToHex_unfold (address : string) :
  AddressToHex Decode address
  = if decide (length (Decode address) < 21)%nat then Fail "无效的 TRON 地址"
    else Ret (EncodeToString (take 21 (Decode address))).
Proof.
  unfold AddressToHex.
  destruct (decide _) as [|Hge]; [reflexivity|].
  rewrite slice_in_range by lia. unfold mbind, outcome_bind, obind. now rewrite drop_0.
Qed.

Lemma append_length (a b : string) :
  String.length (String.append a b) = (String.length a + String.length b)%nat.
Proof. induction a as [|c a IH]; simpl; [reflexivity | now rewrite IH]. Qed.

Lemma lowerHex_append (a b : string) :
  lowerHex (String.append a b) = lowerHex a && lowerHex b.
Proof.
  induction a as [|c a IH]; simpl; [reflexivity|].
  rewrite IH. now rewrite andb_assoc.
Qed.

(** C8.  AddressToParameter succeeds with 64 lowercase hex characters, 24
    zeros followed by the encoding of bytes 1..20 of the decoding, and
    AddressToHex with 42 lowercase hex characters encoding bytes 0..20; each
    returns the invalid-address error exactly when the decoding has fewer
    than 21 bytes (and neither panics). *)
Theorem codec_output_shape (address : string) :
  let decoded := Decode address in
  (((length decoded < 21)%nat <-> AddressToParameter Decode address = Fail "无效的 TRON 地址")
   /\ ((length decoded < 21)%nat <-> AddressToHex Decode address = Fail "无效的 TRON 地址"))
  /\ (forall param, AddressToParameter Decode address = Ret param ->
        String.length param = 64%nat /\ lowerHex param = true
        /\ length (take 20 (drop 1 decoded)) = 20%nat
        /\ param = String.append (Repeat "0" 24) (EncodeToString (take 20 (drop 1 decoded))))
  /\ (forall owner, AddressToHex Decode address = Ret owner ->
        String.length owner = 42%nat /\ lowerHex owner = true
        /\ length (take 21 decoded) = 21%nat
        /\ owner = EncodeToString (take 21 decoded))
  /\ ((21 <= length decoded)%nat ->
        exists param owner, AddressToParameter Decode address = Ret param
                            /\ AddressToHex Decode address = Ret owner).
Proof.
  intros decoded. rewrite AddressToParameter_unfold, AddressToHex_unfold. fold decoded.
  destruct (decide (length decoded < 21)%nat) as [Hlt | Hge].
  - split; [split; split; done|]. split; [done|]. split; [done|]. intros; lia.
  - assert (Hbody : length (take 20 (drop 1 decoded)) = 20%nat)
      by (rewrite length_take, length_drop; lia).
    assert (Hown : length (take 21 decoded) = 21%nat) by (rewrite length_take; lia).
    split; [split; split; done|]. split; [|split].
    + intros param [= <-].
      rewrite append_length, EncodeToString_length, Hbody.
      rewrite lowerHex_append, EncodeToString_lowerHex. done.
    + intros owner [= <-].
      rewrite EncodeToString_length, Hown, EncodeToString_lowerHex. done.
    + intros _. eauto.
Qed.

(** C9.  The two conversions do not validate: whatever ValidateAddress
    says of the input, a decoding of at least 21 bytes makes both succeed
    with the encoding of its leading bytes, and they fail only when the
    decoding has fewer than 21 bytes. *)
Theorem codec_without_validation (address : string) :
  ((21 <= length (Decode address))%nat ->
     AddressToParameter Decode address
     = Ret (String.append (Repeat "0" 24)
                          (EncodeToString (take 20 (drop 1 (Decode address)))))
     /\ AddressToHex Decode address = Ret (EncodeToString (take 21 (Decode address))))
  /\ ((forall param, AddressToParameter Decode address <> Ret param) ->
        (length (Decode address) < 21)%nat)
  /\ ((forall owner, AddressToHex Decode address <> Ret owner) ->
        (length (Decode address) < 21)%nat).
Proof.
  rewrite AddressToParameter_unfold, AddressToHex_unfold.
  destruct (decide (length (Decode address) < 21)%nat) as [Hlt | Hge].
  - split; [intros; lia|]. split; intros _; exact Hlt.
  - split; [done|]. split; intros H; exfalso; eapply H; reflexivity.
Qed.

End AddressCodecProperties.

(** The codec on the token contract's own address, with the Base58 and
    SHA-256 functions of the libraries. *)
Lemma ValidateAddress_checksum_witness :
  ValidateAddress base58.Decode sha256.Sum256 USDTContractAddress = Ret true
  /\ ValidateAddress base58.Decode sha256.Sum256 "TR7NHqjeKQxGTCi8q8ZY4pL8otSzgjLj6u"
     = Ret false.
Proof.
  destruct (ValidateAddress_checksum base58.Decode sha256.Sum256 sha256_Sum256_length
              USDTContractAddress) as [Hval Hflip].
  assert (Hok : ValidateAddress base58.Decode sha256.Sum256 USDTContractAddress = Ret true)
    by (rewrite Hval; vm_compute; reflexivity).
  split; [exact Hok|].
  apply Hflip; [exact Hok | vm_compute; reflexivity | vm_compute; reflexivity |].
  exists 24%nat. split; [lia | vm_compute; discriminate].
Defined.

Lemma codec_output_shape_witness :
  AddressToParameter base58.Decode USDTContractAddress
  = Ret "000000000000000000000000a614f803b6fd780986a42c78ec9c7f77e6ded13c"
  /\ AddressToHex base58.Decode USDTContractAddress
     = Ret "41a614f803b6fd780986a42c78ec9c7f77e6ded13c"
  /\ AddressToParameter base58.Decode "TXinvalid0000000000000000000000000"
     = Fail "无效的 TRON 地址".
Proof.
  destruct (codec_output_shape base58.Decode USDTContractAddress)
    as (_ & Hparam & Howner & Hsome).
  destruct Hsome as (param & owner & Hp & Ho); [vm_compute; lia|].
  destruct (Hparam param Hp) as (_ & _ & _ & ->).
  destruct (Howner owner Ho) as (_ & _ & _ & ->).
  split; [| split].
  - rewrite Hp. vm_compute. reflexivity.
  - rewrite Ho. vm_compute. reflexivity.
  - apply (codec_output_shape base58.Decode "TXinvalid0000000000000000000000000").
    vm_compute. lia.
Defined.

(** Inputs that ValidateAddress rejects, one for its checksum and one for
    its length, and that both conversions accept. *)
Lemma codec_without_validation_witness :
  (ValidateAddress base58.Decode sha256.Sum256 "TR7NHqjeKaxGTCi8q8Za4pL8otSzgjLj6t" = Ret false
   /\ AddressToParameter base58.Decode "TR7NHqjeKaxGTCi8q8Za4pL8otSzgjLj6t"
      = Ret "000000000000000000000000a614f803b6fe6922728273ae700a94ca98fc4ad2"
   /\ AddressToHex base58.Decode "TR7NHqjeKaxGTCi8q8Za4pL8otSzgjLj6t"
      = Ret "41a614f803b6fe6922728273ae700a94ca98fc4ad2")
  /\ (ValidateAddress base58.Decode sha256.Sum256 "1111111111111111111111" = Ret false
      /\ AddressToParameter base58.Decode "1111111111111111111111"
         = Ret "0000000000000000000000000000000000000000000000000000000000000000"
      /\ AddressToHex base58.Decode "1111111111111111111111"
         = Ret "000000000000000000000000000000000000000000").
Proof.
  split.
  - destruct (codec_without_validation base58.Decode "TR7NHqjeKaxGTCi8q8Za4pL8otSzgjLj6t")
      as [Hboth _].
    destruct Hboth as [Hp Ho]; [vm_compute; lia|].
    split; [vm_compute; reflexivity|]. split.
    + rewrite Hp. vm_compute. reflexivity.
    + rewrite Ho. vm_compute. reflexivity.
  - destruct (codec_without_validation base58.Decode "1111111111111111111111") as [Hboth _].
    destruct Hboth as [Hp Ho]; [vm_compute; lia|].
    split; [vm_compute; reflexivity|]. split.
    + rewrite Hp. vm_compute. reflexivity.
    + rewrite Ho. vm_compute. reflexivity.
Defined.

(** ** The rate limiter *)

(** C2 (the code does not keep the invariant).  After twelve calls within a
    second the bucket is empty; the thirteenth call sleeps once for
    interval/rate, sets the bucket to floor(elapsed/interval)*rate = 0 and
    takes a token all the same: it returns, and the token count is -1. *)
Theorem Wait_tokens_negative :
  let rl := NewRateLimiter 12 1000000000 0 in
  (exists rl12, Waits rl (take 12 thirteenCalls) = Ret rl12 /\ tokens rl12 = 0)
  /\ (exists rl13, Waits rl thirteenCalls = Ret rl13
                   /\ tokens rl13 = -1 /\ maxTokens rl13 = 12
                   /\ lastRefill rl13 = 13 * 1000000 + 83333333).
Proof.
  split; eexists; (split; [vm_compute; reflexivity|]); repeat split; reflexivity.
Qed.

(** Wrap-around leaves an integer that is in range as it is. *)
Lemma wrap64_id (z : Z) : int_range z -> wrap64 z = z.
Proof.
  unfold int_range, wrap64. intros H.
  rewrite Z.mod_small by lia. lia.
Qed.

Lemma wrap64_range (z : Z) : int_range (wrap64 z).
Proof.
  unfold int_range, wrap64.
  pose proof (Z.mod_pos_bound (z + 2 ^ 63) (2 ^ 64) ltac:(lia)). lia.
Qed.

(** The tokens a refill computes, [int(elapsed / interval) * rate], for a
    sane configuration and clock: no wrap-around, and between 0 and the
    elapsed time. *)
Lemma refill_amount (now last itv rt : Z) :
  0 < rt <= itv -> itv < 2 ^ 62 -> 0 <= last < 2 ^ 62 -> 0 <= now < 2 ^ 62 ->
  Sub now last > 0 ->
  quo (Sub now last) itv = Ret ((now - last) / itv)
  /\ wrap64 ((now - last) / itv * rt) = (now - last) / itv * rt
  /\ 0 <= (now - last) / itv * rt < 2 ^ 62.
Proof.
  intros Hrt Hitv Hlast Hnow Hpos.
  assert (Hsub : Sub now last = now - last) by (unfold Sub in *; lia).
  rewrite Hsub in *.
  assert (Hq : 0 <= (now - last) / itv <= now - last).
  { split; [apply Z.div_pos; lia|]. apply Z.div_le_upper_bound; nia. }
  assert (Hm : (now - last) / itv * itv <= now - last)
    by (rewrite Z.mul_comm; apply Z.mul_div_le; lia).
  assert (Hb : 0 <= (now - last) / itv * rt < 2 ^ 62) by nia.
  split; [|split; [apply wrap64_id; unfold int_range; lia | exact Hb]].
  unfold quo. destruct (decide (itv = 0)); [lia|].
  rewrite Z.quot_div_nonneg by lia.
  rewrite wrap64_id by (unfold int_range; lia). reflexivity.
Qed.

(** What one call does keep, for a sane configuration and a clock that
    moves forward: the count stays below the capacity and never falls
    under -1. *)
Lemma Wait_bounds (rl : RateLimiter) (now1 now2 : Z) :
  0 < rate rl <= interval rl -> interval rl < 2 ^ 62 -> maxTokens rl = rate rl ->
  0 <= lastRefill rl < 2 ^ 62 -> 0 <= now1 < now2 -> now2 < 2 ^ 62 ->
  lastRefill rl < now2 ->
  -1 <= tokens rl <= maxTokens rl ->
  exists rl', Wait rl now1 now2 = Ret rl'
    /\ -1 <= tokens rl' < maxTokens rl'
    /\ rate rl' = rate rl /\ interval rl' = interval rl /\ maxTokens rl' = maxTokens rl
    /\ (lastRefill rl' = lastRefill rl \/ lastRefill rl' = now1 \/ lastRefill rl' = now2).
Proof.
  intros Hrt Hitv Hmax Hlast Hnow Hnow2 Hlater Htok. unfold Wait.
  set (first := if decide (Sub now1 (lastRefill rl) > 0) then _ else _).
  assert (Hfirst : exists r1, first = Ret r1
            /\ rate r1 = rate rl /\ interval r1 = interval rl /\ maxTokens r1 = maxTokens rl
            /\ -1 <= tokens r1 <= maxTokens rl
            /\ (lastRefill r1 = lastRefill rl \/ lastRefill r1 = now1)).
  { subst first. destruct (decide _) as [Hpos|]; [|exists rl; tauto].
    destruct (refill_amount now1 (lastRefill rl) (interval rl) (rate rl))
      as (Hq & Hw & Hb); try lia.
    rewrite Hq. unfold mbind, outcome_bind, obind. rewrite Hw.
    destruct (decide _); [|exists rl; tauto].
    eexists. split; [reflexivity|].
    rewrite wrap64_id by (unfold int_range; lia).
    destruct (decide _); cbn in *; repeat split; try lia; tauto. }
  destruct Hfirst as (r1 & -> & Hr1 & Hi1 & Hm1 & Ht1 & Hl1).
  unfold mbind, outcome_bind, obind.
  set (second := if decide (tokens r1 <= 0) then _ else _).
  assert (Hsecond : exists r2, second = Ret r2
            /\ rate r2 = rate rl /\ interval r2 = interval rl /\ maxTokens r2 = maxTokens rl
            /\ 0 <= tokens r2 <= maxTokens rl
            /\ (lastRefill r2 = lastRefill rl \/ lastRefill r2 = now1 \/ lastRefill r2 = now2)).
  { subst second. destruct (decide _) as [Hempty|]; [|exists r1; repeat split; try lia; tauto].
    unfold quo at 1. destruct (decide (rate r1 = 0)); [lia|].
    assert (Hpos : Sub now2 (lastRefill r1) > 0) by (unfold Sub; lia).
    destruct (decide _); [|contradiction].
    destruct (refill_amount now2 (lastRefill r1) (interval r1) (rate r1))
      as (Hq & Hw & Hb); try lia.
    rewrite Hq. unfold mbind, outcome_bind, obind. rewrite Hw.
    eexists. split; [reflexivity|].
    destruct (decide _); cbn in *; repeat split; try lia; tauto. }
  destruct Hsecond as (r2 & -> & Hr2 & Hi2 & Hm2 & Ht2 & Hl2).
  eexists. split; [reflexivity|]. cbn.
  rewrite wrap64_id by (unfold int_range; lia).
  repeat split; try lia; tauto.
Qed.

(** ** api.go: the retry loop *)

Section RetryLoop.

Variable w : world.
Variable req : TriggerConstantContractRequest.

Lemma sendLoop_attempts (n : nat) :
  forall (i : nat) (resp : option Response) (lastErr : bool),
  exists k : nat,
    (k <= n)%nat
    /\ (sendLoop w req i n resp lastErr).2 = attemptsLog w req i k
    /\ (forall j, (i <= j < i + k)%nat -> ctxErr w j = false)
    /\ (forall j, (i <= j)%nat -> (j + 1 < i + k)%nat -> succeeded (Do w req j) = false)
    /\ match (sendLoop w req i n resp lastErr).1 with
       | Cancelled =>
           (k < n)%nat /\ ctxErr w (i + k) = true
           /\ (forall j, (i <= j < i + k)%nat -> succeeded (Do w req j) = false)
       | LoopDone resp' lastErr' =>
           (k = 0%nat -> n = 0%nat /\ resp' = resp /\ lastErr' = lastErr)
           /\ (forall k', k = S k' ->
                 (resp', lastErr') = assigned (Do w req (i + k'))
                 /\ (succeeded (Do w req (i + k')) = true \/ k = n))
       end.
Proof.
  induction n as [|n IH]; intros i resp lastErr.
  - exists 0%nat. cbn. repeat split; try lia; try done; intros; lia.
  - cbn [sendLoop].
    destruct (ctxErr w i) eqn:Hctx.
    { exists 0%nat. cbn. rewrite Nat.add_0_r. repeat split; try lia; try done; intros; lia. }
    fold (assigned (Do w req i)).
    destruct (assigned (Do w req i)) as [resp1 lastErr1] eqn:Hassigned.
    assert (Hstatus : StatusCode <$> resp1 = statusOf (Do w req i)).
    { unfold assigned in Hassigned. destruct (Do w req i); injection Hassigned as <- <-; reflexivity. }
    assert (Hsucc : negb lastErr1 && bool_decide (StatusCode <$> resp1 = Some 200)
                    = succeeded (Do w req i)).
    { unfold assigned in Hassigned. destruct (Do w req i) as [r|r]; injection Hassigned as <- <-.
      - cbn. apply bool_decide_ext. split; [intros [=]; done | intros ->; done].
      - reflexivity. }
    rewrite Hsucc.
    destruct (succeeded (Do w req i)) eqn:Hok.
    { exists 1%nat. cbn. unfold pause. rewrite Hok. cbn.
      split; [lia|]. split; [reflexivity|].
      split; [intros j Hj; replace j with i by lia; exact Hctx|].
      split; [intros; lia|].
      split; [intros; lia|].
      intros k' [= <-]. rewrite Nat.add_0_r. auto. }
    destruct (IH (S i) resp1 lastErr1) as (k & Hk & Hlog & Hrun & Hfail & Hexit).
    assert (Hrest : forall evs,
              evs = Sent i :: pause i (Do w req i) ->
              let r := later evs (sendLoop w req (S i) n resp1 lastErr1) in
              exists k0 : nat,
                (k0 <= S n)%nat
                /\ r.2 = attemptsLog w req i k0
                /\ (forall j, (i <= j < i + k0)%nat -> ctxErr w j = false)
                /\ (forall j, (i <= j)%nat -> (j + 1 < i + k0)%nat ->
                      succeeded (Do w req j) = false)
                /\ match r.1 with
                   | Cancelled =>
                       (k0 < S n)%nat /\ ctxErr w (i + k0) = true
                       /\ (forall j, (i <= j < i + k0)%nat -> succeeded (Do w req j) = false)
                   | LoopDone resp' lastErr' =>
                       (k0 = 0%nat -> S n = 0%nat /\ resp' = resp /\ lastErr' = lastErr)
                       /\ (forall k', k0 = S k' ->
                             (resp', lastErr') = assigned (Do w req (i + k'))
                             /\ (succeeded (Do w req (i + k')) = true \/ k0 = S n))
                   end).
    { intros evs -> r. subst r. exists (S k). unfold later. cbn [fst snd].
      split; [lia|]. split.
      { rewrite Hlog. unfold attemptsLog. cbn [seq flat_map]. now rewrite <- app_comm_cons. }
      split.
      { intros j Hj. destruct (decide (j = i)) as [->|]; [exact Hctx | apply Hrun; lia]. }
      split.
      { intros j Hj1 Hj2. destruct (decide (j = i)) as [->|]; [exact Hok | apply Hfail; lia]. }
      destruct (sendLoop w req (S i) n resp1 lastErr1).1 as [|resp' lastErr'].
      - destruct Hexit as (Hlt & Hc & Hnone).
        split; [lia|]. split; [now replace (i + S k)%nat with (S i + k)%nat by lia|].
        intros j Hj. destruct (decide (j = i)) as [->|]; [exact Hok | apply Hnone; lia].
      - destruct Hexit as [Hzero Hlast]. split; [intros; lia|].
        intros k' [= <-]. destruct k as [|k''].
        + destruct Hzero as (-> & -> & ->); [reflexivity|].
          rewrite Nat.add_0_r, Hassigned. auto.
        + destruct (Hlast k'' eq_refl) as [Heq Hstop].
          replace (i + S k'')%nat with (S i + k'')%nat by lia.
          split; [exact Heq|]. destruct Hstop; [auto | right; lia]. }
    unfold pause in Hrest. rewrite Hok, <- Hstatus in Hrest.
    destruct (bool_decide (StatusCode <$> resp1 = Some 429)).
    { apply Hrest. reflexivity. }
    unfold assigned in Hassigned.
    destruct (Do w req i) as [r|r]; injection Hassigned as <- <-.
    + apply Hrest. reflexivity.
    + change (maxRetries - 1)%nat with 2%nat.
      destruct (i <? 2)%nat; apply Hrest; reflexivity.
Qed.

End RetryLoop.

Lemma afterLoop_assigned (r : DoResult) :
  (forall v, afterLoop (assigned r).1 (assigned r).2 = Ret v -> succeeded r = true)
  /\ (succeeded r = false -> exists e, afterLoop (assigned r).1 (assigned r).2 = Fail e).
Proof.
  destruct r as [resp | resp]; cbn.
  - destruct (decide (StatusCode resp <> 200)) as [Hne | Heq].
    + split; [discriminate|]. eauto.
    + apply dec_stable in Heq. rewrite bool_decide_eq_true_2 by exact Heq.
      split; [reflexivity | discriminate].
  - split; [discriminate | eauto].
Qed.

Section QueryBalance.

Variable Decode : string -> list Z.

(** C3 (as amended).  A query makes at most 3 attempts, numbered from 0.
    Attempt [j+1] is made exactly when attempt [j] did not give status 200
    without error, whatever its failure was (a 429, a transport error or
    any other status), and the context is not cancelled; the sleeps are
    those of [pause].  The loop is left early only on cancellation or on a
    200.  A balance is returned only after an attempt that gave 200, and a
    call none of whose attempts gave 200 returns an error. *)
Theorem QueryBalance_retry_policy (w : world) (address param : string)
    (res : outcome string) (log : list event) :
  AddressToParameter Decode address = Ret param ->
  newRequestFails w = false ->
  QueryBalanceWithContext Decode w address = (res, log) ->
  let req := mkRequest address USDTContractAddress BalanceOfSelector param true in
  exists k : nat,
    (k <= 3)%nat
    /\ log = attemptsLog w req 0 k
    /\ (forall j, (j < k)%nat -> ctxErr w j = false)
    /\ (forall j, (j + 1 < k)%nat -> succeeded (Do w req j) = false)
    /\ (k = 3%nat
        \/ (ctxErr w k = true /\ res = Fail "请求已取消")
        \/ (exists k', k = S k' /\ succeeded (Do w req k') = true))
    /\ (forall v, res = Ret v -> exists k', k = S k' /\ succeeded (Do w req k') = true)
    /\ ((forall j, (j < k)%nat -> succeeded (Do w req j) = false) -> exists e, res = Fail e).
Proof.
  intros Hparam Hreq Hcall req. unfold QueryBalanceWithContext in Hcall.
  rewrite Hparam, Hreq in Hcall. fold req in Hcall. change maxRetries with 3%nat in Hcall.
  destruct (sendLoop_attempts w req 3 0 None false) as (k & Hk & Hlog & Hrun & Hfail & Hexit).
  destruct (sendLoop w req 0 3 None false) as [ex evs]. cbn [fst snd] in *.
  exists k. split; [exact Hk|].
  destruct ex as [|resp lastErr]; injection Hcall as <- <-.
  - destruct Hexit as (Hlt & Hc & Hnone).
    split; [exact Hlog|]. split; [intros; apply Hrun; lia|].
    split; [intros; apply Hfail; lia|].
    split; [right; left; auto|]. split; [discriminate | eauto].
  - destruct Hexit as [Hzero Hlast].
    split; [exact Hlog|]. split; [intros; apply Hrun; lia|].
    split; [intros; apply Hfail; lia|].
    destruct k as [|k']; [destruct Hzero as [[=] _]; reflexivity|].
    destruct (Hlast k' eq_refl) as [Heq Hstop]. cbn [Nat.add] in *.
    destruct (afterLoop_assigned (Do w req k')) as [Hret Herr].
    rewrite <- Heq in Hret, Herr. cbn [fst snd] in *.
    split; [destruct Hstop; [right; right; eauto | left; assumption]|].
    split; [intros v Hv; exists k'; split; [reflexivity | eapply Hret, Hv]|].
    intros Hnone. apply Herr, Hnone. lia.
Qed.

End QueryBalance.

(** C3 as stated fails: the first attempt ends with status 500 (neither a
    429 nor a transport error); the request is sent again at once, and the
    caller gets the balance of the second attempt, not an error. *)
Lemma status_500_is_retried :
  (forall req, Do fails500Once req 0 = DoOk (mkResponse 500 BadJSON))
  /\ QueryBalanceWithContext base58.Decode fails500Once USDTContractAddress
     = (Ret "1", [Sent 0%nat; Sent 1%nat]).
Proof. split; [reflexivity | vm_compute; reflexivity]. Qed.

(** Three 429 answers in a row: three attempts, sleeps of 2, 4 and 6
    seconds, and the error of the last status. *)
Lemma QueryBalance_retry_policy_witness :
  exists k : nat,
    (k <= 3)%nat
    /\ [Sent 0%nat; Slept 2; Sent 1%nat; Slept 4; Sent 2%nat; Slept 6]
       = attemptsLog always429
           (mkRequest USDTContractAddress USDTContractAddress BalanceOfSelector
              "000000000000000000000000a614f803b6fd780986a42c78ec9c7f77e6ded13c" true) 0 k
    /\ exists e, Fail "API 返回错误 (HTTP %d): %s" = Fail (A := string) e.
Proof.
  destruct (QueryBalance_retry_policy base58.Decode always429 USDTContractAddress
              "000000000000000000000000a614f803b6fd780986a42c78ec9c7f77e6ded13c"
              (Fail "API 返回错误 (HTTP %d): %s")
              [Sent 0%nat; Slept 2; Sent 1%nat; Slept 4; Sent 2%nat; Slept 6])
    as (k & Hk & Hlog & _ & _ & _ & _ & Herr).
  - vm_compute. reflexivity.
  - reflexivity.
  - vm_compute. reflexivity.
  - exists k. split; [exact Hk|]. split; [exact Hlog|].
    apply Herr. intros j _. reflexivity.
Defined.

(** ** api.go: decoding the response *)

(** The three checks, in the order the function makes them. *)
Lemma decodeResponse_checks (r : apiResp) :
  (tron.Error r <> "" -> decodeResponse r = Fail "API 错误: %s (完整响应: %s)")
  /\ (tron.Error r = "" -> Result_Result r = false ->
        decodeResponse r = Fail "查询失败: result=false, code=%s, 完整响应: %s")
  /\ (tron.Error r = "" -> Result_Result r = true -> ConstantResult r = [] ->
        decodeResponse r = Fail "查询失败: 响应中没有 constant_result (完整响应: %s)").
Proof.
  unfold decodeResponse. destruct (String.eqb_spec (tron.Error r) "") as [-> | Hne].
  - split; [done|]. split.
    + intros _ ->. reflexivity.
    + intros _ -> ->. reflexivity.
  - split; [reflexivity|]. split; intros H; contradiction.
Qed.


(** C5 (the code drops the text it selects).  The function picks the
    server's text by message, then code, then a fixed word, and the
    description before the error name; the error it returns is a fixed
    string with its format verbs left in, the same for every response, in
    which the text does not occur. *)
Theorem decodeResponse_drops_diagnostic :
  resultErrorMsg reverted = "REVERT opcode executed"
  /\ QueryBalanceWithContext base58.Decode (answers reverted) USDTContractAddress
     = (Fail "查询失败: result=false, code=%s, 完整响应: %s", [Sent 0%nat])
  /\ String.index 0 "REVERT opcode executed" "查询失败: result=false, code=%s, 完整响应: %s"
     = None
  /\ (forall r r' : apiResp,
        tron.Error r <> "" -> tron.Error r' <> "" -> decodeResponse r = decodeResponse r')
  /\ (forall r r' : apiResp,
        tron.Error r = "" -> tron.Error r' = "" -> Result_Result r = false -> Result_Result r' = false ->
        decodeResponse r = decodeResponse r').
Proof.
  split; [reflexivity|]. split; [vm_compute; reflexivity|]. split; [vm_compute; reflexivity|].
  split.
  - intros r r' Hr Hr'.
    rewrite (proj1 (decodeResponse_checks r) Hr).
    now rewrite (proj1 (decodeResponse_checks r') Hr').
  - intros r r' He He' Hr Hr'.
    rewrite (proj1 (proj2 (decodeResponse_checks r)) He Hr).
    now rewrite (proj1 (proj2 (decodeResponse_checks r')) He' Hr').
Qed.

(** ** api.go: from the hex string to the balance *)

(** Hex digits as [SetString] reads them. *)
Lemma digitVal_hex (c : ascii) :
  isHexDigit c = true -> digitVal c = Some (hexDigitValue c) /\ 0 <= hexDigitValue c < 16.
Proof.
  destruct c as [[] [] [] [] [] [] [] []]; vm_compute; try discriminate; intros _;
    (split; [reflexivity | split; [discriminate | reflexivity]]).
Qed.

Lemma hex_not_sign (c : ascii) :
  isHexDigit c = true -> c <> "+"%char /\ c <> "-"%char.
Proof. intros H. split; intros ->; vm_compute in H; discriminate. Qed.

Lemma scanDigits_hex (s : string) (acc : Z) :
  allHex s = true -> scanDigits 16 s acc = Some (unsignedHex s acc).
Proof.
  revert acc. induction s as [|c s IH]; intros acc H; cbn in *; [reflexivity|].
  apply andb_true_iff in H as [Hc Hs].
  destruct (digitVal_hex c Hc) as [-> Hlt].
  destruct (Z.ltb_spec (hexDigitValue c) 16); [|lia].
  rewrite IH by exact Hs. f_equal. f_equal. lia.
Qed.

Lemma SetString_hex (s : string) :
  allHex s = true -> s <> "" -> SetString s 16 = Some (unsignedHex s 0).
Proof.
  intros H Hne. destruct s as [|c s]; [contradiction|].
  pose proof (scanDigits_hex _ 0 H) as Hscan.
  cbn [allHex] in H. apply andb_true_iff in H as [Hc _].
  destruct (hex_not_sign c Hc) as [Hplus Hminus].
  unfold SetString.
  destruct c as [[] [] [] [] [] [] [] []]; try (now rewrite Hscan); contradiction.
Qed.

Lemma TrimRight_empty (s : string) :
  String.eqb (TrimRight s "0") "" = allZeros s.
Proof.
  induction s as [|c s IH]; [reflexivity|]. cbn.
  rewrite IH. rewrite orb_false_r.
  destruct (allZeros s), (Ascii.eqb c "0"); reflexivity.
Qed.

Lemma dropZeros_snoc (l : list ascii) (c : ascii) :
  dropZeros (l ++ [c])
  = match dropZeros l with
    | [] => if Ascii.eqb c "0" then [] else [c]
    | kept => kept ++ [c]
    end.
Proof.
  induction l as [|d l IH]; cbn; [reflexivity|].
  destruct (Ascii.eqb d "0"); [exact IH | reflexivity].
Qed.

Lemma string_of_list_ascii_empty (l : list ascii) :
  String.eqb (string_of_list_ascii l) "" = bool_decide (l = []).
Proof. destruct l; reflexivity. Qed.

Lemma TrimRight_zeros (s : string) : TrimRight s "0" = withoutTrailingZeros s.
Proof.
  unfold withoutTrailingZeros. induction s as [|c s IH]; [reflexivity|].
  cbn [TrimRight list_ascii_of_string inCutset]. rewrite orb_false_r.
  rewrite reverse_cons, dropZeros_snoc, IH, string_of_list_ascii_empty.
  destruct (dropZeros (reverse (list_ascii_of_string s))) as [|d kept].
  - destruct (Ascii.eqb c "0"); reflexivity.
  - rewrite reverse_snoc.
    rewrite bool_decide_eq_false_2; [reflexivity|].
    intros H. apply (f_equal length) in H. rewrite length_reverse in H. discriminate.
Qed.

(** The decimal digits of a positive number are not all zeros. *)
Lemma uint_zeros (d : Decimal.uint) :
  allZeros (NilEmpty.string_of_uint d) = true -> Pos.of_uint d = 0%N.
Proof. induction d; cbn; try discriminate; auto. Qed.

Lemma Int_String_zeros (r : Z) : 0 <= r -> allZeros (Int_String r) = true -> r = 0.
Proof.
  intros Hr H. destruct r as [|p|p]; [reflexivity | | lia].
  exfalso. unfold Int_String in H. cbn in H. apply uint_zeros in H.
  rewrite DecimalPos.Unsigned.of_to in H. discriminate.
Qed.

Lemma allZeros_append (a b : string) :
  allZeros (String.append a b) = allZeros a && allZeros b.
Proof.
  induction a as [|c a IH]; simpl; [reflexivity|]. rewrite IH. now rewrite andb_assoc.
Qed.

Lemma formatDecimals_scaled (n : Z) : formatDecimals n 6 = scaledDecimal n.
Proof.
  unfold formatDecimals, scaledDecimal.
  destruct (decide (6 = 0)) as [|_]; [lia|].
  change (6 <? 0) with false. cbv iota.
  pose proof (Z.mod_pos_bound n (10 ^ 6) ltac:(lia)) as Hrange.
  set (whole := Int_String (n / 10 ^ 6)). set (r := n mod 10 ^ 6) in *.
  assert (Hfmt : Sprintf_0d 6 r = zeroPadded 6 r).
  { unfold Sprintf_0d, zeroPadded. rewrite Z.abs_eq by lia.
    destruct (Z.ltb_spec r 0); [lia|].
    change (String.append "" ?x) with x. change (String.length "") with 0%nat.
    f_equal. f_equal. lia. }
  rewrite Hfmt, TrimRight_empty, <- TrimRight_zeros.
  destruct (Z.eqb_spec r 0) as [-> | Hne]; [reflexivity|].
  destruct (allZeros (zeroPadded 6 r)) eqn:Hz; [|reflexivity].
  exfalso. unfold zeroPadded in Hz. rewrite allZeros_append in Hz.
  apply andb_true_iff in Hz as [_ Hz]. apply Hne, Int_String_zeros; [lia | exact Hz].
Qed.

(** C6.  When the response passes the three checks and the first element
    of [constant_result], white space trimmed, is a string of hex digits
    (possibly empty), the balance returned is the rendering above of the
    unsigned value of those digits (zero for the empty string). *)
Theorem decodeResponse_balance (r : apiResp) (balanceHex : string) (others : list string) :
  tron.Error r = "" -> Result_Result r = true -> ConstantResult r = balanceHex :: others ->
  allHex (TrimSpace balanceHex) = true ->
  decodeResponse r = Ret (scaledDecimal (unsignedHex (TrimSpace balanceHex) 0))
  /\ (TrimSpace balanceHex = "" -> decodeResponse r = Ret "0").
Proof.
  intros He Hr Hc Hhex.
  assert (Hmain : decodeResponse r
                  = Ret (scaledDecimal (unsignedHex (TrimSpace balanceHex) 0))).
  { unfold decodeResponse. rewrite He, Hr, Hc. cbn.
    destruct (String.eqb_spec (TrimSpace balanceHex) "") as [Hempty | Hne].
    - rewrite Hempty. cbn [unsignedHex]. change (SetString "0" 16) with (Some 0).
      cbv iota. now rewrite formatDecimals_scaled.
    - rewrite SetString_hex by assumption. now rewrite formatDecimals_scaled. }
  split; [exact Hmain|].
  intros Hempty. rewrite Hmain, Hempty. reflexivity.
Qed.

(** Balances of one and a half tokens, of zero (an empty string and a
    blank one) and of a value beyond 64 bits. *)
Lemma decodeResponse_balance_witness :
  decodeResponse (mkApiResp ["000000000000000000000000000000000000000000000000000000000016e360"]
                            true "" "" "" "") = Ret "1.5"
  /\ decodeResponse (mkApiResp [""] true "" "" "" "") = Ret "0"
  /\ decodeResponse (mkApiResp ["   "] true "" "" "" "") = Ret "0"
  /\ decodeResponse (mkApiResp [" FFFFFFFFFFFFFFFFFFFFFFFF "; "00"] true "" "" "" "")
     = Ret "79228162514264337593543.950335".
Proof.
  split; [|split; [|split]].
  - destruct (decodeResponse_balance
                (mkApiResp ["000000000000000000000000000000000000000000000000000000000016e360"]
                           true "" "" "" "")
                "000000000000000000000000000000000000000000000000000000000016e360" [])
      as [-> _]; try reflexivity.
  - destruct (decodeResponse_balance (mkApiResp [""] true "" "" "" "") "" [])
      as [_ ->]; reflexivity.
  - destruct (decodeResponse_balance (mkApiResp ["   "] true "" "" "" "") "   " [])
      as [_ ->]; reflexivity.
  - destruct (decodeResponse_balance
                (mkApiResp [" FFFFFFFFFFFFFFFFFFFFFFFF "; "00"] true "" "" "" "")
                " FFFFFFFFFFFFFFFFFFFFFFFF " ["00"])
      as [-> _]; try reflexivity.
Defined.

(** ** The API-key manager *)

Lemma spend_Used (keyInfo : APIKeyInfo) :
  int_range (Used keyInfo) -> int_range (MaxLimit keyInfo) -> available keyInfo = true ->
  Used (spend keyInfo) = Used keyInfo + 1 /\ Used (spend keyInfo) <= MaxLimit keyInfo.
Proof.
  unfold available, spend, int_range. intros Hu Hl Ha. cbn.
  apply andb_true_iff in Ha as [_ Hlt]. apply Z.ltb_lt in Hlt.
  rewrite wrap64_id by (unfold int_range; lia). lia.
Qed.

Lemma available_spec (keyInfo : APIKeyInfo) :
  available keyInfo = true <-> Enabled keyInfo = true /\ Used keyInfo < MaxLimit keyInfo.
Proof. unfold available. rewrite andb_true_iff, Z.ltb_lt. tauto. Qed.

Lemma mod_once (x n : nat) : (n <= x < 2 * n)%nat -> (x mod n = x - n)%nat.
Proof. intros H. symmetry. apply (Nat.mod_unique x n 1); lia. Qed.

Lemma cursor_step (start d n : nat) :
  (start < n)%nat -> (((start + d) mod n + 1) mod n = (start + (d + 1)) mod n)%nat.
Proof.
  intros H. rewrite Nat.Div0.add_mod_idemp_l. f_equal. lia.
Qed.

Lemma cursor_back (start d n : nat) :
  (start < n)%nat -> (d + 1 <= n)%nat ->
  ((start + (d + 1)) mod n = start)%nat <-> (d + 1 = n)%nat.
Proof.
  intros Hs Hd. split.
  - intros H. destruct (decide (start + (d + 1) < n)%nat) as [Hlt | Hge].
    + rewrite Nat.mod_small in H by lia. lia.
    + rewrite mod_once in H by lia. lia.
  - intros H. rewrite mod_once by lia. lia.
Qed.

Section Scan.

Variable ks : list APIKeyInfo.
Variable start : nat.
Variable tu : Z.
Hypothesis start_in_range : (start < length ks)%nat.

Local Abbreviation at_offset := (atOffset ks start tu).

Lemma offset_key (d : nat) : exists keyInfo, ks !! ((start + d) mod length ks)%nat = Some keyInfo.
Proof. apply lookup_lt_is_Some_2, Nat.mod_upper_bound. lia. Qed.

(** The scan stops at the first available key at or after offset [d]. *)
Lemma scanKeys_first (n : nat) :
  forall d e keyInfo,
    (d + n = length ks)%nat -> (d <= e < length ks)%nat ->
    ks !! ((start + e) mod length ks)%nat = Some keyInfo -> available keyInfo = true ->
    (forall d' other, (d <= d' < e)%nat ->
       ks !! ((start + d') mod length ks)%nat = Some other -> available other = false) ->
    scanKeys (at_offset d) start n
    = (mkManager (<[((start + e) mod length ks)%nat := spend keyInfo]> ks)
                 ((start + (e + 1)) mod length ks) (wrap64 (tu + 1)),
       Ret (Key keyInfo)).
Proof.
  induction n as [|n IH]; intros d e keyInfo Hn He Hkey Hav Hbefore; [lia|].
  cbn [scanKeys atOffset keys current totalUsed].
  destruct (offset_key d) as [here Hhere]. rewrite Hhere.
  rewrite cursor_step by exact start_in_range.
  destruct (decide (d = e)) as [-> | Hne].
  - rewrite Hkey in Hhere. injection Hhere as <-. rewrite Hav. reflexivity.
  - rewrite (Hbefore d here) by (try lia; exact Hhere).
    destruct (decide _) as [Hback | _].
    + cbn in Hback. apply cursor_back in Hback; lia.
    + apply (IH (d + 1)%nat e keyInfo); try lia; try assumption.
      intros d' other Hd'. apply Hbefore. lia.
Qed.

(** With no available key the scan comes back to where it started. *)
Lemma scanKeys_none (n : nat) :
  forall d,
    (d + n = length ks)%nat -> (0 < n)%nat ->
    (forall keyInfo, keyInfo ∈ ks -> available keyInfo = false) ->
    scanKeys (at_offset d) start n = (mkManager ks start tu, Fail exhaustedAll).
Proof.
  induction n as [|n IH]; intros d Hn Hpos Hnone; [lia|].
  cbn [scanKeys atOffset keys current totalUsed].
  destruct (offset_key d) as [here Hhere]. rewrite Hhere.
  rewrite cursor_step by exact start_in_range.
  rewrite (Hnone here) by (eapply list_elem_of_lookup_2; exact Hhere).
  destruct (decide _) as [Hback | Hon].
  - cbn in Hback. now rewrite Hback.
  - cbn in Hon. apply (IH (d + 1)%nat); try assumption; try lia.
    destruct (decide (n = 0)%nat) as [-> | ]; [|lia].
    exfalso. apply Hon. apply cursor_back; lia.
Qed.

Lemma scanKeys_no_panic (n : nat) :
  forall d m', (d + n = length ks)%nat -> scanKeys (at_offset d) start n <> (m', Panic).
Proof.
  induction n as [|n IH]; intros d m' Hn; [discriminate|].
  cbn [scanKeys atOffset keys current totalUsed].
  destruct (offset_key d) as [here Hhere]. rewrite Hhere.
  rewrite cursor_step by exact start_in_range.
  destruct (available here); [discriminate|].
  destruct (decide _); [discriminate|]. apply (IH (d + 1)%nat). lia.
Qed.

End Scan.

(** Whatever the scan returns is a key that was available, and only that
    key's counter changes. *)
Lemma scanKeys_selected (n : nat) :
  forall (m m' : APIKeyManager) (start : nat) (key : string),
    scanKeys m start n = (m', Ret key) ->
    exists i keyInfo,
      keys m !! i = Some keyInfo /\ Key keyInfo = key /\ available keyInfo = true
      /\ keys m' = <[i := spend keyInfo]> (keys m).
Proof.
  induction n as [|n IH]; intros m m' start key H; [discriminate|].
  cbn [scanKeys] in H.
  destruct (keys m !! current m) as [here|] eqn:Hhere; [|discriminate].
  destruct (available here) eqn:Hav.
  - injection H as <- <-. exists (current m), here. auto.
  - destruct (decide _); [discriminate|].
    apply IH in H. exact H.
Qed.

Lemma GetNextKey_selected (m m' : APIKeyManager) (key : string) :
  GetNextKey m = (m', Ret key) ->
  exists i keyInfo,
    keys m !! i = Some keyInfo /\ Key keyInfo = key /\ available keyInfo = true
    /\ keys m' = <[i := spend keyInfo]> (keys m).
Proof.
  unfold GetNextKey. intros H.
  destruct (decide _); [discriminate|].
  destruct (decide _).
  - destruct (keys m !! 0%nat) as [here|] eqn:Hhere; [|discriminate].
    destruct (available here) eqn:Hav; [|discriminate].
    injection H as <- <-. exists 0%nat, here. auto.
  - eapply scanKeys_selected, H.
Qed.

(** One key, selected [n] times in a row. *)
Lemma GetNextKeys_single (key : string) (limit : Z) (n : nat) :
  forall (used : Z) (cur : nat) (tu : Z),
    int_range limit -> int_range used -> used + Z.of_nat n <= limit ->
    exists tu',
      GetNextKeys (mkManager [mkKey key used limit true] cur tu) n
      = (mkManager [mkKey key (used + Z.of_nat n) limit true] cur tu',
         replicate n (Ret key)).
Proof.
  induction n as [|n IH]; intros used cur tu Hl Hu Hn.
  - exists tu. cbn. now rewrite Z.add_0_r.
  - cbn [GetNextKeys]. unfold GetNextKey. cbn [keys length].
    destruct (decide (1 = 0)%nat); [lia|]. destruct (decide (1 = 1)%nat); [|lia].
    cbn [lookup list_lookup]. unfold available. cbn [Enabled Used MaxLimit andb].
    destruct (Z.ltb_spec used limit); [|lia].
    unfold spend. cbn [Key Used MaxLimit Enabled current totalUsed].
    rewrite wrap64_id by (unfold int_range in *; lia).
    destruct (IH (used + 1) cur (wrap64 (tu + 1))) as [tu' Hrest];
      [assumption | unfold int_range in *; lia | lia |].
    cbn [insert list_insert]. rewrite Hrest. exists tu'.
    cbn [replicate]. do 3 f_equal. f_equal. lia.
Qed.

(** C4.  GetNextKey on a manager whose counters are Go integers and whose
    cursor points at a key:
    - it never panics, and a key it returns was enabled and under its
      limit; that key's counter, and no other, goes up by one and stays
      within the limit;
    - with a single enabled key of limit L used 0 times, each of the first
      L calls returns the key and adds one to its counter, and the next
      call fails with the single-key exhaustion error;
    - with several keys, the first available key met from the cursor on,
      wrapping around, is returned, its counter incremented and the cursor
      moved past it; when no key is available after one turn, the call
      fails with the exhaustion error and leaves the manager as it was. *)
Theorem GetNextKey_rotation (m : APIKeyManager) :
  counters_in_range m -> cursor_in_range m ->
  (forall m', GetNextKey m <> (m', Panic))
  /\ (forall m' key, GetNextKey m = (m', Ret key) ->
        exists i keyInfo,
          keys m !! i = Some keyInfo /\ Key keyInfo = key
          /\ Enabled keyInfo = true /\ Used keyInfo < MaxLimit keyInfo
          /\ keys m' = <[i := mkKey key (Used keyInfo + 1) (MaxLimit keyInfo) true]> (keys m)
          /\ Used keyInfo + 1 <= MaxLimit keyInfo)
  /\ (forall key limit,
        keys m = [mkKey key 0 limit true] -> 0 <= limit ->
        (forall n, (n <= Z.to_nat limit)%nat ->
           (GetNextKeys m n).2 = replicate n (Ret key)
           /\ keys (GetNextKeys m n).1 = [mkKey key (Z.of_nat n) limit true])
        /\ GetNextKey (GetNextKeys m (Z.to_nat limit)).1
           = ((GetNextKeys m (Z.to_nat limit)).1, Fail exhaustedOne))
  /\ ((2 <= length (keys m))%nat ->
        let at_offset d := ((current m + d) mod length (keys m))%nat in
        (forall d keyInfo,
           (d < length (keys m))%nat ->
           keys m !! at_offset d = Some keyInfo -> available keyInfo = true ->
           (forall d' other, (d' < d)%nat ->
              keys m !! at_offset d' = Some other -> available other = false) ->
           GetNextKey m
           = (mkManager (<[at_offset d := spend keyInfo]> (keys m)) (at_offset (d + 1)%nat)
                        (wrap64 (totalUsed m + 1)),
              Ret (Key keyInfo)))
        /\ ((forall keyInfo, keyInfo ∈ keys m -> available keyInfo = false) ->
              GetNextKey m = (m, Fail exhaustedAll))).
Proof.
  intros Hrange Hcursor. destruct m as [ks cur tu]. cbn [keys current totalUsed] in *.
  unfold cursor_in_range, counters_in_range in *. cbn [keys current] in *.
  split; [|split; [|split]].
  - intros m'. unfold GetNextKey. cbn [keys current].
    destruct (decide _); [discriminate|].
    destruct (decide _) as [Hone|Hmany].
    + destruct ks as [|c [|]]; try discriminate. cbn.
      destruct (available c); discriminate.
    + destruct Hcursor as [Hcur | [-> _]]; [|contradiction].
      pose proof (scanKeys_no_panic ks cur tu Hcur (length ks) 0 m') as H.
      unfold atOffset in H. rewrite Nat.add_0_r, (Nat.mod_small cur) in H by lia. apply H. lia.
  - intros m' key H. apply GetNextKey_selected in H.
    destruct H as (i & keyInfo & Hi & Hk & Hav & Hkeys). cbn [keys] in *.
    exists i, keyInfo.
    pose proof (proj1 (Forall_lookup _ _) Hrange i keyInfo Hi) as [Hu Hl].
    destruct (spend_Used keyInfo Hu Hl Hav) as [Hspend Hle].
    apply available_spec in Hav as [Hen Hlt].
    repeat split; try assumption; try lia.
    rewrite Hkeys. f_equal. unfold spend in *. cbn in Hspend. rewrite Hspend, Hk, Hen.
    reflexivity.
  - intros key limit -> Hlimit.
    apply Forall_cons in Hrange as [[Hu Hl] _]. cbn in Hu, Hl.
    assert (Hcalls : forall n, (n <= Z.to_nat limit)%nat ->
              exists tu', GetNextKeys (mkManager [mkKey key 0 limit true] cur tu) n
                          = (mkManager [mkKey key (Z.of_nat n) limit true] cur tu',
                             replicate n (Ret key))).
    { intros n Hn. destruct (GetNextKeys_single key limit n 0 cur tu) as [tu' H];
        try assumption; try lia. exists tu'. exact H. }
    split.
    + intros n Hn. destruct (Hcalls n Hn) as [tu' ->]. auto.
    + destruct (Hcalls (Z.to_nat limit)) as [tu' ->]; [lia|].
      cbn [fst]. unfold GetNextKey. cbn [keys length].
      destruct (decide (1 = 0)%nat); [lia|]. destruct (decide (1 = 1)%nat); [|lia].
      cbn [lookup list_lookup]. unfold available. cbn [Enabled Used MaxLimit andb].
      destruct (Z.ltb_spec (Z.of_nat (Z.to_nat limit)) limit); [lia | reflexivity].
  - intros Hmany. cbv zeta.
    destruct Hcursor as [Hcur | [-> _]]; [|cbn in Hmany; lia].
    unfold GetNextKey. cbn [keys current totalUsed].
    destruct (decide _); [lia|]. destruct (decide _); [lia|].
    split.
    + intros d keyInfo Hd Hkey Hav Hbefore.
      pose proof (scanKeys_first ks cur tu Hcur (length ks) 0 d keyInfo) as H.
      unfold atOffset in H. rewrite Nat.add_0_r, (Nat.mod_small cur) in H by lia.
      apply H; try assumption; try lia.
      intros d' other Hd'. apply Hbefore. lia.
    + intros Hnone.
      pose proof (scanKeys_none ks cur tu Hcur (length ks) 0) as H.
      unfold atOffset in H. rewrite Nat.add_0_r, (Nat.mod_small cur) in H by lia.
      apply H; try assumption; lia.
Qed.

(** With the cursor on a used-up key the next key is returned and the
    cursor wraps to the first; a single key of limit 3 is returned three
    times and refused the fourth. *)
Lemma GetNextKey_rotation_witness :
  GetNextKey threeKeys
  = (mkManager [mkKey "k1" 5 MaxQueriesPerKey true;
                mkKey "k2" MaxQueriesPerKey MaxQueriesPerKey true;
                mkKey "k3" 8 MaxQueriesPerKey true] 0 13,
     Ret "k3")
  /\ (GetNextKeys (mkManager [mkKey "k" 0 3 true] 0 0) 4).2
     = [Ret "k"; Ret "k"; Ret "k"; Fail exhaustedOne].
Proof.
  assert (Hrange : forall ks cur tu,
            Forall (fun k => bool_decide (int_range (Used k) /\ int_range (MaxLimit k)) = true) ks ->
            counters_in_range (mkManager ks cur tu)).
  { intros ks cur tu H. unfold counters_in_range. cbn.
    eapply Forall_impl; [exact H|]. intros k Hk. now apply bool_decide_eq_true_1 in Hk. }
  split.
  - destruct (GetNextKey_rotation threeKeys) as (_ & _ & _ & Hmany).
    + apply Hrange. repeat constructor.
    + left. cbn. lia.
    + destruct Hmany as [Hfirst _]; [cbn; lia|].
      rewrite (Hfirst 1%nat (mkKey "k3" 7 MaxQueriesPerKey true)); try reflexivity.
      * cbn. lia.
      * intros d' other Hd'. replace d' with 0%nat by lia. intros [= <-]. reflexivity.
  - destruct (GetNextKey_rotation (mkManager [mkKey "k" 0 3 true] 0 0)) as (_ & _ & Hone & _).
    + apply Hrange. repeat constructor.
    + left. cbn. lia.
    + destruct (Hone "k" 3 eq_refl ltac:(lia)) as [Hcalls Hlast].
      change (GetNextKeys (mkManager [mkKey "k" 0 3 true] 0 0) 4).2
        with ((GetNextKeys (mkManager [mkKey "k" 0 3 true] 0 0) 3).2
              ++ [(GetNextKey (GetNextKeys (mkManager [mkKey "k" 0 3 true] 0 0) 3).1).2]).
      change (Z.to_nat 3) with 3%nat in Hlast. rewrite Hlast.
      destruct (Hcalls 3%nat) as [-> _]; [cbn; lia|]. reflexivity.
Defined.

(** The updates of the removal methods keep the cursor on a key. *)
Lemma RemoveKey_cursor (m : APIKeyManager) (keyToRemove : string) :
  cursor_in_range m -> cursor_in_range (RemoveKey_update m keyToRemove).1.
Proof.
  intros H. unfold RemoveKey_update. destruct (negb _); [exact H|].
  unfold cursor_in_range. cbn.
  destruct (decide _) as [Hle | Hgt]; [|left; lia].
  destruct (filter _ (keys m)) as [|k rest]; [right; auto | left; cbn; lia].
Qed.

Lemma RemoveKeysByUsageThreshold_cursor (m : APIKeyManager) (threshold : Z) :
  cursor_in_range m -> cursor_in_range (RemoveKeysByUsageThreshold_update m threshold).1.
Proof.
  intros H. unfold RemoveKeysByUsageThreshold_update. destruct (decide _); [exact H|].
  unfold cursor_in_range. cbn.
  destruct (decide _) as [Hle | Hgt]; [|left; lia].
  destruct (filter _ (keys m)) as [|k rest]; [right; auto | left; cbn; lia].
Qed.

Lemma scanKeys_cursor (n : nat) :
  forall (m : APIKeyManager) (start : nat),
    (0 < length (keys m))%nat -> cursor_in_range m ->
    cursor_in_range (scanKeys m start n).1 /\ length (keys (scanKeys m start n).1) = length (keys m).
Proof.
  induction n as [|n IH]; intros m start Hpos Hcur; [auto|].
  cbn [scanKeys]. destruct (keys m !! current m) as [here|]; [|auto].
  assert (Hnext : ((current m + 1) mod length (keys m) < length (keys m))%nat)
    by (apply Nat.mod_upper_bound; lia).
  destruct (available here).
  - unfold cursor_in_range. cbn. rewrite length_insert. auto.
  - destruct (decide _).
    + unfold cursor_in_range. cbn. auto.
    + destruct (IH (mkManager (keys m) ((current m + 1) mod length (keys m)) (totalUsed m))
                  start) as [Hc Hl]; [exact Hpos | left; exact Hnext | auto].
Qed.

Lemma GetNextKey_keeps_cursor (m : APIKeyManager) :
  cursor_in_range m ->
  cursor_in_range (GetNextKey m).1 /\ length (keys (GetNextKey m).1) = length (keys m).
Proof.
  intros H. unfold GetNextKey. destruct (decide _); [auto|].
  destruct (decide _).
  - destruct (keys m !! 0%nat); [|auto]. destruct (available a); [|auto].
    unfold cursor_in_range in *. cbn. rewrite length_insert. split; [|reflexivity].
    destruct H as [H | [H _]]; [auto | rewrite H in *; cbn in *; lia].
  - apply scanKeys_cursor; [lia | exact H].
Qed.

(** ** query.go: GetStats *)

Lemma countResult_foldl (results : list QueryResult) :
  forall success failed,
    foldl countResult (success, failed) results
    = (success + withStatus "success" results, failed + withStatus "error" results).
Proof.
  unfold withStatus.
  induction results as [|r results IH]; intros success failed; cbn [foldl].
  - cbn. f_equal; lia.
  - unfold countResult at 2. rewrite !filter_cons.
    destruct (String.eqb_spec (Status r) "success") as [Hs | Hs].
    + rewrite IH. rewrite decide_True by exact Hs.
      rewrite decide_False by (rewrite Hs; discriminate). cbn [length]. f_equal; lia.
    + destruct (String.eqb_spec (Status r) "error") as [He | He].
      * rewrite IH. rewrite decide_False by exact Hs. rewrite decide_True by exact He.
        cbn [length]. f_equal; lia.
      * rewrite IH. rewrite !decide_False by assumption. reflexivity.
Qed.

Lemma status_partition (results : list QueryResult) :
  withStatus "success" results + withStatus "error" results + otherStatus results
  = Z.of_nat (length results).
Proof.
  unfold withStatus, otherStatus.
  induction results as [|r results IH]; [reflexivity|].
  rewrite !filter_cons. cbn [length].
  destruct (decide (Status r = "success")) as [Hs | Hs].
  - rewrite decide_False by (rewrite Hs; discriminate).
    rewrite decide_False by tauto. cbn [length]. lia.
  - destruct (decide (Status r = "error")) as [He | He].
    + rewrite decide_False by tauto. cbn [length]. lia.
    + rewrite decide_True by tauto. cbn [length]. lia.
Qed.

(** C10.  GetStats returns the number of results, the number of those
    whose status is "success" and the number of those whose status is
    "error"; every other result (cancelled, pending) counts in the total
    only, so that the two counts add up to less than the total as soon as
    one result is cancelled or pending. *)
Theorem GetStats_counts (results : list QueryResult) :
  GetStats results
  = (Z.of_nat (length results), withStatus "success" results, withStatus "error" results)
  /\ withStatus "success" results + withStatus "error" results + otherStatus results
     = Z.of_nat (length results)
  /\ ((exists r, r ∈ results /\ (Status r = "cancelled" \/ Status r = "pending")) ->
        withStatus "success" results + withStatus "error" results
        < Z.of_nat (length results)).
Proof.
  split; [|split].
  - unfold GetStats. rewrite countResult_foldl. reflexivity.
  - apply status_partition.
  - intros (r & Hin & Hst). pose proof (status_partition results) as Hsum.
    assert (0 < otherStatus results); [|lia].
    unfold otherStatus.
    assert (Hmem : r ∈ filter (fun r => Status r <> "success" /\ Status r <> "error") results).
    { apply list_elem_of_filter. split; [|exact Hin].
      destruct Hst as [-> | ->]; split; discriminate. }
    destruct (filter _ results); [inversion Hmem | cbn; lia].
Qed.

(** ** query.go: the worker pool *)

Lemma holder_insert (ws : list worker) (w : nat) (x : worker) (i w' : nat) :
  holder (<[w := x]> ws) i w'
  <-> (w' = w /\ (w < length ws)%nat /\ held x = Some i) \/ (w' <> w /\ holder ws i w').
Proof.
  unfold holder. destruct (decide (w' = w)) as [-> | Hne].
  - destruct (decide (w < length ws)%nat) as [Hlt | Hge].
    + rewrite list_lookup_insert_eq by exact Hlt. cbn.
      split; [intros [= H]; left; auto | intros [(_ & _ & ->) | [H _]]; [reflexivity | contradiction]].
    + rewrite list_insert_ge by lia.
      rewrite (lookup_ge_None_2 ws w) by lia. cbn.
      split; [discriminate | intros [(_ & H & _) | [H _]]; [lia | contradiction]].
  - rewrite list_lookup_insert_ne by auto.
    split; [intros H; right; auto | intros [(H & _) | [_ H]]; [contradiction | exact H]].
Qed.

Lemma holder_lookup (ws : list worker) (i w : nat) :
  holder ws i w <-> exists x, ws !! w = Some x /\ held x = Some i.
Proof.
  unfold holder. destruct (ws !! w) as [x|]; cbn.
  - split; [intros [= H]; eauto | intros (y & [= <-] & ->); reflexivity].
  - split; [discriminate | intros (y & [=] & _)].
Qed.

Lemma pending_not_terminal (a : string) : ~ terminal (pendingResult a).
Proof. unfold terminal. cbn. intros [H | [H | H]]; discriminate. Qed.

Lemma GetNextKey_no_panic (m m' : APIKeyManager) :
  cursor_in_range m -> GetNextKey m <> (m', Panic).
Proof.
  intros Hcursor. destruct m as [ks cur tu]. unfold cursor_in_range in Hcursor.
  unfold GetNextKey. cbn [keys current totalUsed] in *.
  destruct (decide _); [discriminate|].
  destruct (decide _) as [Hone|Hmany].
  - destruct ks as [|c [|]]; try discriminate. cbn.
    destruct (available c); discriminate.
  - destruct Hcursor as [Hcur | [-> _]]; [|contradiction].
    pose proof (scanKeys_no_panic ks cur tu Hcur (length ks) 0 m') as H.
    unfold atOffset in H. rewrite Nat.add_0_r, (Nat.mod_small cur) in H by lia. apply H. lia.
Qed.

Section WorkerPool.

Variable addresses : list string.

Local Abbreviation Inv := (Inv addresses).
Local Abbreviation move := (move addresses).
Local Abbreviation remaining := (remaining addresses).
Local Abbreviation cancelledFrom := (cancelledFrom addresses).

(** A worker writes the result of the index it holds. *)
Lemma Inv_complete (s : state) (km : APIKeyManager) (w i : nat) (x : worker)
    (a : string) (r : QueryResult) :
  Inv s -> workers s !! w = Some x -> held x = Some i -> addresses !! i = Some a ->
  terminal r -> Address r = a -> cursor_in_range km ->
  (Status r = "cancelled" -> ctxDone s = true) ->
  exists s', complete s km w i r = Some s'
    /\ Inv s'
    /\ results s' = <[i := r]> (results s) /\ workers s' = <[w := Idle]> (workers s)
    /\ next s' = next s /\ ctxDone s' = ctxDone s /\ closed s' = closed s.
Proof.
  intros HI Hw Hx Ha Hr Hra Hkm Hc.
  assert (Hh : holder (workers s) i w) by (apply holder_lookup; eauto).
  destruct (inv_held s HI w i Hh) as (Hlt & a' & Ha' & Hpending).
  assert (a' = a) by congruence. subst a'.
  assert (Hw_lt : (w < length (workers s))%nat) by (eapply lookup_lt_Some; eauto).
  assert (Hi_lt : (i < length (results s))%nat) by (eapply lookup_lt_Some; eauto).
  unfold complete. destruct (decide _); [|lia].
  eexists. split; [reflexivity|]. split; [|cbn; auto 10].
  constructor; cbn.
  - rewrite length_insert. apply HI.
  - apply HI.
  - intros j b Hb Hj. rewrite list_lookup_insert_ne by lia. now apply HI.
  - intros w' j Hj. apply holder_insert in Hj as [(_ & _ & [=]) | [Hne Hj]].
    destruct (inv_held s HI w' j Hj) as (Hjlt & b & Hb & Hjp).
    split; [exact Hjlt|]. exists b. split; [exact Hb|].
    rewrite list_lookup_insert_ne; [exact Hjp|].
    intros ->. apply Hne. symmetry. eapply (inv_once s HI); eauto.
  - intros w1 w2 j H1 H2.
    apply holder_insert in H1 as [(_ & _ & [=]) | [_ H1]].
    apply holder_insert in H2 as [(_ & _ & [=]) | [_ H2]].
    eapply (inv_once s HI); eauto.
  - intros j b Hb Hj. destruct (decide (j = i)) as [-> | Hne].
    + right. exists r. rewrite list_lookup_insert_eq by exact Hi_lt.
      split; [reflexivity|]. split; [exact Hr | congruence].
    + rewrite list_lookup_insert_ne by auto.
      destruct (inv_done s HI j b Hb Hj) as [[w' Hw'] | Hdone]; [|right; exact Hdone].
      left. exists w'. apply holder_insert. right. split; [|exact Hw'].
      intros ->. apply Hne. 
      apply holder_lookup in Hw' as (y & Hy & Hyj). congruence.
  - exact Hkm.
  - intros Hfresh j rj Hj. destruct (decide (j = i)) as [-> | Hne].
    + rewrite list_lookup_insert_eq in Hj by exact Hi_lt. injection Hj as <-.
      intros Hs. apply Hc in Hs. congruence.
    + rewrite list_lookup_insert_ne in Hj by auto. eapply (inv_fresh s HI); eauto.
Qed.

(** A worker changes its own state and keeps the index it holds. *)
Lemma Inv_set_worker (s : state) (km : APIKeyManager) (w : nat) (x y : worker) :
  Inv s -> workers s !! w = Some x -> held y = held x -> cursor_in_range km ->
  Inv (set_worker s km w y).
Proof.
  intros HI Hw Hxy Hkm.
  assert (Hw_lt : (w < length (workers s))%nat) by (eapply lookup_lt_Some; eauto).
  assert (Hsame : forall j w', holder (<[w := y]> (workers s)) j w' <-> holder (workers s) j w').
  { intros j w'. rewrite holder_insert. split.
    - intros [(-> & _ & Hy) | [_ H]]; [|exact H].
      apply holder_lookup. exists x. split; [exact Hw | congruence].
    - intros H. destruct (decide (w' = w)) as [-> | Hne]; [|auto].
      left. split; [reflexivity|]. split; [exact Hw_lt|].
      apply holder_lookup in H as (x' & Hx' & Hj). congruence. }
  constructor; cbn; try apply HI.
  - intros w' j Hj. apply Hsame in Hj. exact (inv_held s HI w' j Hj).
  - intros w1 w2 j H1 H2. apply Hsame in H1, H2. eapply (inv_once s HI); eauto.
  - intros j b Hb Hj. destruct (inv_done s HI j b Hb Hj) as [[w' Hw'] | Hdone]; [|auto].
    left. exists w'. now apply Hsame.
  - exact Hkm.
Qed.

Lemma Inv_fire (l : label) (s s' : state) :
  Inv s -> fire addresses l s = Some s' -> Inv s'.
Proof.
  intros HI Hfire. destruct l as [|w| | |w|w balance err|w]; cbn [fire] in Hfire.
  - (* Cancel *)
    destruct (ctxDone s); [discriminate|]. injection Hfire as <-.
    constructor; cbn; try apply HI. discriminate.
  - (* Send *)
    destruct (workers s !! w) as [[| | |]|] eqn:Hw; try discriminate.
    destruct (negb (closed s) && bool_decide (next s < length addresses)%nat) eqn:Hguard;
      [|discriminate].
    apply andb_true_iff in Hguard as [_ Hlt]. apply bool_decide_eq_true_1 in Hlt.
    injection Hfire as <-.
    assert (Hw_lt : (w < length (workers s))%nat) by (eapply lookup_lt_Some; eauto).
    constructor; cbn.
    + apply HI.
    + lia.
    + intros j b Hb Hj. apply HI; [exact Hb | lia].
    + intros w' j Hj. apply holder_insert in Hj as [(_ & _ & [= <-]) | [_ Hj]].
      * split; [lia|]. destruct (lookup_lt_is_Some_2 addresses (next s) Hlt) as [b Hb].
        exists b. split; [exact Hb|]. apply HI; [exact Hb | lia].
      * destruct (inv_held s HI w' j Hj) as [Hjlt Hrest]. split; [lia | exact Hrest].
    + intros w1 w2 j H1 H2.
      apply holder_insert in H1 as [(-> & _ & E1) | [_ H1]];
        apply holder_insert in H2 as [(-> & _ & E2) | [_ H2]]; try reflexivity.
      * injection E1 as <-. destruct (inv_held s HI w2 (next s) H2) as [Hbad _]. lia.
      * injection E2 as <-. destruct (inv_held s HI w1 (next s) H1) as [Hbad _]. lia.
      * eapply (inv_once s HI); eauto.
    + intros j b Hb Hj. destruct (decide (j = next s)) as [-> | Hne].
      * left. exists w. apply holder_insert. left. auto.
      * destruct (inv_done s HI j b Hb) as [[w' Hw'] | Hdone]; [lia | | auto].
        left. exists w'. apply holder_insert. right. split; [|exact Hw'].
        intros ->. apply holder_lookup in Hw' as (y & Hy & Hyj).
        rewrite Hw in Hy. injection Hy as <-. discriminate.
    + apply HI.
    + apply HI.
  - (* Stop *)
    destruct (negb (closed s) && bool_decide (next s < length addresses)%nat && ctxDone s);
      [|discriminate].
    injection Hfire as <-. constructor; cbn; apply HI.
  - (* Finish *)
    destruct (negb (closed s) && bool_decide (length addresses <= next s)%nat);
      [|discriminate].
    injection Hfire as <-. constructor; cbn; apply HI.
  - (* Check *)
    destruct (workers s !! w) as [[|i|i key|]|] eqn:Hw; try discriminate.
    destruct (addresses !! i) as [a|] eqn:Ha; [|discriminate]. cbn in Hfire.
    destruct (ctxDone s) eqn:Hctx.
    + destruct (Inv_complete s (keyManager s) w i (Holding i) a (cancelledResult a))
        as (s1 & Hs1 & HI1 & _); try done.
      * unfold terminal. cbn. auto.
      * apply HI.
      * congruence.
    + pose proof (GetNextKey_keeps_cursor (keyManager s) (inv_cursor s HI)) as [Hcur _].
      destruct (GetNextKey (keyManager s)) as [km [apiKey | e |]]; [| |discriminate].
      * injection Hfire as <-. eapply Inv_set_worker; eauto.
      * destruct (Inv_complete s km w i (Holding i) a (keyErrorResult a e))
          as (s1 & Hs1 & HI1 & _); try done.
        -- unfold terminal. cbn. auto.
        -- congruence.
  - (* Answer *)
    destruct (workers s !! w) as [[|i|i key|]|] eqn:Hw; try discriminate.
    destruct (addresses !! i) as [a|] eqn:Ha; [|discriminate]. cbn in Hfire.
    destruct err as [e|].
    + destruct (Inv_complete s (keyManager s) w i (Querying i key) a (errorResult a e))
        as (s1 & Hs1 & HI1 & _); try done.
      * unfold terminal. cbn. auto.
      * apply HI.
      * congruence.
    + destruct (Inv_complete s (keyManager s) w i (Querying i key) a (successResult a balance))
        as (s1 & Hs1 & HI1 & _); try done.
      * unfold terminal. cbn. auto.
      * apply HI.
      * congruence.
  - (* Exit *)
    destruct (workers s !! w) as [[| | |]|] eqn:Hw; try discriminate.
    destruct (closed s); [|discriminate]. injection Hfire as <-.
    eapply Inv_set_worker; eauto. apply HI.
Qed.

Lemma Inv_exec (trace : list label) :
  forall s s', Inv s -> exec addresses trace s = Some s' -> Inv s'.
Proof.
  induction trace as [|l trace IH]; intros s s' HI H; cbn in H.
  - now injection H as <-.
  - destruct (fire addresses l s) as [s1|] eqn:Hfire; [|discriminate].
    cbn in H. eapply IH; [|exact H]. eapply Inv_fire; eauto.
Qed.

Lemma fire_move (l : label) (s s' : state) : fire addresses l s = Some s' -> move s s'.
Proof.
  intros Hfire. destruct l as [|w| | |w|w balance err|w]; cbn [fire] in Hfire.
  - destruct (ctxDone s) eqn:Hctx; [discriminate|]. injection Hfire as <-.
    now apply move_cancel.
  - destruct (workers s !! w) as [[| | |]|] eqn:Hw; try discriminate.
    destruct (closed s) eqn:Hcl; [discriminate|]. cbn in Hfire.
    destruct (bool_decide (next s < length addresses)%nat) eqn:Hlt; [|discriminate].
    apply bool_decide_eq_true_1 in Hlt. injection Hfire as <-.
    apply (move_send s _ w); try assumption. now rewrite Hcl.
  - destruct (closed s) eqn:Hcl; [discriminate|]. cbn in Hfire.
    destruct (_ && _); [|discriminate]. injection Hfire as <-. now apply move_close.
  - destruct (closed s) eqn:Hcl; [discriminate|]. cbn in Hfire.
    destruct (bool_decide _); [|discriminate]. injection Hfire as <-. now apply move_close.
  - destruct (workers s !! w) as [[|i|i key|]|] eqn:Hw; try discriminate.
    destruct (addresses !! i) as [a|] eqn:Ha; [|discriminate]. cbn in Hfire.
    destruct (ctxDone s) eqn:Hctx.
    + unfold complete in Hfire. destruct (decide _); [|discriminate].
      injection Hfire as <-.
      apply (move_complete s _ w i (Holding i) a (cancelledResult a) (keyManager s));
        try assumption; try reflexivity; cbn; rewrite ?Hctx; eauto.
    + destruct (GetNextKey (keyManager s)) as [km [apiKey | e |]]; [| |discriminate].
      * injection Hfire as <-. now apply (move_key s _ w i apiKey km).
      * unfold complete in Hfire. destruct (decide _); [|discriminate].
        injection Hfire as <-.
        apply (move_complete s _ w i (Holding i) a (keyErrorResult a e) km);
          try assumption; try reflexivity; cbn; rewrite ?Hctx; eauto.
  - destruct (workers s !! w) as [[|i|i key|]|] eqn:Hw; try discriminate.
    destruct (addresses !! i) as [a|] eqn:Ha; [|discriminate]. cbn in Hfire.
    destruct err as [e|]; unfold complete in Hfire;
      (destruct (decide _); [|discriminate]); injection Hfire as <-.
    + apply (move_complete s _ w i (Querying i key) a (errorResult a e) (keyManager s));
        try assumption; try reflexivity; cbn; eauto.
    + apply (move_complete s _ w i (Querying i key) a (successResult a balance)
               (keyManager s)); try assumption; try reflexivity; cbn; eauto.
  - destruct (workers s !! w) as [[| | |]|] eqn:Hw; try discriminate.
    destruct (closed s) eqn:Hcl; [|discriminate]. injection Hfire as <-.
    now apply (move_exit s _ w).
Qed.

Lemma weight_insert (ws : list worker) (w : nat) (x y : worker) :
  ws !! w = Some x ->
  (sum_list (weight <$> <[w := y]> ws) + weight x = sum_list (weight <$> ws) + weight y)%nat.
Proof.
  revert w. induction ws as [|z ws IH]; intros w Hw; [discriminate|].
  destruct w as [|w]; simpl in *.
  - injection Hw as ->. lia.
  - rewrite <- !Nat.add_assoc. f_equal. exact (IH w Hw).
Qed.

Lemma move_remaining (s s' : state) : move s s' -> (remaining s' < remaining s)%nat.
Proof.
  intros [Hctx -> | w Hw Hcl Hlt -> | Hcl -> | w i x a r km Hw Hx Ha Hi Hr ->
          | w i apiKey km Hw Hctx -> | w Hw Hcl ->]; unfold remaining; cbn.
  - rewrite Hctx. lia.
  - pose proof (weight_insert _ _ _ (Holding (next s)) Hw). cbn in *. rewrite Hcl. lia.
  - rewrite Hcl. lia.
  - pose proof (weight_insert _ _ _ Idle Hw).
    assert (2 <= weight x)%nat by (destruct x; cbn in *; try discriminate; lia).
    cbn in *. lia.
  - pose proof (weight_insert _ _ _ (Querying i apiKey) Hw). cbn in *. lia.
  - pose proof (weight_insert _ _ _ Exited Hw). cbn in *. lia.
Qed.

Lemma exec_remaining (trace : list label) :
  forall s s', exec addresses trace s = Some s' ->
               (length trace + remaining s' <= remaining s)%nat.
Proof.
  induction trace as [|l trace IH]; intros s s' H; cbn in H.
  - injection H as <-. cbn [length]. lia.
  - destruct (fire addresses l s) as [s1|] eqn:Hfire; [|discriminate]. cbn in H.
    apply IH in H. apply fire_move, move_remaining in Hfire. cbn [length]. lia.
Qed.

(** Until every worker has exited some goroutine can move, without any
    help from a cancellation. *)
Lemma not_returned (s : state) :
  returned s = false -> exists w x, workers s !! w = Some x /\ x <> Exited.
Proof.
  unfold returned. induction (workers s) as [|x ws IH]; [discriminate|]. cbn.
  destruct x; try (intros _; exists 0%nat; eexists; split; [reflexivity | discriminate]).
  intros H. destruct (IH H) as (w & x & Hw & Hx). exists (S w), x. auto.
Qed.

Lemma returned_no_holder (s : state) (i w : nat) :
  returned s = true -> ~ holder (workers s) i w.
Proof.
  unfold returned. intros H Hh. apply holder_lookup in Hh as (x & Hx & Hi).
  rewrite forallb_forall in H. apply list_elem_of_lookup_2, list_elem_of_In in Hx.
  specialize (H x Hx). destruct x; discriminate.
Qed.

Lemma can_move (s : state) :
  Inv s -> returned s = false ->
  exists l, l <> Cancel /\ is_Some (fire addresses l s).
Proof.
  intros HI Hret. destruct (not_returned s Hret) as (w & x & Hw & Hx).
  destruct x as [|i|i key|]; [| | |contradiction].
  - destruct (closed s) eqn:Hcl.
    + exists (Exit w). split; [discriminate|]. cbn. rewrite Hw, Hcl. eauto.
    + destruct (decide (next s < length addresses)%nat) as [Hlt | Hge].
      * exists (Send w). split; [discriminate|]. cbn. rewrite Hw, Hcl.
        rewrite bool_decide_eq_true_2 by exact Hlt. cbn. eauto.
      * exists Finish. split; [discriminate|]. cbn. rewrite Hcl.
        rewrite bool_decide_eq_true_2 by lia. cbn. eauto.
  - exists (Check w). split; [discriminate|]. cbn. rewrite Hw.
    destruct (inv_held s HI w i) as (Hlt & a & Ha & Hp); [apply holder_lookup; eauto|].
    rewrite Ha. cbn.
    assert (Hi : (i < length (results s))%nat) by (eapply lookup_lt_Some; eauto).
    destruct (ctxDone s).
    + unfold complete. destruct (decide _); [eauto | lia].
    + destruct (GetNextKey (keyManager s)) as [km [apiKey | e |]] eqn:Hkey.
      * eauto.
      * unfold complete. destruct (decide _); [eauto | lia].
      * exfalso. eapply GetNextKey_no_panic; [apply (inv_cursor s HI) | exact Hkey].
  - exists (Answer w "" None). split; [discriminate|]. cbn. rewrite Hw.
    destruct (inv_held s HI w i) as (Hlt & a & Ha & Hp); [apply holder_lookup; eauto|].
    rewrite Ha. cbn.
    assert (Hi : (i < length (results s))%nat) by (eapply lookup_lt_Some; eauto).
    unfold complete. destruct (decide _); [eauto | lia].
Qed.

(** A result, once written, is never written again. *)
Lemma move_keeps (s s' : state) (i : nat) (r : QueryResult) :
  Inv s -> move s s' -> results s !! i = Some r -> terminal r -> results s' !! i = Some r.
Proof.
  intros HI [Hctx -> | w Hw Hcl Hlt -> | Hcl -> | w i0 x a r0 km Hw Hx Ha Hi Hr ->
             | w i0 apiKey km Hw Hctx -> | w Hw Hcl ->] Hres Hterm; cbn; try exact Hres.
  destruct (inv_held s HI w i0) as (_ & a' & _ & Hp); [apply holder_lookup; eauto|].
  destruct (decide (i = i0)) as [-> | Hne]; [|now rewrite list_lookup_insert_ne by auto].
  rewrite Hp in Hres. injection Hres as <-. now apply pending_not_terminal in Hterm.
Qed.

Lemma exec_keeps (trace : list label) :
  forall s s' i r, Inv s -> exec addresses trace s = Some s' ->
                   results s !! i = Some r -> terminal r -> results s' !! i = Some r.
Proof.
  induction trace as [|l trace IH]; intros s s' i r HI H Hres Hterm; cbn in H.
  - now injection H as <-.
  - destruct (fire addresses l s) as [s1|] eqn:Hfire; [|discriminate]. cbn in H.
    eapply (IH s1); eauto using Inv_fire, move_keeps, fire_move.
Qed.

Lemma move_cancelledFrom (b : nat) (s s' : state) :
  Inv s -> cancelledFrom b s -> move s s' -> cancelledFrom b s'.
Proof.
  intros HI [Hdone Hfrom]
    [Hctx -> | w Hw Hcl Hlt -> | Hcl -> | w i0 x a0 r0 km Hw Hx Ha Hi Hr ->
     | w i0 apiKey km Hw Hctx -> | w Hw Hcl ->]; try congruence.
  - (* send *)
    split; [exact Hdone|]. cbn. intros i a Hia Hi.
    assert (Hw_lt : (w < length (workers s))%nat) by (eapply lookup_lt_Some; eauto).
    destruct (decide (i = next s)) as [-> | Hne].
    + right. exists w. now apply list_lookup_insert_eq.
    + destruct (Hfrom i a Hia) as [Hc | [w0 Hw0]]; [lia | auto |].
      right. exists w0. rewrite list_lookup_insert_ne; [exact Hw0 | congruence].
  - (* close *)
    split; [exact Hdone | exact Hfrom].
  - (* complete *)
    split; [exact Hdone|]. cbn. intros i a Hia Hi_range.
    assert (Hh : holder (workers s) i0 w) by (apply holder_lookup; eauto).
    destruct (inv_held s HI w i0 Hh) as (Hlt0 & a' & Ha' & Hp).
    assert (a' = a0) by congruence. subst a'.
    destruct (decide (i = i0)) as [-> | Hne].
    + left. rewrite list_lookup_insert_eq by exact Hi.
      assert (a = a0) by congruence. subst a.
      destruct (Hfrom i0 a0 Ha Hi_range) as [Hc | [w0 Hw0]];
        [rewrite Hp in Hc; unfold pendingResult, cancelledResult in Hc; discriminate|].
      assert (w0 = w).
      { eapply (inv_once s HI); [|exact Hh]. apply holder_lookup. eauto. }
      subst w0. rewrite Hw in Hw0. injection Hw0 as ->.
      cbn in Hr. rewrite Hdone in Hr. now rewrite Hr.
    + rewrite list_lookup_insert_ne by auto.
      destruct (Hfrom i a Hia Hi_range) as [Hc | [w0 Hw0]]; [auto|].
      right. exists w0. rewrite list_lookup_insert_ne; [exact Hw0|].
      intros <-. rewrite Hw in Hw0. injection Hw0 as ->. cbn in Hx. congruence.
  - (* exit *)
    split; [exact Hdone|]. cbn. intros i a Hia Hi.
    destruct (Hfrom i a Hia Hi) as [Hc | [w0 Hw0]]; [auto|].
    right. exists w0. rewrite list_lookup_insert_ne; [exact Hw0 | congruence].
Qed.

Lemma exec_cancelledFrom (b : nat) (trace : list label) :
  forall s s', Inv s -> cancelledFrom b s -> exec addresses trace s = Some s' ->
               cancelledFrom b s'.
Proof.
  induction trace as [|l trace IH]; intros s s' HI HJ H; cbn in H.
  - now injection H as <-.
  - destruct (fire addresses l s) as [s1|] eqn:Hfire; [|discriminate]. cbn in H.
    eapply (IH s1); eauto using Inv_fire, move_cancelledFrom, fire_move.
Qed.

Lemma cancelledFrom_returned (b : nat) (s : state) (i : nat) (a : string) :
  cancelledFrom b s -> returned s = true -> addresses !! i = Some a ->
  (b <= i < next s)%nat -> results s !! i = Some (cancelledResult a).
Proof.
  intros [_ Hfrom] Hret Ha Hi. destruct (Hfrom i a Ha Hi) as [Hc | [w Hw]]; [exact Hc|].
  exfalso. apply (returned_no_holder s i w Hret). apply holder_lookup. eauto.
Qed.

(** What the results are when QueryAddresses returns. *)
Lemma returned_results (s : state) (i : nat) (a : string) :
  Inv s -> returned s = true -> addresses !! i = Some a ->
  ((i < next s)%nat -> exists r, results s !! i = Some r /\ terminal r /\ Address r = a)
  /\ ((next s <= i)%nat -> results s !! i = Some (pendingResult a)).
Proof.
  intros HI Hret Ha. split.
  - intros Hi. destruct (inv_done s HI i a Ha Hi) as [[w Hw] | Hdone]; [|exact Hdone].
    exfalso. exact (returned_no_holder s i w Hret Hw).
  - intros Hi. now apply (inv_rest s HI).
Qed.

(** One worker, idle after the first address, when the cancellation comes. *)
Lemma cancelled_after_first (s s' : state) (trace : list label) :
  Inv s -> ctxDone s = false -> workers s = [Idle] -> next s = 1%nat ->
  exec addresses (Cancel :: trace) s = Some s' -> returned s' = true ->
  exists r0 k,
    results s !! 0%nat = Some r0 /\ (Status r0 = "success" \/ Status r0 = "error")
    /\ (k <= length addresses - 1)%nat
    /\ Status <$> results s'
       = Status r0 :: replicate k "cancelled" ++ replicate (length addresses - 1 - k) "pending".
Proof.
  intros HI Hctx Hws Hnext Hexec Hret.
  pose proof (inv_next s HI) as Hn. rewrite Hnext in Hn.
  destruct (lookup_lt_is_Some_2 addresses 0) as [a0 Ha0]; [lia|].
  destruct (inv_done s HI 0%nat a0 Ha0) as [[w Hw] | (r0 & Hr0 & Hterm & _)]; [lia | |].
  { exfalso. apply holder_lookup in Hw as (x & Hx & Hheld). rewrite Hws in Hx.
    destruct w as [|w]; cbn in Hx; [injection Hx as <-|]; discriminate. }
  assert (Hst : Status r0 = "success" \/ Status r0 = "error").
  { destruct Hterm as [H | [H | H]]; [auto | auto |].
    exfalso. exact (inv_fresh s HI Hctx 0%nat r0 Hr0 H). }
  cbn [exec] in Hexec. destruct (fire addresses Cancel s) as [s1|] eqn:Hfire; [|discriminate].
  cbn in Hexec.
  assert (HI1 : Inv s1) by (eapply Inv_fire; eauto).
  assert (HJ1 : cancelledFrom 1 s1).
  { cbn in Hfire. rewrite Hctx in Hfire. injection Hfire as <-. split; [reflexivity|].
    cbn. intros i a _ Hi. lia. }
  assert (Hkept1 : results s1 !! 0%nat = Some r0).
  { apply (move_keeps s s1 0%nat r0 HI (fire_move _ _ _ Hfire) Hr0 Hterm). }
  pose proof (Inv_exec trace s1 s' HI1 Hexec) as HI'.
  pose proof (exec_cancelledFrom 1 trace s1 s' HI1 HJ1 Hexec) as HJ'.
  pose proof (exec_keeps trace s1 s' 0%nat r0 HI1 Hexec Hkept1 Hterm) as Hkept.
  assert (Hnext' : (1 <= next s')%nat).
  { destruct (decide (1 <= next s')%nat) as [|Hlt]; [assumption|].
    rewrite (inv_rest s' HI' 0%nat a0 Ha0) in Hkept by lia. injection Hkept as <-.
    now apply pending_not_terminal in Hterm. }
  pose proof (inv_next s' HI') as Hn'.
  exists r0, (next s' - 1)%nat. split; [exact Hr0|]. split; [exact Hst|]. split; [lia|].
  apply list_eq. intros i. rewrite list_lookup_fmap.
  destruct i as [|i]; [now rewrite Hkept|].
  change ((Status r0 :: ?l) !! S i) with (l !! i).
  destruct (decide (S i < length addresses)%nat) as [Hin | Hout].
  - destruct (lookup_lt_is_Some_2 addresses (S i) Hin) as [a Ha].
    destruct (decide (S i < next s')%nat) as [Hlt | Hge].
    + rewrite (cancelledFrom_returned 1 s' (S i) a HJ' Hret Ha) by lia.
      rewrite lookup_app_l by (rewrite length_replicate; lia).
      rewrite lookup_replicate_2 by lia. reflexivity.
    + rewrite (inv_rest s' HI' (S i) a Ha) by lia.
      rewrite lookup_app_r by (rewrite length_replicate; lia).
      rewrite length_replicate, lookup_replicate_2 by lia. reflexivity.
  - rewrite (lookup_ge_None_2 (results s')) by (rewrite (inv_length s' HI'); lia).
    symmetry. apply lookup_ge_None_2. rewrite length_app, !length_replicate. lia.
Qed.

End WorkerPool.

Lemma Inv_started (km : APIKeyManager) (maxConcurrent : Z) (addresses : list string)
    (s0 : state) :
  QueryAddresses km maxConcurrent addresses = Started s0 -> cursor_in_range km ->
  Inv addresses s0
  /\ remaining addresses s0 = (3 * length addresses + Z.to_nat maxConcurrent + 2)%nat.
Proof.
  unfold QueryAddresses. destruct (decide _); [discriminate|]. intros [= <-] Hkm. split.
  - constructor; cbn.
    + apply length_fmap.
    + lia.
    + intros i a Ha _. now rewrite list_lookup_fmap, Ha.
    + intros w i Hh. apply holder_lookup in Hh as (x & Hx & Hheld).
      apply lookup_replicate in Hx as [-> _]. discriminate.
    + intros w w' i Hh. apply holder_lookup in Hh as (x & Hx & Hheld).
      apply lookup_replicate in Hx as [-> _]. discriminate.
    + intros i a _ Hi. lia.
    + exact Hkm.
    + intros _ i r Hr. rewrite list_lookup_fmap in Hr.
      destruct (addresses !! i); [|discriminate]. injection Hr as <-. discriminate.
  - unfold remaining. cbn.
    assert (Hsum : forall c, sum_list (weight <$> replicate c Idle) = c).
    { intros c. induction c as [|c IHc]; [reflexivity|]. simpl. f_equal. exact IHc. }
    rewrite Hsum. lia.
Qed.

(** C1 (as amended).  A run of QueryAddresses that has started its
    workers, under any schedule and with a cancellation at any point:
    - the run is bounded and, until every worker has exited, some goroutine
      can always move: QueryAddresses returns;
    - when it returns, every address a worker received has a terminal
      result, and the addresses the sender never handed out, which form the
      tail of the list, are still pending;
    - a terminal result is never changed afterwards;
    - every address a worker receives after the cancellation is marked
      cancelled;
    - with a single worker that is idle after the first address when the
      cancellation comes, the results at return are that first result
      (success or error), then some cancelled ones, then pending ones. *)
Theorem QueryAddresses_cancellation (km : APIKeyManager) (maxConcurrent : Z)
    (addresses : list string) (s0 : state) (trace : list label) (s : state) :
  QueryAddresses km maxConcurrent addresses = Started s0 -> cursor_in_range km ->
  exec addresses trace s0 = Some s ->
  (length trace <= 3 * length addresses + Z.to_nat maxConcurrent + 2)%nat
  /\ (returned s = false -> exists l, l <> Cancel /\ is_Some (fire addresses l s))
  /\ (returned s = true ->
        forall i a, addresses !! i = Some a ->
          ((i < next s)%nat -> exists r, results s !! i = Some r /\ terminal r /\ Address r = a)
          /\ ((next s <= i)%nat -> results s !! i = Some (pendingResult a)))
  /\ (forall trace' s' i r,
        exec addresses trace' s = Some s' -> results s !! i = Some r -> terminal r ->
        results s' !! i = Some r)
  /\ (ctxDone s = true ->
        forall trace' s', exec addresses trace' s = Some s' -> returned s' = true ->
          forall i a, addresses !! i = Some a -> (next s <= i < next s')%nat ->
            results s' !! i = Some (cancelledResult a))
  /\ (ctxDone s = false -> workers s = [Idle] -> next s = 1%nat ->
        forall trace' s', exec addresses (Cancel :: trace') s = Some s' -> returned s' = true ->
          exists r0 k,
            results s !! 0%nat = Some r0 /\ (Status r0 = "success" \/ Status r0 = "error")
            /\ (k <= length addresses - 1)%nat
            /\ Status <$> results s'
               = Status r0 :: replicate k "cancelled"
                 ++ replicate (length addresses - 1 - k) "pending").
Proof.
  intros Hstart Hkm Hexec.
  destruct (Inv_started km maxConcurrent addresses s0 Hstart Hkm) as [HI0 Hrem].
  pose proof (Inv_exec addresses trace s0 s HI0 Hexec) as HI.
  split; [|split; [|split; [|split; [|split]]]].
  - pose proof (exec_remaining addresses trace s0 s Hexec). lia.
  - now apply can_move.
  - intros Hret i a Ha. now apply (returned_results addresses).
  - intros trace' s' i r Hexec' Hr Hterm. eapply exec_keeps; eauto.
  - intros Hdone trace' s' Hexec' Hret i a Ha Hi.
    apply (cancelledFrom_returned addresses (next s) s' i a); try assumption.
    apply (exec_cancelledFrom addresses (next s) trace' s s'); try assumption.
    split; [exact Hdone|]. intros j b _ Hj. lia.
  - intros Hctx Hws Hnext trace' s' Hexec' Hret.
    eapply cancelled_after_first; eauto.
Qed.

(** C1 as stated fails: after the cancellation the sender may take the
    cancelled branch of its select at once; it returns, the worker exits
    and QueryAddresses returns with one success and four results that are
    still pending, none cancelled. *)
Lemma cancelled_batch_leaves_pending :
  exists s0 s,
    QueryAddresses oneKey 1 fiveAddresses = Started s0
    /\ exec fiveAddresses (firstThenCancel ++ [Stop; Exit 0]) s0 = Some s
    /\ returned s = true
    /\ Status <$> results s = ["success"; "pending"; "pending"; "pending"; "pending"].
Proof.
  eexists. eexists. split; [reflexivity|]. split; [vm_compute; reflexivity|].
  split; reflexivity.
Qed.

(** The same batch when the sender's select keeps taking the send branch:
    the four remaining addresses are received and marked cancelled. *)
Lemma QueryAddresses_cancellation_witness :
  exists s0 s s',
    QueryAddresses oneKey 1 fiveAddresses = Started s0
    /\ exec fiveAddresses firstAddress s0 = Some s
    /\ exec fiveAddresses (Cancel :: allReceived) s = Some s'
    /\ returned s' = true
    /\ Status <$> results s'
       = ["success"; "cancelled"; "cancelled"; "cancelled"; "cancelled"]
    /\ exists r0 k,
         results s !! 0%nat = Some r0 /\ (Status r0 = "success" \/ Status r0 = "error")
         /\ (k <= length fiveAddresses - 1)%nat
         /\ Status <$> results s'
            = Status r0 :: replicate k "cancelled"
              ++ replicate (length fiveAddresses - 1 - k) "pending".
Proof.
  eexists. eexists. eexists.
  split; [reflexivity|]. split; [vm_compute; reflexivity|].
  split; [vm_compute; reflexivity|]. split; [reflexivity|]. split; [reflexivity|].
  match goal with
  | |- context [results ?s !! 0%nat] =>
      destruct (QueryAddresses_cancellation oneKey 1 fiveAddresses _ firstAddress s eq_refl)
        as (_ & _ & _ & _ & _ & Hscenario)
  end.
  - left. cbn. lia.
  - vm_compute. reflexivity.
  - apply (Hscenario eq_refl eq_refl eq_refl allReceived); [vm_compute|]; reflexivity.
Defined.

(** The statistics of the batch that was cancelled after its first
    address: a total of five, one success, no failure. *)
Lemma GetStats_counts_witness :
  GetStats [successResult "addr1" "1.5"; cancelledResult "addr2"; cancelledResult "addr3";
            pendingResult "addr4"; pendingResult "addr5"] = (5, 1, 0).
Proof.
  destruct (GetStats_counts
              [successResult "addr1" "1.5"; cancelledResult "addr2"; cancelledResult "addr3";
               pendingResult "addr4"; pendingResult "addr5"]) as (-> & _ & _).
  vm_compute. reflexivity.
Defined.

(** The bucket of NewAPIClient found empty one millisecond after its last
    refill: the call returns with a count of -1, within the bounds above. *)
Lemma Wait_bounds_witness :
  exists rl', Wait (mkRateLimiter 12 1000000000 0 12 0) 1000000 84333333 = Ret rl'
    /\ -1 <= tokens rl' < maxTokens rl'
    /\ rate rl' = 12 /\ interval rl' = 1000000000 /\ maxTokens rl' = 12
    /\ (lastRefill rl' = 0 \/ lastRefill rl' = 1000000 \/ lastRefill rl' = 84333333).
Proof.
  apply (Wait_bounds (mkRateLimiter 12 1000000000 0 12 0) 1000000 84333333); cbn; lia.
Defined.

(** GetNextKey keeps the cursor on a key and the number of keys. *)
Theorem GetNextKey_cursor (m : APIKeyManager) :
  cursor_in_range m ->
  cursor_in_range (GetNextKey m).1 /\ length (keys (GetNextKey m).1) = length (keys m).
Proof. exact (GetNextKey_keeps_cursor m). Qed.

(** The cursor of the three keys after one call. *)
Lemma GetNextKey_cursor_witness :
  cursor_in_range (GetNextKey threeKeys).1
  /\ length (keys (GetNextKey threeKeys).1) = length (keys threeKeys).
Proof. apply (GetNextKey_cursor threeKeys). left. cbn. lia. Defined.



(** The number of workers kept by SetMaxConcurrent is between 1 and 50. *)
Lemma SetMaxConcurrent_clamped (max : Z) :
  1 <= SetMaxConcurrent max <= 50
  /\ (1 <= max <= 50 -> SetMaxConcurrent max = max).
Proof.
  unfold SetMaxConcurrent. destruct (decide (max < 1)); destruct (decide _); lia.
Qed.

(** ** address.go: ValidateAddressWithError *)

Section ValidateWithError.

Variable Decode : string -> list Z.
Variable Sum256 : list Z -> list Z.
Hypothesis Sum256_length : forall data, length (Sum256 data) = 32%nat.

Lemma checksumErrorLoop_agrees (checkSum secondHash : list Z) (n i : nat) :
  (i + n <= length checkSum)%nat -> (i + n <= length secondHash)%nat ->
  checksumErrorLoop checkSum secondHash i n
  = if bool_decide (take n (drop i checkSum) = take n (drop i secondHash))
    then Ret tt else Fail "地址校验码错误".
Proof.
  revert i. induction n as [|n IH]; intros i Hc Hh; simpl.
  - reflexivity.
  - destruct (lookup_lt_is_Some_2 checkSum i) as [c Hci]; [lia|].
    destruct (lookup_lt_is_Some_2 secondHash i) as [h Hhi]; [lia|].
    rewrite (index_lookup _ _ _ Hci), (index_lookup _ _ _ Hhi). simpl.
    rewrite (drop_S _ _ _ Hci), (drop_S _ _ _ Hhi). simpl.
    destruct (decide (c <> h)) as [Hne | Heq].
    + rewrite bool_decide_eq_false_2; [reflexivity | congruence].
    + apply dec_stable in Heq. subst h. rewrite IH by lia.
      apply (f_equal (fun b : bool => if b then Ret tt else Fail "地址校验码错误")).
      apply bool_decide_ext. split; [congruence | intros [=]; assumption].
Qed.

(** The two validators sort every input the same way. *)
Lemma ValidateAddressWithError_cases (address : string) :
  (length (Decode address) <> 25%nat
   /\ ValidateAddress Decode Sum256 address = Ret false
   /\ ValidateAddressWithError Decode Sum256 address = Fail "地址长度不正确")
  \/ (length (Decode address) = 25%nat
      /\ ValidateAddress Decode Sum256 address = Ret false
      /\ ValidateAddressWithError Decode Sum256 address = Fail "地址校验码错误")
  \/ (length (Decode address) = 25%nat
      /\ ValidateAddress Decode Sum256 address = Ret true
      /\ ValidateAddressWithError Decode Sum256 address = Ret tt).
Proof.
  unfold ValidateAddress, ValidateAddressWithError.
  destruct (decide (length (Decode address) <> 25%nat)) as [Hne | Heq].
  - left. auto.
  - right. apply dec_stable in Heq.
    unfold slice_from. rewrite !slice_in_range by lia.
    unfold mbind, outcome_bind, obind.
    rewrite checksumLoop_agrees, checksumErrorLoop_agrees;
      rewrite ?length_take, ?length_drop, ?Sum256_length; try lia.
    destruct (bool_decide _); [right | left]; auto.
Qed.

End ValidateWithError.

(** X6.  ValidateAddressWithError accepts exactly the addresses that
    ValidateAddress accepts, and never panics: it returns the length error
    when the decoding has not 25 bytes, the checksum error when it has 25
    bytes and ValidateAddress returns false, and nil when ValidateAddress
    returns true. *)
Theorem ValidateAddressWithError_agrees (Decode : string -> list Z)
    (Sum256 : list Z -> list Z) (address : string) :
  (forall data, length (Sum256 data) = 32%nat) ->
  (length (Decode address) <> 25%nat
   /\ ValidateAddress Decode Sum256 address = Ret false
   /\ ValidateAddressWithError Decode Sum256 address = Fail "地址长度不正确")
  \/ (length (Decode address) = 25%nat
      /\ ValidateAddress Decode Sum256 address = Ret false
      /\ ValidateAddressWithError Decode Sum256 address = Fail "地址校验码错误")
  \/ (length (Decode address) = 25%nat
      /\ ValidateAddress Decode Sum256 address = Ret true
      /\ ValidateAddressWithError Decode Sum256 address = Ret tt).
Proof. intros H. apply ValidateAddressWithError_cases, H. Qed.

Lemma ValidateAddressWithError_agrees_witness :
  ValidateAddressWithError base58.Decode sha256.Sum256 USDTContractAddress = Ret tt
  /\ ValidateAddressWithError base58.Decode sha256.Sum256 "TR7NHqjeKQxGTCi8q8ZY4pL8otSzgjLj6u"
     = Fail "地址校验码错误"
  /\ ValidateAddressWithError base58.Decode sha256.Sum256 "T" = Fail "地址长度不正确".
Proof.
  split; [| split].
  - destruct (ValidateAddressWithError_agrees base58.Decode sha256.Sum256 USDTContractAddress
                sha256_Sum256_length) as [(H & _) | [(_ & H & _) | (_ & _ & H)]].
    + exfalso. apply H. vm_compute. reflexivity.
    + exfalso. vm_compute in H. discriminate H.
    + exact H.
  - destruct (ValidateAddressWithError_agrees base58.Decode sha256.Sum256
                "TR7NHqjeKQxGTCi8q8ZY4pL8otSzgjLj6u"
                sha256_Sum256_length) as [(H & _) | [(_ & _ & H) | (_ & H & _)]].
    + exfalso. apply H. vm_compute. reflexivity.
    + exact H.
    + exfalso. vm_compute in H. discriminate H.
  - destruct (ValidateAddressWithError_agrees base58.Decode sha256.Sum256 "T"
                sha256_Sum256_length) as [(_ & _ & H) | [(H & _) | (H & _)]].
    + exact H.
    + exfalso. vm_compute in H. discriminate H.
    + exfalso. vm_compute in H. discriminate H.
Defined.

(** ** The limiter of a new client *)

(** The refill on entry of [Wait], for the limiter NewAPIClient builds:
    whatever the two clock readings, the bucket holds 12 tokens after it. *)
Lemma fresh_refill (now0 now1 : Z) :
  exists last,
    (last = now0 \/ last = now1)
    /\ (let rl := NewRateLimiter 12 Second now0 in
        let elapsed := Sub now1 (lastRefill rl) in
        if decide (elapsed > 0) then
          q ← quo elapsed (interval rl);
          let tokensToAdd := wrap64 (q * rate rl) in
          if decide (tokensToAdd > 0) then
            let rl := set_tokens rl (wrap64 (tokens rl + tokensToAdd)) in
            let rl := if decide (tokens rl > maxTokens rl)
                      then set_tokens rl (maxTokens rl) else rl in
            Ret (set_lastRefill rl now1)
          else Ret rl
        else Ret rl)
       = Ret (mkRateLimiter 12 Second 12 12 last).
Proof.
  cbn zeta. unfold NewRateLimiter. cbn [lastRefill interval rate tokens maxTokens].
  set (elapsed := Sub now1 now0).
  assert (Hel : - 2 ^ 63 <= elapsed <= 2 ^ 63 - 1) by (unfold elapsed, Sub; lia).
  destruct (decide (elapsed > 0)) as [Hpos | Hneg]; [| exists now0; auto].
  unfold quo, Second. destruct (decide (1000000000 = 0)) as [Hz | _]; [discriminate Hz|].
  unfold mbind, outcome_bind, obind.
  assert (Hq : 0 <= Z.quot elapsed 1000000000 < 9223372037).
  { rewrite Z.quot_div_nonneg by lia. split; [apply Z.div_pos; lia|].
    apply Z.div_lt_upper_bound; lia. }
  rewrite (wrap64_id (Z.quot elapsed 1000000000)) by (unfold int_range; lia).
  rewrite (wrap64_id (Z.quot elapsed 1000000000 * 12)) by (unfold int_range; lia).
  destruct (decide (Z.quot elapsed 1000000000 * 12 > 0)) as [Hadd | Hno]; [| exists now0; auto].
  exists now1. split; [auto|].
  unfold set_tokens, set_lastRefill. cbn [lastRefill interval rate tokens maxTokens].
  rewrite wrap64_id by (unfold int_range; lia).
  destruct (decide (12 + Z.quot elapsed 1000000000 * 12 > 12)) as [_ | Hle]; [reflexivity | lia].
Qed.

(** X7.  The first Wait on the limiter of a new client never sleeps,
    whatever the clock reads: it leaves 11 of the 12 tokens.  QueryAddresses
    builds a new client for every address, so no query of a batch is ever
    delayed by its limiter. *)
Theorem NewAPIClient_first_Wait (apiKey : string) (now0 now1 now2 : Z) :
  Wait_sleep (Limiter (NewAPIClient apiKey now0)) now1 = Ret None
  /\ exists last,
       (last = now0 \/ last = now1)
       /\ Wait (Limiter (NewAPIClient apiKey now0)) now1 now2
          = Ret (mkRateLimiter 12 Second 11 12 last).
Proof.
  destruct (fresh_refill now0 now1) as (last & Hlast & Hrefill).
  cbn zeta in Hrefill. unfold NewAPIClient. cbn [Limiter].
  split.
  - unfold Wait_sleep. cbn zeta. rewrite Hrefill. reflexivity.
  - exists last. split; [exact Hlast|].
    unfold Wait. cbn zeta. rewrite Hrefill. reflexivity.
Qed.

(** ** api.go: the cost of a query, and QueryBalance *)

Lemma slept_app (l1 l2 : list event) : slept (l1 ++ l2) = slept l1 + slept l2.
Proof.
  induction l1 as [|e l1 IH]; [reflexivity|].
  cbn [app]. unfold slept in *. cbn [foldr]. rewrite IH. destruct e; lia.
Qed.

Lemma sent_app (l1 l2 : list event) : sent (l1 ++ l2) = (sent l1 + sent l2)%nat.
Proof.
  induction l1 as [|e l1 IH]; [reflexivity|].
  cbn [app]. unfold sent in *. cbn [foldr]. rewrite IH. destruct e; lia.
Qed.

Lemma pause_cost (i : nat) (r : DoResult) :
  sent (pause i r) = 0%nat
  /\ 0 <= slept (pause i r) <= 2 * (Z.of_nat i + 1)
  /\ (slept (pause i r) = 2 * (Z.of_nat i + 1) -> statusOf r = Some 429).
Proof.
  unfold pause. destruct (succeeded r); [cbn; lia|].
  destruct (bool_decide (statusOf r = Some 429)) eqn:H429.
  - apply bool_decide_eq_true_1 in H429. cbn. split; [reflexivity|]. split; [lia | auto].
  - destruct r as [resp | resp]; [cbn; lia|].
    destruct (i <? 2)%nat; cbn; lia.
Qed.

Lemma attemptsLog_S (w : world) (req : TriggerConstantContractRequest) (i k : nat) :
  attemptsLog w req i (S k)
  = attemptsLog w req i k ++ Sent (i + k) :: pause (i + k) (Do w req (i + k)).
Proof.
  unfold attemptsLog. rewrite seq_S, flat_map_app. cbn [flat_map].
  now rewrite app_nil_r.
Qed.

Lemma attemptsLog_cost (w : world) (req : TriggerConstantContractRequest) (k : nat) :
  sent (attemptsLog w req 0 k) = k
  /\ 0 <= slept (attemptsLog w req 0 k) <= Z.of_nat k * (Z.of_nat k + 1)
  /\ (slept (attemptsLog w req 0 k) = Z.of_nat k * (Z.of_nat k + 1) ->
      forall j, (j < k)%nat -> statusOf (Do w req j) = Some 429).
Proof.
  induction k as [|k (IHsent & IHslept & IHall)].
  - cbn. split; [reflexivity|]. split; [lia|]. intros _ j Hj. lia.
  - rewrite attemptsLog_S. cbn [Nat.add].
    change (Sent k :: pause k (Do w req k)) with ([Sent k] ++ pause k (Do w req k)).
    rewrite !sent_app, !slept_app.
    destruct (pause_cost k (Do w req k)) as (Hsent & Hslept & H429).
    rewrite IHsent, Hsent. change (slept [Sent k]) with 0. change (sent [Sent k]) with 1%nat.
    split; [lia|]. split; [lia|].
    intros Hmax j Hj. destruct (decide (j = k)) as [-> | Hne].
    + apply H429. lia.
    + apply IHall; lia.
Qed.

(** X8.  Whatever the server and the context do, one call of
    QueryBalanceWithContext sends at most 3 requests and sleeps at most 12
    seconds between them; it sleeps 12 seconds only when it sent 3
    requests that were all answered with status 429. *)
Theorem QueryBalanceWithContext_cost (Decode : string -> list Z) (w : world)
    (address : string) :
  let log := (QueryBalanceWithContext Decode w address).2 in
  (sent log <= 3)%nat
  /\ 0 <= slept log <= 12
  /\ (slept log = 12 ->
      sent log = 3%nat
      /\ exists param,
           AddressToParameter Decode address = Ret param
           /\ forall j, (j < 3)%nat ->
                statusOf (Do w (mkRequest address USDTContractAddress BalanceOfSelector
                                          param true) j) = Some 429).
Proof.
  unfold QueryBalanceWithContext.
  destruct (AddressToParameter Decode address) as [param | e |]; try (cbn; lia).
  destruct (newRequestFails w); [cbn; lia|].
  set (req := mkRequest address USDTContractAddress BalanceOfSelector param true).
  change maxRetries with 3%nat.
  destruct (sendLoop_attempts w req 3 0 None false) as (k & Hk & Hlog & _).
  destruct (attemptsLog_cost w req k) as (Hsent & Hslept & Hall).
  assert (Hlog' : (let '(ex, log) := sendLoop w req 0 3 None false in
                   match ex with
                   | Cancelled => (Fail "请求已取消", log)
                   | LoopDone resp lastErr => (afterLoop resp lastErr, log)
                   end).2 = attemptsLog w req 0 k).
  { destruct (sendLoop w req 0 3 None false) as [[|resp lastErr] evs]; exact Hlog. }
  cbn zeta.
  replace (match sendLoop w req 0 3 None false with
           | (Cancelled, log) => (Fail "请求已取消", log)
           | (LoopDone resp lastErr, log) => (afterLoop resp lastErr, log)
           end).2 with (attemptsLog w req 0 k)
    by (destruct (sendLoop w req 0 3 None false) as [[|resp lastErr] evs]; symmetry; exact Hlog).
  clear Hlog'. rewrite Hsent.
  split; [exact Hk|]. split; [nia|].
  intros H12. assert (k = 3%nat) as -> by nia.
  split; [reflexivity|]. exists param. split; [reflexivity|].
  apply Hall. rewrite H12. reflexivity.
Qed.

Section Background.

Variable Decode : string -> list Z.

Lemma afterLoop_not_cancelled (resp : option Response) (lastErr : bool) :
  afterLoop resp lastErr <> Fail "请求已取消".
Proof.
  unfold afterLoop. destruct lastErr; [discriminate|].
  destruct resp as [resp|]; [|discriminate].
  destruct (decide _); [discriminate|].
  destruct (Body resp) as [| |r]; try discriminate.
  unfold decodeResponse.
  destruct (negb _); [discriminate|]. destruct (negb _); [discriminate|].
  destruct (decide _); [|discriminate].
  unfold index. destruct (ConstantResult r !! 0%nat) as [balanceHex|];
    unfold mbind, outcome_bind, obind; [|discriminate].
  destruct (SetString _ _); discriminate.
Qed.

(** X9.  QueryBalance runs the query under a context that is never
    cancelled: when the address converts and the request can be built, it
    sends attempts 0, 1, ... up to the first one that gives status 200
    without error, or up to the third; what it returns is decided by that
    last attempt alone, and is never the cancellation error. *)
Theorem QueryBalance_never_cancelled (w : world) (address param : string)
    (res : outcome string) (log : list event) :
  AddressToParameter Decode address = Ret param ->
  newRequestFails w = false ->
  QueryBalance Decode w address = (res, log) ->
  let req := mkRequest address USDTContractAddress BalanceOfSelector param true in
  exists k : nat,
    (k < 3)%nat
    /\ log = attemptsLog w req 0 (S k)
    /\ (forall j, (j < k)%nat -> succeeded (Do w req j) = false)
    /\ (succeeded (Do w req k) = true \/ k = 2%nat)
    /\ res = afterLoop (assigned (Do w req k)).1 (assigned (Do w req k)).2
    /\ res <> Fail "请求已取消".
Proof.
  intros Hparam Hreq Hcall req. unfold QueryBalance, QueryBalanceWithContext in Hcall.
  cbn [newRequestFails] in Hcall.
  rewrite Hparam, Hreq in Hcall. fold req in Hcall. change maxRetries with 3%nat in Hcall.
  set (w' := mkWorld false (fun _ => false) (Do w)) in Hcall.
  destruct (sendLoop_attempts w' req 3 0 None false) as (k & Hk & Hlog & Hrun & Hfail & Hexit).
  destruct (sendLoop w' req 0 3 None false) as [ex evs]. cbn [fst snd] in *.
  destruct ex as [|resp lastErr]; injection Hcall as <- <-.
  - destruct Hexit as (_ & Hc & _). discriminate Hc.
  - destruct Hexit as [Hzero Hlast].
    destruct k as [|k]; [destruct Hzero as [[=] _]; reflexivity|].
    destruct (Hlast k eq_refl) as [Heq Hstop]. cbn [Nat.add] in *.
    exists k. split; [lia|]. split; [exact Hlog|].
    split; [intros j Hj; apply (Hfail j); lia|].
    split; [destruct Hstop as [Hs | Hs]; [left; exact Hs | right; lia]|].
    change (Do w' req k) with (Do w req k) in Heq. rewrite <- Heq. cbn [fst snd].
    split; [reflexivity | apply afterLoop_not_cancelled].
Qed.

End Background.

(** The server that fails once: QueryBalance returns the balance of the
    second attempt. *)
Lemma QueryBalance_never_cancelled_witness :
  exists k : nat,
    (k < 3)%nat
    /\ [Sent 0%nat; Sent 1%nat]
       = attemptsLog fails500Once
           (mkRequest USDTContractAddress USDTContractAddress BalanceOfSelector
              "000000000000000000000000a614f803b6fd780986a42c78ec9c7f77e6ded13c" true) 0 (S k)
    /\ Ret "1" <> Fail "请求已取消".
Proof.
  destruct (QueryBalance_never_cancelled base58.Decode fails500Once USDTContractAddress
              "000000000000000000000000a614f803b6fd780986a42c78ec9c7f77e6ded13c"
              (Ret "1") [Sent 0%nat; Sent 1%nat])
    as (k & Hk & Hlog & _ & _ & _ & Hne).
  - vm_compute. reflexivity.
  - reflexivity.
  - vm_compute. reflexivity.
  - exists k. split; [exact Hk|]. split; [exact Hlog | exact Hne].
Defined.

(** ** The key manager: removal *)

Lemma RemoveKey_cases (m : APIKeyManager) (keyToRemove : string) :
  ((keyToRemove ∉ (Key <$> keys m))
   /\ RemoveKey m keyToRemove = Returns (m, Fail "未找到指定的 API Key"))
  \/ (keyToRemove ∈ (Key <$> keys m) /\ RemoveKey m keyToRemove = Blocked).
Proof.
  unfold RemoveKey, RemoveKey_update.
  destruct (bool_decide (Exists _ (keys m))) eqn:Hfound.
  - right. apply bool_decide_eq_true_1 in Hfound. split; [|reflexivity].
    apply Exists_exists in Hfound as (keyInfo & Hin & <-).
    apply list_elem_of_fmap. eauto.
  - left. apply bool_decide_eq_false_1 in Hfound. split; [|reflexivity].
    intros (keyInfo & -> & Hin)%list_elem_of_fmap. apply Hfound, Exists_exists. eauto.
Qed.

(** X10.  The two removal methods call saveStats while they hold the write
    lock of the manager, and saveStats waits for the read lock: RemoveKey
    returns only when the key is absent, with the not-found error and the
    manager unchanged, and RemoveKeysByUsageThreshold only on a manager
    without keys, with 0; in every other case the call never returns. *)
Theorem removal_blocks (m : APIKeyManager) :
  (forall keyToRemove,
     ((keyToRemove ∉ (Key <$> keys m))
      /\ RemoveKey m keyToRemove = Returns (m, Fail "未找到指定的 API Key"))
     \/ (keyToRemove ∈ (Key <$> keys m) /\ RemoveKey m keyToRemove = Blocked))
  /\ (forall threshold,
        (keys m = [] /\ RemoveKeysByUsageThreshold m threshold = Returns (m, Ret 0))
        \/ (keys m <> [] /\ RemoveKeysByUsageThreshold m threshold = Blocked)).
Proof.
  split; [apply RemoveKey_cases|].
  intros threshold. unfold RemoveKeysByUsageThreshold, RemoveKeysByUsageThreshold_update.
  destruct (decide (length (keys m) = 0)%nat) as [Hz | Hnz].
  - left. split; [now apply length_zero_iff_nil | reflexivity].
  - right. split; [|reflexivity]. intros Hnil. rewrite Hnil in Hnz. apply Hnz. reflexivity.
Qed.

(** ** The key manager: loading the keys and the usage counts *)

Lemma scanKeyLines_spec (lines : list string) :
  forall (ks : list APIKeyInfo) (seen : gset string),
    (forall key, key ∈ (Key <$> ks) <-> key ∈ seen) -> NoDup (Key <$> ks) ->
    NoDup (Key <$> scanKeyLines lines ks seen)
    /\ (forall key, key ∈ (Key <$> scanKeyLines lines ks seen)
                    <-> key ∈ seen
                        \/ (key <> "" /\ exists line, line ∈ lines /\ TrimSpace line = key))
    /\ exists new, scanKeyLines lines ks seen = ks ++ new
                   /\ Forall (fun keyInfo => Used keyInfo = 0 /\ standardKey keyInfo) new.
Proof.
  induction lines as [|text rest IH]; intros ks seen Hseen Hnodup; cbn [scanKeyLines].
  - split; [exact Hnodup|]. split.
    + intros key. rewrite Hseen. split; [auto|].
      intros [H | (_ & line & Hin & _)]; [exact H | inversion Hin].
    + exists []. rewrite app_nil_r. auto.
  - destruct (String.eqb (TrimSpace text) "") eqn:Hempty.
    { apply String.eqb_eq in Hempty.
      destruct (IH ks seen Hseen Hnodup) as (Hnd & Hmem & Hnew).
      split; [exact Hnd|]. split; [|exact Hnew].
      intros key. rewrite Hmem. split.
      - intros [H | (Hne & line & Hin & Hline)]; [auto|].
        right. split; [exact Hne|]. exists line.
        split; [now apply elem_of_cons; right | exact Hline].
      - intros [H | (Hne & line & Hin & Hline)]; [auto|].
        apply elem_of_cons in Hin as [-> | Hin]; [congruence|].
        right. eauto. }
    destruct (bool_decide (TrimSpace text ∈ seen)) eqn:Hdup.
    { apply bool_decide_eq_true_1 in Hdup.
      destruct (IH ks seen Hseen Hnodup) as (Hnd & Hmem & Hnew).
      split; [exact Hnd|]. split; [|exact Hnew].
      intros key. rewrite Hmem. split.
      - intros [H | (Hne & line & Hin & Hline)]; [auto|].
        right. split; [exact Hne|]. exists line.
        split; [now apply elem_of_cons; right | exact Hline].
      - intros [H | (Hne & line & Hin & Hline)]; [auto|].
        apply elem_of_cons in Hin as [-> | Hin]; [left; congruence|].
        right. eauto. }
    apply bool_decide_eq_false_1 in Hdup.
    apply String.eqb_neq in Hempty.
    set (line := TrimSpace text) in *.
    destruct (IH (ks ++ [mkKey line 0 MaxQueriesPerKey true]) ({[line]} ∪ seen))
      as (Hnd & Hmem & new & Hnew & Hfresh).
    { intros key. rewrite fmap_app, elem_of_app, elem_of_union, elem_of_singleton, Hseen.
      cbn. rewrite list_elem_of_singleton. tauto. }
    { rewrite fmap_app. apply NoDup_app. split; [exact Hnodup|]. split.
      - intros key Hin Hin'. cbn in Hin'. apply list_elem_of_singleton in Hin'. subst key.
        apply Hdup, Hseen, Hin.
      - cbn. apply NoDup_singleton. }
    split; [exact Hnd|]. split.
    + intros key. rewrite Hmem, elem_of_union, elem_of_singleton. split.
      * intros [[-> | H] | (Hne & l & Hin & Hline)]; [right | auto | right].
        -- split; [exact Hempty|]. exists text. split; [apply elem_of_cons; auto | reflexivity].
        -- split; [exact Hne|]. exists l. split; [apply elem_of_cons; auto | exact Hline].
      * intros [H | (Hne & l & Hin & Hline)]; [auto|].
        apply elem_of_cons in Hin as [-> | Hin]; [left; left; symmetry; exact Hline|].
        right. eauto.
    + exists (mkKey line 0 MaxQueriesPerKey true :: new).
      split; [rewrite Hnew, <- app_assoc; reflexivity|].
      constructor; [|exact Hfresh]. cbn. unfold standardKey. auto.
Qed.

Lemma mergeStats_Key (stats : gmap string Z) (ks : list APIKeyInfo) :
  Key <$> mergeStats stats ks = Key <$> ks.
Proof.
  unfold mergeStats. rewrite <- list_fmap_compose. apply list_fmap_ext.
  intros i keyInfo _. cbn. destruct (stats !! Key keyInfo); reflexivity.
Qed.

Lemma mergeStats_Forall (stats : gmap string Z) (ks : list APIKeyInfo) :
  Forall (fun keyInfo => Used keyInfo = 0 /\ standardKey keyInfo) ks ->
  Forall (fun keyInfo => standardKey keyInfo
                         /\ Used keyInfo = default 0 (stats !! Key keyInfo))
         (mergeStats stats ks).
Proof.
  intros H. unfold mergeStats. apply Forall_fmap. eapply Forall_impl; [exact H|].
  intros keyInfo (Hused & Hstd). cbn.
  destruct (stats !! Key keyInfo) as [used|] eqn:Hlook; cbn.
  - rewrite Hlook. split; [exact Hstd | reflexivity].
  - rewrite Hlook. split; [exact Hstd | exact Hused].
Qed.

(** What a successful load sets up. *)
Lemma LoadKeysFromFile_result (m : APIKeyManager) (file : option textFile) (stats : statsFile) :
  exists m' r,
    LoadKeysFromFile m file stats = Returns (m', r)
    /\ (r <> Ret tt -> m' = m)
    /\ (r = Ret tt ->
        exists f, file = Some f /\ scanErr f = None
          /\ NoDup (Key <$> keys m') /\ keys m' <> []
          /\ current m' = 0%nat /\ totalUsed m' = totalUsed m
          /\ (forall key, key ∈ (Key <$> keys m') <-> namedIn f key)
          /\ Forall (fun keyInfo => standardKey keyInfo
                                    /\ Used keyInfo = recorded stats (Key keyInfo))
                    (keys m')
          /\ Key <$> keys m' = Key <$> scanKeyLines (fileLines f) [] ∅).
Proof.
  unfold LoadKeysFromFile. destruct file as [f|].
  2: { eexists _, _. split; [reflexivity|]. split; [reflexivity | discriminate]. }
  destruct (bool_decide (scanErr f <> None)) eqn:Herr.
  { eexists _, _. split; [reflexivity|]. split; [reflexivity | discriminate]. }
  apply bool_decide_eq_false_1, dec_stable in Herr.
  destruct (decide (length (scanKeyLines (fileLines f) [] ∅) = 0)%nat) as [Hz | Hnz].
  { eexists _, _. split; [reflexivity|]. split; [reflexivity | discriminate]. }
  destruct (scanKeyLines_spec (fileLines f) [] ∅) as (Hnd & Hmem & new & Hnew & Hfresh).
  { intros key. cbn. split; [intros H; inversion H | intros H; exfalso; set_solver]. }
  { cbn. apply NoDup_nil_2. }
  cbn [app] in Hnew.
  set (ks := scanKeyLines (fileLines f) [] ∅) in *.
  assert (Hmerged : exists st,
             match loadStats stats with Ret st' => mergeStats st' ks | _ => ks end
             = mergeStats st ks
             /\ forall key, recorded stats key = default 0 (st !! key)).
  { unfold recorded. destruct (loadStats stats) as [st | e |].
    - exists st. auto.
    - exists ∅. split; [|intros key; rewrite lookup_empty; reflexivity].
      unfold mergeStats. symmetry. etransitivity; [|apply list_fmap_id].
      apply list_fmap_ext. intros i keyInfo _. rewrite lookup_empty. reflexivity.
    - exists ∅. split; [|intros key; rewrite lookup_empty; reflexivity].
      unfold mergeStats. symmetry. etransitivity; [|apply list_fmap_id].
      apply list_fmap_ext. intros i keyInfo _. rewrite lookup_empty. reflexivity. }
  destruct Hmerged as (st & -> & Hrec).
  eexists _, _. split; [reflexivity|]. split; [intros H; exfalso; apply H; reflexivity|].
  intros _. exists f. split; [reflexivity|]. split; [exact Herr|].
  cbn [keys current totalUsed]. rewrite mergeStats_Key.
  split; [exact Hnd|]. split.
  { intros Hnil. apply Hnz. apply (f_equal length) in Hnil.
    unfold mergeStats in Hnil. rewrite length_fmap in Hnil. exact Hnil. }
  split; [reflexivity|]. split; [reflexivity|]. split.
  { intros key. rewrite Hmem. unfold namedIn. split.
    - intros [H | H]; [exfalso; set_solver | exact H].
    - auto. }
  split; [|reflexivity].
  rewrite Hnew in *. eapply Forall_impl; [apply mergeStats_Forall, Hfresh|].
  intros keyInfo (Hstd & Hused). split; [exact Hstd|]. rewrite Hrec. exact Hused.
Qed.

(** X11.  LoadKeysFromFile always returns.  When it fails it leaves the
    manager as it was; when it succeeds the manager holds one entry for
    each distinct non-empty trimmed line of the file and no other, every
    entry enabled with the limit of 100000 and the count the usage file
    records for it (0 when it records none), and the cursor is back on the
    first key. *)
Theorem LoadKeysFromFile_loaded (m : APIKeyManager) (file : option textFile)
    (stats : statsFile) :
  exists m' r,
    LoadKeysFromFile m file stats = Returns (m', r)
    /\ (r <> Ret tt -> m' = m)
    /\ (r = Ret tt ->
        exists f, file = Some f /\ scanErr f = None
          /\ NoDup (Key <$> keys m') /\ keys m' <> []
          /\ current m' = 0%nat /\ totalUsed m' = totalUsed m
          /\ (forall key, key ∈ (Key <$> keys m') <-> namedIn f key)
          /\ Forall (fun keyInfo => standardKey keyInfo
                                    /\ Used keyInfo = recorded stats (Key keyInfo))
                    (keys m')).
Proof.
  destruct (LoadKeysFromFile_result m file stats) as (m' & r & Hcall & Hfail & Hok).
  exists m', r. split; [exact Hcall|]. split; [exact Hfail|].
  intros Hr. destruct (Hok Hr) as (f & H1 & H2 & H3 & H4 & H5 & H6 & H7 & H8 & _).
  exists f. auto 10.
Qed.

(** ** The key manager: the counts across a restart *)

Lemma saveStats_lookup (ks : list APIKeyInfo) :
  forall (stats : gmap string Z) (keyInfo : APIKeyInfo),
    NoDup (Key <$> ks) -> keyInfo ∈ ks ->
    foldl (fun stats keyInfo => <[Key keyInfo := Used keyInfo]> stats) stats ks
    !! Key keyInfo = Some (Used keyInfo).
Proof.
  induction ks as [|x ks IH] using rev_ind; intros stats keyInfo Hnd Hin; [inversion Hin|].
  rewrite fmap_app in Hnd. apply NoDup_app in Hnd as (Hnd & Hfresh & _).
  rewrite foldl_app. cbn [foldl].
  apply elem_of_app in Hin as [Hin | Hin].
  - rewrite lookup_insert_ne; [apply IH; assumption|].
    intros Heq. apply (Hfresh (Key keyInfo)).
    + apply list_elem_of_fmap. eauto.
    + rewrite <- Heq. cbn. apply list_elem_of_singleton. reflexivity.
  - apply list_elem_of_singleton in Hin. subst x. apply lookup_insert_eq.
Qed.

Lemma sameKey_refl (ks : list APIKeyInfo) : Forall2 sameKey ks ks.
Proof. induction ks; constructor; [unfold sameKey; auto | assumption]. Qed.

Lemma sameKey_trans (l1 l2 l3 : list APIKeyInfo) :
  Forall2 sameKey l1 l2 -> Forall2 sameKey l2 l3 -> Forall2 sameKey l1 l3.
Proof.
  intros H12. revert l3. induction H12 as [|a b l1 l2 Hab _ IH]; intros l3 H23.
  - inversion H23. constructor.
  - inversion H23 as [|b' c l2' l3' Hbc Hrest]; subst. constructor; [|apply IH, Hrest].
    unfold sameKey in *. intuition congruence.
Qed.

Lemma sameKey_spend (ks : list APIKeyInfo) (i : nat) (keyInfo : APIKeyInfo) :
  ks !! i = Some keyInfo -> Forall2 sameKey ks (<[i := spend keyInfo]> ks).
Proof.
  intros Hi. rewrite <- (list_insert_id ks i keyInfo Hi) at 1.
  apply Forall2_insert; [apply sameKey_refl | unfold sameKey; auto].
Qed.

Lemma scanKeys_sameKey (n : nat) :
  forall (m : APIKeyManager) (start : nat),
    Forall2 sameKey (keys m) (keys (scanKeys m start n).1).
Proof.
  induction n as [|n IH]; intros m start; cbn [scanKeys]; [apply sameKey_refl|].
  destruct (keys m !! current m) as [keyInfo|] eqn:Hcur; [|apply sameKey_refl].
  destruct (available keyInfo).
  - cbn. apply sameKey_spend, Hcur.
  - cbn [current]. destruct (decide _); [apply sameKey_refl|].
    apply (IH (mkManager (keys m) _ (totalUsed m))).
Qed.

Lemma GetNextKey_sameKey (m : APIKeyManager) :
  Forall2 sameKey (keys m) (keys (GetNextKey m).1).
Proof.
  unfold GetNextKey. destruct (decide _); [apply sameKey_refl|].
  destruct (decide _); [|apply scanKeys_sameKey].
  destruct (keys m !! 0%nat) as [keyInfo|] eqn:H0; [|apply sameKey_refl].
  destruct (available keyInfo); [cbn; apply sameKey_spend, H0 | apply sameKey_refl].
Qed.

Lemma GetNextKeys_step (m : APIKeyManager) (n : nat) :
  GetNextKeys m (S n)
  = ((GetNextKeys (GetNextKey m).1 n).1, (GetNextKey m).2 :: (GetNextKeys (GetNextKey m).1 n).2).
Proof.
  cbn [GetNextKeys]. destruct (GetNextKey m) as [m1 r]. cbn [fst snd].
  destruct (GetNextKeys m1 n) as [m2 rs]. reflexivity.
Qed.

Lemma GetNextKeys_sameKey (n : nat) :
  forall m : APIKeyManager, Forall2 sameKey (keys m) (keys (GetNextKeys m n).1).
Proof.
  induction n as [|n IH]; intros m; [apply sameKey_refl|].
  rewrite GetNextKeys_step. cbn [fst].
  eapply sameKey_trans; [apply GetNextKey_sameKey | apply IH].
Qed.

Lemma mergeStats_restores (stats : gmap string Z) (ks0 ks : list APIKeyInfo) :
  Forall2 (fun a b => sameKey a b /\ stats !! Key b = Some (Used b)) ks0 ks ->
  mergeStats stats ks0 = ks.
Proof.
  unfold mergeStats. induction 1 as [|a b ks0 ks ((Hkey & Hmax & Hen) & Hlook) _ IH];
    [reflexivity|].
  rewrite fmap_cons. f_equal; [|exact IH].
  rewrite Hkey, Hlook, Hmax, Hen. destruct b; reflexivity.
Qed.

(** X12.  The use counts survive a restart.  After a key file was loaded
    and any number of keys were handed out, let the usage file hold the
    map saveStats builds from the manager; then loading the same key file
    again gives back every key with the count it had, and LoadStatsIfExists
    on the running manager changes nothing. *)
Theorem usage_survives_restart (m0 m0' m1 : APIKeyManager) (f : textFile) (stats0 : statsFile)
    (n : nat) (stats : gmap string Z) :
  LoadKeysFromFile m0 (Some f) stats0 = Returns (m1, Ret tt) ->
  saveStats Unlocked (GetNextKeys m1 n).1 = Returns stats ->
  LoadKeysFromFile m0' (Some f) (Stats (Some stats))
  = Returns (mkManager (keys (GetNextKeys m1 n).1) 0 (totalUsed m0'), Ret tt)
  /\ LoadStatsIfExists (GetNextKeys m1 n).1 (Stats (Some stats))
     = ((GetNextKeys m1 n).1, Ret tt).
Proof.
  intros Hload Hsave.
  destruct (LoadKeysFromFile_result m0 (Some f) stats0) as (m' & r & Hcall & _ & Hok).
  rewrite Hload in Hcall. injection Hcall as <- <-.
  destruct (Hok eq_refl) as (f' & [= <-] & Herr & Hnd & Hne & _ & _ & _ & Hstd & Hnames).
  set (ks0 := scanKeyLines (fileLines f) [] ∅) in *.
  set (m2 := (GetNextKeys m1 n).1) in *.
  pose proof (GetNextKeys_sameKey n m1) as Hsame. fold m2 in Hsame.
  assert (Hnd2 : NoDup (Key <$> keys m2)).
  { replace (Key <$> keys m2) with (Key <$> keys m1); [exact Hnd|].
    clear -Hsame. induction Hsame as [|a b l k (Hk & _) _ IH]; [reflexivity|].
    cbn. f_equal; [exact Hk | exact IH]. }
  injection Hsave as <-.
  assert (Hlook : forall keyInfo, keyInfo ∈ keys m2 ->
            foldl (fun stats keyInfo => <[Key keyInfo := Used keyInfo]> stats) ∅ (keys m2)
            !! Key keyInfo = Some (Used keyInfo))
    by (intros keyInfo Hin; apply saveStats_lookup; assumption).
  set (stats := foldl _ ∅ (keys m2)) in *.
  destruct (scanKeyLines_spec (fileLines f) [] ∅) as (_ & _ & new & Hnew & Hfresh).
  { intros key. cbn. split; [intros H; inversion H | intros H; exfalso; set_solver]. }
  { cbn. apply NoDup_nil_2. }
  cbn [app] in Hnew. fold ks0 in Hnew. rewrite <- Hnew in Hfresh. clear new Hnew.
  assert (Hlen01 : length ks0 = length (keys m1))
    by (rewrite <- (length_fmap Key ks0), <- Hnames, length_fmap; reflexivity).
  assert (Hlen12 : length (keys m1) = length (keys m2))
    by (eapply Forall2_length, Hsame).
  split.
  - unfold LoadKeysFromFile. fold ks0. rewrite Herr.
    rewrite bool_decide_eq_false_2 by (intros H; apply H; reflexivity).
    destruct (decide (length ks0 = 0)%nat) as [Hz | _].
    { exfalso. apply Hne. apply length_zero_iff_nil. lia. }
    cbn [loadStats saveStats mbind ending_bind].
    do 3 f_equal. apply mergeStats_restores.
    apply Forall2_same_length_lookup. split; [lia|].
    intros i a b Ha Hb.
    destruct (lookup_lt_is_Some_2 (keys m1) i) as [c Hc];
      [rewrite <- Hlen01; eapply lookup_lt_Some, Ha|].
    pose proof (Forall2_lookup_lr _ _ _ _ _ _ Hsame Hc Hb) as (Hk & Hm & He).
    assert (Hac : Key a = Key c).
    { apply (f_equal (fun l => l !! i)) in Hnames.
      rewrite !list_lookup_fmap, Ha, Hc in Hnames. cbn in Hnames. congruence. }
    destruct (proj1 (Forall_lookup _ _) Hfresh i a Ha) as (_ & Hamax & Haen).
    destruct (proj1 (Forall_lookup _ _) Hstd i c Hc) as ((Hcmax & Hcen) & _).
    split; [unfold sameKey; intuition congruence|].
    apply Hlook. eapply list_elem_of_lookup_2, Hb.
  - unfold LoadStatsIfExists. cbn [loadStats].
    replace (mergeStats stats (keys m2)) with (keys m2); [destruct m2; reflexivity|].
    symmetry. apply mergeStats_restores.
    apply Forall2_same_length_lookup. split; [reflexivity|].
    intros i a b Ha Hb. rewrite Ha in Hb. injection Hb as <-.
    split; [unfold sameKey; auto|]. apply Hlook. eapply list_elem_of_lookup_2, Ha.
Qed.

Lemma usage_survives_restart_witness :
  LoadKeysFromFile NewAPIKeyManager (Some keyFile) (Stats (Some savedCounts))
  = Returns (mkManager [mkKey "k1" 2 MaxQueriesPerKey true;
                        mkKey "k2" 1 MaxQueriesPerKey true] 0 0, Ret tt).
Proof.
  destruct (usage_survives_restart NewAPIKeyManager NewAPIKeyManager twoKeys keyFile
              NoStats 3 savedCounts) as [H _].
  - vm_compute. reflexivity.
  - vm_compute. reflexivity.
  - exact H.
Defined.

(** ** The key manager: the accounts *)

Lemma scanKeys_totals (n : nat) :
  forall (m : APIKeyManager) (start : nat),
    match (scanKeys m start n).2 with
    | Ret _ => totalUsed (scanKeys m start n).1 = wrap64 (totalUsed m + 1)
    | _ => keys (scanKeys m start n).1 = keys m
           /\ totalUsed (scanKeys m start n).1 = totalUsed m
    end.
Proof.
  induction n as [|n IH]; intros m start; cbn [scanKeys]; [cbn; auto|].
  destruct (keys m !! current m) as [keyInfo|]; [|cbn; auto].
  destruct (available keyInfo); [reflexivity|].
  cbn [current]. destruct (decide _); [cbn; auto|].
  apply (IH (mkManager (keys m) _ (totalUsed m))).
Qed.

Lemma GetNextKey_totals (m : APIKeyManager) :
  match (GetNextKey m).2 with
  | Ret _ => totalUsed (GetNextKey m).1 = wrap64 (totalUsed m + 1)
  | _ => keys (GetNextKey m).1 = keys m /\ totalUsed (GetNextKey m).1 = totalUsed m
  end.
Proof.
  unfold GetNextKey. destruct (decide _); [cbn; auto|].
  destruct (decide _); [|apply scanKeys_totals].
  destruct (keys m !! 0%nat) as [keyInfo|]; [|cbn; auto].
  destruct (available keyInfo); cbn; auto.
Qed.

Lemma sum_insert (l : list Z) :
  forall (i : nat) (x y : Z),
    l !! i = Some y -> foldr Z.add 0 (<[i := x]> l) = foldr Z.add 0 l + x - y.
Proof.
  induction l as [|a l IH]; intros i x y Hi; [inversion Hi|].
  destruct i as [|i]; simpl in *.
  - injection Hi as ->. lia.
  - rewrite (IH i x y Hi). lia.
Qed.

Lemma sumUsed_insert (ks : list APIKeyInfo) (i : nat) (keyInfo new : APIKeyInfo) :
  ks !! i = Some keyInfo ->
  foldr Z.add 0 (Used <$> <[i := new]> ks)
  = foldr Z.add 0 (Used <$> ks) + Used new - Used keyInfo.
Proof.
  intros Hi. rewrite list_fmap_insert. apply sum_insert.
  rewrite list_lookup_fmap, Hi. reflexivity.
Qed.

(** One call: the counters stay Go integers, no key goes beyond its
    limit, and both accounts grow by one exactly when a key is returned. *)
Lemma GetNextKey_accounts (m : APIKeyManager) :
  counters_in_range m -> within_limit m ->
  counters_in_range (GetNextKey m).1
  /\ within_limit (GetNextKey m).1
  /\ sumUsed (GetNextKey m).1 = sumUsed m + successes [(GetNextKey m).2]
  /\ totalUsed (GetNextKey m).1
     = match (GetNextKey m).2 with
       | Ret _ => wrap64 (totalUsed m + 1)
       | _ => totalUsed m
       end.
Proof.
  intros Hrange Hlimit.
  pose proof (GetNextKey_totals m) as Htotals.
  destruct (GetNextKey m) as [m' r] eqn:Hcall. cbn [fst snd] in *.
  destruct r as [key | e |].
  - destruct (GetNextKey_selected m m' key Hcall) as (i & keyInfo & Hi & _ & Havail & Hkeys).
    unfold counters_in_range, within_limit, sumUsed in *. rewrite Hkeys.
    destruct (proj1 (Forall_lookup _ _) Hrange i keyInfo Hi) as [Hu Hm].
    pose proof (proj1 (Forall_lookup _ _) Hlimit i keyInfo Hi) as Hw. cbn beta in Hw.
    destruct (spend_Used keyInfo Hu Hm Havail) as [Hspent Hle]. rewrite Hspent in Hle.
    split; [|split; [|split]].
    + apply Forall_insert; [exact Hrange|]. cbn [Used MaxLimit spend].
      split; [apply wrap64_range | exact Hm].
    + apply Forall_insert; [exact Hlimit|]. cbn beta. rewrite Hspent.
      change (MaxLimit (spend keyInfo)) with (MaxLimit keyInfo). lia.
    + rewrite (sumUsed_insert _ _ _ _ Hi), Hspent. cbn. lia.
    + exact Htotals.
  - destruct Htotals as [Hkeys Htotal].
    unfold counters_in_range, within_limit, sumUsed in *. rewrite Hkeys.
    split; [exact Hrange|]. split; [exact Hlimit|]. split; [cbn; lia | exact Htotal].
  - destruct Htotals as [Hkeys Htotal].
    unfold counters_in_range, within_limit, sumUsed in *. rewrite Hkeys.
    split; [exact Hrange|]. split; [exact Hlimit|]. split; [cbn; lia | exact Htotal].
Qed.

Lemma successes_bounds (rs : list (outcome string)) :
  0 <= successes rs <= Z.of_nat (length rs).
Proof.
  induction rs as [|r rs IH]; [cbn; lia|].
  unfold successes in *. cbn [foldr length]. destruct r; lia.
Qed.

Lemma GetNextKeys_length (n : nat) :
  forall m : APIKeyManager, length (GetNextKeys m n).2 = n.
Proof.
  induction n as [|n IH]; intros m; [reflexivity|].
  rewrite GetNextKeys_step. cbn [snd length]. now rewrite IH.
Qed.

Lemma GetNextKeys_accounts (n : nat) :
  forall m : APIKeyManager,
    counters_in_range m -> within_limit m ->
    0 <= totalUsed m -> totalUsed m + Z.of_nat n < 2 ^ 63 ->
    counters_in_range (GetNextKeys m n).1
    /\ within_limit (GetNextKeys m n).1
    /\ sumUsed (GetNextKeys m n).1 = sumUsed m + successes (GetNextKeys m n).2
    /\ totalUsed (GetNextKeys m n).1 = totalUsed m + successes (GetNextKeys m n).2.
Proof.
  induction n as [|n IH]; intros m Hrange Hlimit Hpos Hbound.
  - cbn. split; [exact Hrange|]. split; [exact Hlimit|]. lia.
  - rewrite GetNextKeys_step. cbn [fst snd].
    destruct (GetNextKey_accounts m Hrange Hlimit) as (Hrange1 & Hlimit1 & Hsum1 & Htotal1).
    assert (Htotal1' : totalUsed (GetNextKey m).1 = totalUsed m + successes [(GetNextKey m).2]).
    { rewrite Htotal1. destruct (GetNextKey m).2; cbn; try lia.
      rewrite wrap64_id; [lia | unfold int_range; lia]. }
    pose proof (successes_bounds [(GetNextKey m).2]) as Hone. cbn [length] in Hone.
    destruct (IH (GetNextKey m).1 Hrange1 Hlimit1) as (Hrange2 & Hlimit2 & Hsum2 & Htotal2);
      [lia | lia |].
    split; [exact Hrange2|]. split; [exact Hlimit2|].
    rewrite Hsum2, Htotal2, Hsum1, Htotal1'.
    change (successes ((GetNextKey m).2 :: (GetNextKeys (GetNextKey m).1 n).2))
      with (successes ([(GetNextKey m).2] ++ (GetNextKeys (GetNextKey m).1 n).2)).
    assert (Happ : forall l1 l2, successes (l1 ++ l2) = successes l1 + successes l2).
    { intros l1 l2. induction l1 as [|r l1 IHl]; [reflexivity|].
      cbn [app]. unfold successes in *. cbn [foldr]. rewrite IHl. destruct r; lia. }
    rewrite Happ. lia.
Qed.

Lemma GetKeyStatus_Forall (P : status.APIKeyStatus -> Prop) (m : APIKeyManager) :
  (forall i keyInfo,
     keys m !! i = Some keyInfo ->
     P (status.mkStatus (Key keyInfo) (Used keyInfo)
                        (wrap64 (MaxLimit keyInfo - Used keyInfo))
                        (MaxLimit keyInfo) (Enabled keyInfo)
                        (String.append "Key " (Int_String (Z.of_nat i + 1))))) ->
  Forall P (GetKeyStatus m).
Proof.
  intros H. unfold GetKeyStatus. apply Forall_lookup. intros i s Hs.
  rewrite list_lookup_imap in Hs.
  destruct (keys m !! i) as [keyInfo|] eqn:Hi; [|discriminate Hs].
  injection Hs as <-. apply H, Hi.
Qed.

(** X13.  The accounts of the key manager.  Along any sequence of
    GetNextKey calls on a manager whose counters are Go integers between 0
    and their limits, every key stays within its limit, so that
    GetKeyStatus reports a remaining quota that is never negative and adds
    up with the count to the limit; and the total GetTotalUsed reports and
    the sum of the counts both grow by the number of calls that returned a
    key. *)
Theorem GetNextKeys_accounting (m : APIKeyManager) (n : nat) :
  counters_in_range m -> within_limit m ->
  0 <= totalUsed m -> totalUsed m + Z.of_nat n < 2 ^ 63 ->
  let m' := (GetNextKeys m n).1 in
  let rs := (GetNextKeys m n).2 in
  GetTotalUsed m' = totalUsed m + successes rs
  /\ sumUsed m' = sumUsed m + successes rs
  /\ 0 <= successes rs <= Z.of_nat n
  /\ within_limit m'
  /\ Forall (fun s => 0 <= status.Remaining s
                      /\ status.Used s + status.Remaining s = status.MaxLimit s)
            (GetKeyStatus m').
Proof.
  intros Hrange Hlimit Hpos Hbound m' rs.
  destruct (GetNextKeys_accounts n m Hrange Hlimit Hpos Hbound)
    as (Hrange' & Hlimit' & Hsum & Htotal).
  split; [exact Htotal|]. split; [exact Hsum|].
  split; [pose proof (successes_bounds rs) as H; subst rs; now rewrite GetNextKeys_length in H|].
  split; [exact Hlimit'|].
  apply GetKeyStatus_Forall. intros i keyInfo Hi. cbn.
  destruct (proj1 (Forall_lookup _ _) Hrange' i keyInfo Hi) as [Hu Hm].
  pose proof (proj1 (Forall_lookup _ _) Hlimit' i keyInfo Hi) as Hw. cbn in Hw.
  unfold int_range in *. rewrite wrap64_id by (unfold int_range; lia). lia.
Qed.

Lemma GetNextKeys_accounting_witness :
  GetTotalUsed (GetNextKeys threeKeys 4).1 = 16
  /\ sumUsed (GetNextKeys threeKeys 4).1 = sumUsed threeKeys + 4.
Proof.
  destruct (GetNextKeys_accounting threeKeys 4) as (Htotal & Hsum & _).
  - unfold counters_in_range, int_range, threeKeys, MaxQueriesPerKey. cbn.
    repeat (constructor; [cbn; lia|]). constructor.
  - unfold within_limit, threeKeys, MaxQueriesPerKey. cbn.
    repeat (constructor; [cbn; lia|]). constructor.
  - cbn. lia.
  - cbn. lia.
  - split; [rewrite Htotal | rewrite Hsum]; vm_compute; reflexivity.
Defined.

(** ** The key manager: a full round *)

Lemma offset_inj (c n d1 d2 : nat) :
  (c < n)%nat -> (d1 < n)%nat -> (d2 < n)%nat ->
  ((c + d1) mod n = (c + d2) mod n)%nat -> d1 = d2.
Proof.
  intros Hc H1 H2.
  destruct (le_lt_dec n (c + d1)) as [Hge1 | Hlt1];
    destruct (le_lt_dec n (c + d2)) as [Hge2 | Hlt2];
    rewrite ?(mod_once (c + d1) n), ?(mod_once (c + d2) n),
            ?(Nat.mod_small (c + d1) n), ?(Nat.mod_small (c + d2) n) by lia;
    lia.
Qed.

Lemma offset_shift (c n d : nat) :
  (((c + 1) mod n + d) mod n = (c + (d + 1)) mod n)%nat.
Proof.
  rewrite Nat.Div0.add_mod_idemp_l. f_equal. lia.
Qed.

(** One call on a manager whose key under the cursor is available. *)
Lemma GetNextKey_under_cursor (m : APIKeyManager) (keyInfo : APIKeyInfo) :
  keys m !! current m = Some keyInfo -> available keyInfo = true ->
  GetNextKey m
  = (mkManager (<[current m := spend keyInfo]> (keys m))
               ((current m + 1) mod length (keys m)) (wrap64 (totalUsed m + 1)),
     Ret (Key keyInfo)).
Proof.
  intros Hcur Havail. unfold GetNextKey.
  pose proof (lookup_lt_Some _ _ _ Hcur) as Hlt.
  destruct (decide (length (keys m) = 0)%nat) as [Hz | _]; [lia|].
  destruct (decide (length (keys m) = 1)%nat) as [H1 | Hn1].
  - assert (Hc0 : current m = 0%nat) by lia. rewrite Hc0 in *.
    rewrite Hcur, Havail, H1. reflexivity.
  - destruct (length (keys m)) as [|n] eqn:Hlen; [lia|].
    cbn [scanKeys]. rewrite Hcur, Havail, Hlen. reflexivity.
Qed.

Lemma GetNextKeys_round (j : nat) :
  forall m : APIKeyManager,
    (j <= length (keys m))%nat -> (current m < length (keys m))%nat ->
    (forall d keyInfo, (d < j)%nat ->
       keys m !! ((current m + d) mod length (keys m))%nat = Some keyInfo ->
       available keyInfo = true) ->
    length (keys (GetNextKeys m j).1) = length (keys m)
    /\ current (GetNextKeys m j).1 = ((current m + j) mod length (keys m))%nat
    /\ length (GetNextKeys m j).2 = j
    /\ (forall d, (d < j)%nat ->
          (GetNextKeys m j).2 !! d
          = (fun keyInfo => Ret (Key keyInfo))
              <$> keys m !! ((current m + d) mod length (keys m))%nat
          /\ keys (GetNextKeys m j).1 !! ((current m + d) mod length (keys m))%nat
             = spend <$> keys m !! ((current m + d) mod length (keys m))%nat)
    /\ (forall d, (j <= d < length (keys m))%nat ->
          keys (GetNextKeys m j).1 !! ((current m + d) mod length (keys m))%nat
          = keys m !! ((current m + d) mod length (keys m))%nat).
Proof.
  induction j as [|j IH]; intros m Hj Hcur Havail.
  - cbn. rewrite Nat.add_0_r, Nat.mod_small by exact Hcur.
    split; [reflexivity|]. split; [reflexivity|]. split; [reflexivity|].
    split; [intros d Hd; lia | auto].
  - set (n := length (keys m)) in *.
    destruct (lookup_lt_is_Some_2 (keys m) (current m) Hcur) as [k0 Hk0].
    assert (Hav0 : available k0 = true).
    { apply (Havail 0%nat); [lia|]. rewrite Nat.add_0_r, Nat.mod_small by exact Hcur. exact Hk0. }
    rewrite GetNextKeys_step, (GetNextKey_under_cursor m k0 Hk0 Hav0). cbn [fst snd]. fold n.
    set (m1 := mkManager (<[current m := spend k0]> (keys m)) ((current m + 1) mod n)
                         (wrap64 (totalUsed m + 1))).
    assert (Hlen1 : length (keys m1) = n) by (cbn; apply length_insert).
    assert (Hpos : (0 < n)%nat) by lia.
    assert (Hself : ((current m + 0) mod n)%nat = current m)
      by (rewrite Nat.add_0_r; apply Nat.mod_small, Hcur).
    assert (Hother : forall d, (0 < d < n)%nat ->
              keys m1 !! ((current m + d) mod n)%nat = keys m !! ((current m + d) mod n)%nat).
    { intros d Hd. cbn. apply list_lookup_insert_ne. intros Heq.
      rewrite <- Hself in Heq at 1. apply offset_inj in Heq; lia. }
    destruct (IH m1) as (Hlen & Hcursor & Hrs & Hdone & Hrest).
    { rewrite Hlen1. lia. }
    { rewrite Hlen1. cbn. apply Nat.mod_upper_bound. lia. }
    { intros d keyInfo Hd. rewrite Hlen1.
      change (current m1) with ((current m + 1) mod n)%nat.
      rewrite offset_shift, Hother by lia. apply Havail. lia. }
    rewrite Hlen1 in *. change (current m1) with ((current m + 1) mod n)%nat in *.
    split; [exact Hlen|]. split.
    { rewrite Hcursor, Nat.Div0.add_mod_idemp_l. f_equal. lia. }
    split; [cbn [length]; now rewrite Hrs|]. split.
    + intros d Hd. destruct d as [|d].
      * rewrite Hself, Hk0. split; [reflexivity|].
        assert (Hback : (((current m + 1) mod n + (n - 1)) mod n)%nat = current m).
        { rewrite offset_shift. replace (current m + (n - 1 + 1))%nat
            with (current m + 1 * n)%nat by lia.
          rewrite Nat.Div0.mod_add. apply Nat.mod_small, Hcur. }
        specialize (Hrest (n - 1)%nat ltac:(lia)). rewrite Hback in Hrest.
        rewrite Hrest. cbn. apply list_lookup_insert_eq. exact Hcur.
      * destruct (Hdone d) as [Hres Hspent]; [lia|].
        rewrite offset_shift in Hres, Hspent.
        replace (d + 1)%nat with (S d) in Hres, Hspent by lia.
        rewrite Hother in Hres, Hspent by lia.
        split; [exact Hres | exact Hspent].
    + intros d Hd. rewrite <- Hother by lia.
      specialize (Hrest (d - 1)%nat). rewrite offset_shift in Hrest.
      replace (d - 1 + 1)%nat with d in Hrest by lia. apply Hrest. lia.
Qed.

Lemma offset_surj (c n i : nat) :
  (c < n)%nat -> (i < n)%nat -> exists d, (d < n)%nat /\ ((c + d) mod n)%nat = i.
Proof.
  intros Hc Hi. destruct (le_lt_dec c i) as [Hle | Hgt].
  - exists (i - c)%nat. split; [lia|]. rewrite Nat.mod_small; lia.
  - exists (i + n - c)%nat. split; [lia|]. rewrite mod_once; lia.
Qed.

(** X14.  A full round.  On a manager whose keys all have quota left, as
    many GetNextKey calls as there are keys return every key once, in the
    order of the list starting from the cursor and wrapping around; each
    key is charged once and the cursor ends where it started. *)
Theorem GetNextKey_round_robin (m : APIKeyManager) :
  (current m < length (keys m))%nat ->
  Forall (fun keyInfo => available keyInfo = true) (keys m) ->
  (GetNextKeys m (length (keys m))).2
  = (fun keyInfo => Ret (Key keyInfo)) <$> rotate (current m) (keys m)
  /\ keys (GetNextKeys m (length (keys m))).1 = spend <$> keys m
  /\ current (GetNextKeys m (length (keys m))).1 = current m.
Proof.
  intros Hcur Havail.
  destruct (GetNextKeys_round (length (keys m)) m) as (Hlen & Hcursor & Hrs & Hdone & _).
  { lia. }
  { exact Hcur. }
  { intros d keyInfo _ Hk. eapply (proj1 (Forall_lookup _ _) Havail), Hk. }
  set (n := length (keys m)) in *.
  split; [|split].
  - apply list_eq. intros d. destruct (decide (d < n)%nat) as [Hd | Hd].
    + destruct (Hdone d Hd) as [-> _].
      rewrite list_lookup_fmap, lookup_rotate_r by exact Hd. fold n.
      unfold rotate_nat_add.
      rewrite <- Nat2Z.inj_add, <- Nat2Z.inj_mod, Nat2Z.id. reflexivity.
    + rewrite !lookup_ge_None_2; [reflexivity | |].
      * rewrite length_fmap, length_rotate. fold n. lia.
      * rewrite Hrs. lia.
  - apply list_eq. intros i. destruct (decide (i < n)%nat) as [Hi | Hi].
    + destruct (offset_surj (current m) n i Hcur Hi) as (d & Hd & <-).
      destruct (Hdone d Hd) as [_ ->]. now rewrite list_lookup_fmap.
    + rewrite !lookup_ge_None_2; [reflexivity | |].
      * rewrite length_fmap. fold n. lia.
      * rewrite Hlen. lia.
  - rewrite Hcursor. replace (current m + n)%nat with (current m + 1 * n)%nat by lia.
    rewrite Nat.Div0.mod_add. apply Nat.mod_small, Hcur.
Qed.

Lemma GetNextKey_round_robin_witness :
  (GetNextKeys threeAvailable 3).2 = [Ret "k2"; Ret "k3"; Ret "k1"]
  /\ keys (GetNextKeys threeAvailable 3).1
     = [mkKey "k1" 6 MaxQueriesPerKey true; mkKey "k2" 1 MaxQueriesPerKey true;
        mkKey "k3" 8 MaxQueriesPerKey true]
  /\ current (GetNextKeys threeAvailable 3).1 = 1%nat.
Proof.
  destruct (GetNextKey_round_robin threeAvailable) as (Hrs & Hkeys & Hcur).
  - cbn. lia.
  - repeat (constructor; [reflexivity|]). constructor.
  - split; [|split].
    + exact Hrs.
    + exact Hkeys.
    + exact Hcur.
Defined.

(** ** query.go: more on the worker pool *)

Section PoolProgress.

Variable addresses : list string.

Lemma complete_shape (s s' : state) (km : APIKeyManager) (w i : nat) (r : QueryResult) :
  complete s km w i r = Some s' ->
  ctxDone s' = ctxDone s /\ next s' = next s /\ closed s' = closed s
  /\ workers s' = <[w := Idle]> (workers s) /\ keyManager s' = km.
Proof.
  unfold complete. destruct (decide _); [|discriminate].
  intros [= <-]. cbn. auto.
Qed.

(** What a move does to the sender's flags and to the worker list. *)
Lemma fire_sender (l : label) (s s' : state) :
  Inv addresses s -> fire addresses l s = Some s' ->
  senderDone addresses s -> exitedAfterClose s ->
  senderDone addresses s' /\ exitedAfterClose s'
  /\ length (workers s') = length (workers s).
Proof.
  intros HInv Hfire Hsender Hexit. unfold senderDone, exitedAfterClose in *.
  assert (Hkeep : forall w x,
            x <> Exited -> closed s' = closed s -> ctxDone s' = ctxDone s ->
            next s' = next s -> workers s' = <[w := x]> (workers s) ->
            (closed s' = true -> ctxDone s' = true \/ next s' = length addresses)
            /\ (forall w', workers s' !! w' = Some Exited -> closed s' = true)
            /\ length (workers s') = length (workers s)).
  { intros w x Hx Hc Hd Hn Hw. rewrite Hc, Hd, Hn, Hw. split; [exact Hsender|].
    split; [|apply length_insert].
    intros w' Hw'. destruct (decide (w' = w)) as [-> | Hne].
    - apply list_lookup_insert_Some in Hw' as [(_ & Heq & _) | (Hne & _)]; congruence.
    - rewrite list_lookup_insert_ne in Hw' by congruence. eapply Hexit, Hw'. }
  destruct l as [| w | | | w | w balance err | w]; cbn [fire] in Hfire.
  - destruct (ctxDone s); [discriminate|]. injection Hfire as <-. cbn. auto.
  - destruct (workers s !! w) as [[| | |]|]; try discriminate.
    destruct (negb (closed s)) eqn:Hclosed; [|discriminate].
    destruct (bool_decide _); [|discriminate]. cbn in Hfire. injection Hfire as <-. cbn.
    apply negb_true_iff in Hclosed.
    split; [intros H; congruence|]. split; [|apply length_insert].
    intros w' Hw'. destruct (decide (w' = w)) as [-> | Hne].
    + apply list_lookup_insert_Some in Hw' as [(_ & Heq & _) | (Hne & _)]; congruence.
    + rewrite list_lookup_insert_ne in Hw' by congruence.
      pose proof (Hexit w' Hw'). congruence.
  - destruct (negb (closed s)); [|discriminate].
    destruct (bool_decide _); [|discriminate].
    destruct (ctxDone s) eqn:Hdone; [|discriminate]. cbn in Hfire. injection Hfire as <-. cbn.
    auto.
  - destruct (negb (closed s)); [|discriminate].
    destruct (bool_decide (length addresses <= next s)%nat) eqn:Hend; [|discriminate].
    cbn in Hfire. injection Hfire as <-. cbn.
    apply bool_decide_eq_true_1 in Hend. pose proof (inv_next s HInv).
    split; [intros _; right; lia | auto].
  - destruct (workers s !! w) as [[|i| |]|]; try discriminate.
    destruct (addresses !! i) as [addr|]; [|discriminate]. cbn in Hfire.
    destruct (ctxDone s) eqn:Hdone.
    + apply complete_shape in Hfire as (Hd & Hn & Hc & Hw & _).
      apply (Hkeep w Idle); try assumption; try congruence.
    + destruct (GetNextKey (keyManager s)) as [km [apiKey | e |]]; [| |discriminate].
      * injection Hfire as <-.
        apply (Hkeep w (Querying i apiKey)); try reflexivity; try exact Hdone.
        discriminate.
      * apply complete_shape in Hfire as (Hd & Hn & Hc & Hw & _).
        apply (Hkeep w Idle); try assumption; try congruence.
  - destruct (workers s !! w) as [[| |i apiKey|]|]; try discriminate.
    destruct (addresses !! i) as [addr|]; [|discriminate]. cbn in Hfire.
    destruct err as [e|]; apply complete_shape in Hfire as (Hd & Hn & Hc & Hw & _);
      apply (Hkeep w Idle); try assumption; try congruence.
  - destruct (workers s !! w) as [[| | |]|]; try discriminate.
    destruct (closed s) eqn:Hclosed; [|discriminate]. injection Hfire as <-. cbn.
    rewrite Hclosed. split; [exact Hsender|]. split; [auto | apply length_insert].
Qed.

Lemma exec_sender (trace : list label) :
  forall s s',
    Inv addresses s -> exec addresses trace s = Some s' ->
    senderDone addresses s -> exitedAfterClose s ->
    senderDone addresses s' /\ exitedAfterClose s'
    /\ length (workers s') = length (workers s).
Proof.
  induction trace as [|l trace IH]; intros s s' HInv Hexec Hsender Hexit.
  - injection Hexec as <-. auto.
  - cbn in Hexec. destruct (fire addresses l s) as [s1|] eqn:Hfire; [|discriminate].
    cbn in Hexec.
    destruct (fire_sender l s s1 HInv Hfire Hsender Hexit) as (Hs1 & He1 & Hl1).
    destruct (IH s1 s' (Inv_fire addresses l s s1 HInv Hfire) Hexec Hs1 He1)
      as (Hs' & He' & Hl').
    split; [exact Hs'|]. split; [exact He' | congruence].
Qed.







End PoolProgress.

Lemma filter_none {A} (P : A -> Prop) `{forall x, Decision (P x)} (l : list A) :
  Forall (fun x => ~ P x) l -> filter P l = [].
Proof.
  induction 1 as [|x l Hx _ IH]; [reflexivity|].
  rewrite filter_cons, decide_False by exact Hx. exact IH.
Qed.

Lemma returned_Exited (s : state) (w : nat) (x : worker) :
  returned s = true -> workers s !! w = Some x -> x = Exited.
Proof.
  unfold returned. intros Hall Hw.
  apply forallb_forall with (x := x) in Hall.
  - destruct x; [discriminate | discriminate | discriminate | reflexivity].
  - apply list_elem_of_In. eapply list_elem_of_lookup_2, Hw.
Qed.

Lemma Started_sender (km : APIKeyManager) (maxConcurrent : Z) (addresses : list string)
    (s0 : state) :
  QueryAddresses km maxConcurrent addresses = Started s0 ->
  senderDone addresses s0 /\ exitedAfterClose s0
  /\ length (workers s0) = Z.to_nat maxConcurrent
  /\ completedCount s0 = Z.of_nat (finished (results s0)).
Proof.
  unfold QueryAddresses. destruct (decide _); [discriminate|]. intros [= <-].
  unfold senderDone, exitedAfterClose. cbn.
  split; [discriminate|]. split.
  - intros w Hw. apply lookup_replicate in Hw as [[=] _].
  - split; [apply length_replicate|].
    unfold finished. replace (filter _ (pendingResult <$> addresses)) with (@nil QueryResult);
      [reflexivity|].
    induction addresses as [|a l IH]; [reflexivity|].
    rewrite fmap_cons, filter_cons. rewrite decide_False by (cbn; tauto). exact IH.
Qed.

(** X15.  A run that is not cancelled handles every address.  With at
    least one worker, when QueryAddresses returns and the context was never
    cancelled, the sender has handed out all the addresses and every
    address has a result with status success or error (none is pending or
    cancelled), so that the two counts of GetStats add up to the total. *)
Theorem QueryAddresses_complete (km : APIKeyManager) (maxConcurrent : Z) (addresses : list string)
    (s0 : state) (trace : list label) (s : state) :
  QueryAddresses km maxConcurrent addresses = Started s0 -> cursor_in_range km ->
  1 <= maxConcurrent ->
  exec addresses trace s0 = Some s -> returned s = true -> ctxDone s = false ->
  next s = length addresses
  /\ (forall i a, addresses !! i = Some a ->
        exists r, results s !! i = Some r /\ Address r = a
                  /\ (Status r = "success" \/ Status r = "error"))
  /\ exists success failed,
       GetStats (results s) = (Z.of_nat (length addresses), success, failed)
       /\ success + failed = Z.of_nat (length addresses).
Proof.
  intros Hstart Hkm Hworkers Hexec Hret Hdone.
  destruct (Inv_started km maxConcurrent addresses s0 Hstart Hkm) as [HInv0 _].
  destruct (Started_sender km maxConcurrent addresses s0 Hstart) as (Hs0 & He0 & Hl0 & _).
  pose proof (Inv_exec addresses trace s0 s HInv0 Hexec) as HInv.
  destruct (exec_sender addresses trace s0 s HInv0 Hexec Hs0 He0) as (Hsender & Hexited & Hlen).
  assert (Hnext : next s = length addresses).
  { destruct (lookup_lt_is_Some_2 (workers s) 0%nat) as [x Hx]; [lia|].
    pose proof (returned_Exited s 0%nat x Hret Hx) as ->.
    destruct (Hsender (Hexited 0%nat Hx)) as [Hc | Hn]; [congruence | exact Hn]. }
  assert (Hall : forall i a, addresses !! i = Some a ->
            exists r, results s !! i = Some r /\ Address r = a
                      /\ (Status r = "success" \/ Status r = "error")).
  { intros i a Ha.
    destruct (returned_results addresses s i a HInv Hret Ha) as [Hdone' _].
    destruct Hdone' as (r & Hr & Hterm & Haddr).
    { rewrite Hnext. eapply lookup_lt_Some, Ha. }
    exists r. split; [exact Hr|]. split; [exact Haddr|].
    destruct Hterm as [H | [H | H]]; [auto | auto |].
    exfalso. exact (inv_fresh s HInv Hdone i r Hr H). }
  split; [exact Hnext|]. split; [exact Hall|].
  exists (withStatus "success" (results s)), (withStatus "error" (results s)).
  unfold GetStats. rewrite countResult_foldl, (inv_length s HInv). split; [reflexivity|].
  pose proof (status_partition (results s)) as Hsum. rewrite (inv_length s HInv) in Hsum.
  assert (Hnone : otherStatus (results s) = 0); [|lia].
  unfold otherStatus.
  rewrite filter_none; [reflexivity|].
  apply Forall_lookup. intros i r Hr.
  destruct (lookup_lt_is_Some_2 addresses i) as [a Ha];
    [rewrite <- (inv_length s HInv); eapply lookup_lt_Some, Hr|].
  destruct (Hall i a Ha) as (r' & Hr' & _ & Hstatus).
  rewrite Hr in Hr'. injection Hr' as <-. tauto.
Qed.

Lemma QueryAddresses_complete_witness :
  exists s0 s,
    QueryAddresses oneKey 1 twoAddresses = Started s0
    /\ exec twoAddresses bothQueried s0 = Some s
    /\ Status <$> results s = ["success"; "error"]
    /\ exists success failed,
         GetStats (results s) = (2, success, failed) /\ success + failed = 2.
Proof.
  eexists. eexists.
  split; [reflexivity|]. split; [vm_compute; reflexivity|]. split; [reflexivity|].
  match goal with
  | |- context [GetStats (results ?s)] =>
      destruct (QueryAddresses_complete oneKey 1 twoAddresses _ bothQueried s eq_refl)
        as (_ & _ & Hstats)
  end.
  - left. cbn. lia.
  - lia.
  - vm_compute. reflexivity.
  - reflexivity.
  - reflexivity.
  - exact Hstats.
Defined.





(** ** Exporting the results of a run *)

Lemma writeRecords_all (results : list QueryResult) :
  forall (k : nat) (written : list (list string)),
    writeRecords (fun _ => None) k results written
    = (written ++ (exportRecord <$> results), Ret tt).
Proof.
  induction results as [|r results IH]; intros k written; cbn [writeRecords].
  - rewrite app_nil_r. reflexivity.
  - rewrite IH, <- app_assoc. reflexivity.
Qed.

Lemma exportRecord_status (r : QueryResult) :
  exists balance status,
    exportRecord r = [Address r; balance; status; Error r]
    /\ (Balance r = "" -> balance = "0.000000")
    /\ (Balance r <> "" -> balance = Balance r)
    /\ (Status r = "error" -> status = "失败")
    /\ (Status r = "cancelled" -> status = "已取消")
    /\ (Status r <> "error" -> Status r <> "cancelled" -> status = "成功").
Proof.
  unfold exportRecord. eexists _, _. split; [reflexivity|].
  destruct (String.eqb_spec (Balance r) "") as [Hb | Hb];
    destruct (String.eqb_spec (Status r) "error") as [He | He];
    destruct (String.eqb_spec (Status r) "cancelled") as [Hc | Hc];
    repeat split; intros; try reflexivity; try congruence.
Qed.

(** X18.  What ExportToCSV writes for a run, when the file can be written:
    the header and one record per submitted address, in order, with the
    label for failed only on status error and the label for cancelled only
    on status cancelled; every other status is exported with the label for
    success, and an empty balance as 0.000000.  In particular an address
    that was still pending when the run was cancelled is exported as a
    success with balance 0.000000. *)
Theorem ExportToCSV_of_run (km : APIKeyManager) (maxConcurrent : Z) (addresses : list string)
    (s0 : state) (trace : list label) (s : state) :
  QueryAddresses km maxConcurrent addresses = Started s0 -> cursor_in_range km ->
  exec addresses trace s0 = Some s ->
  exists rows,
    ExportToCSV (results s) None (fun _ => None) = (exportHeader :: rows, Ret tt)
    /\ length rows = length addresses
    /\ (forall i r, results s !! i = Some r ->
          exists balance status,
            rows !! i = Some [Address r; balance; status; Error r]
            /\ (Balance r = "" -> balance = "0.000000")
            /\ (Balance r <> "" -> balance = Balance r)
            /\ (Status r = "error" -> status = "失败")
            /\ (Status r = "cancelled" -> status = "已取消")
            /\ (Status r <> "error" -> Status r <> "cancelled" -> status = "成功"))
    /\ (forall i a, addresses !! i = Some a -> (next s <= i)%nat ->
          rows !! i = Some [a; "0.000000"; "成功"; ""]).
Proof.
  intros Hstart Hkm Hexec.
  destruct (Inv_started km maxConcurrent addresses s0 Hstart Hkm) as [HInv0 _].
  pose proof (Inv_exec addresses trace s0 s HInv0 Hexec) as HInv.
  exists (exportRecord <$> results s).
  split; [unfold ExportToCSV; rewrite writeRecords_all; reflexivity|].
  split; [rewrite length_fmap; apply (inv_length s HInv)|]. split.
  - intros i r Hr. destruct (exportRecord_status r) as (balance & status & Heq & H).
    exists balance, status. split; [|exact H].
    rewrite list_lookup_fmap, Hr. cbn. now rewrite Heq.
  - intros i a Ha Hi. rewrite list_lookup_fmap, (inv_rest s HInv i a Ha Hi). reflexivity.
Qed.

(** The batch cancelled after its first address, as exported. *)
Lemma ExportToCSV_of_run_witness :
  exists s0 s,
    QueryAddresses oneKey 1 fiveAddresses = Started s0
    /\ exec fiveAddresses (firstThenCancel ++ [Stop; Exit 0]) s0 = Some s
    /\ returned s = true
    /\ ExportToCSV (results s) None (fun _ => None)
       = ([exportHeader;
           ["addr1"; "1.5"; "成功"; ""];
           ["addr2"; "0.000000"; "成功"; ""];
           ["addr3"; "0.000000"; "成功"; ""];
           ["addr4"; "0.000000"; "成功"; ""];
           ["addr5"; "0.000000"; "成功"; ""]], Ret tt).
Proof.
  eexists. eexists.
  split; [reflexivity|]. split; [vm_compute; reflexivity|]. split; [reflexivity|].
  match goal with
  | |- ExportToCSV (results ?s) _ _ = _ =>
      destruct (ExportToCSV_of_run oneKey 1 fiveAddresses _
                  (firstThenCancel ++ [Stop; Exit 0]) s eq_refl)
        as (rows & Hexport & _)
  end.
  - left. cbn. lia.
  - vm_compute. reflexivity.
  - rewrite Hexport. f_equal. injection Hexport as <-. reflexivity.
Defined.

(** ** Loading addresses *)

Lemma forEach_app {A S : Type} (body : A -> S -> outcome S) (l1 l2 : list A) (s : S) :
  forEach body (l1 ++ l2) s = (s' ← forEach body l1 s; forEach body l2 s').
Proof.
  revert s. induction l1 as [|a l1 IH]; intros s; [reflexivity|].
  cbn [app forEach]. unfold mbind, outcome_bind, obind in *.
  destruct (body a s) as [s1 | e |]; [apply IH | reflexivity | reflexivity].
Qed.

Lemma bind_Ret {A B : Type} (a : A) (k : A -> outcome B) : (Ret a ≫= k) = k a.
Proof. reflexivity. Qed.

Section Loading.

Variable Decode : string -> list Z.
Variable Sum256 : list Z -> list Z.
Hypothesis Sum256_length : forall data, length (Sum256 data) = 32%nat.

Local Abbreviation accepts := (accepted Decode Sum256).
Local Abbreviation keptOf := (keptFrom Decode Sum256).

Lemma ValidateAddress_total (a : string) :
  exists b, ValidateAddress Decode Sum256 a = Ret b.
Proof. rewrite (ValidateAddress_unfold Decode Sum256 Sum256_length). eauto. Qed.

Lemma validNoError_agrees (a : string) :
  validNoError Decode Sum256 a = ValidateAddress Decode Sum256 a.
Proof.
  unfold validNoError.
  destruct (ValidateAddressWithError_cases Decode Sum256 Sum256_length a)
    as [(_ & -> & ->) | [(_ & -> & ->) | (_ & -> & ->)]]; reflexivity.
Qed.

Lemma keep_step (valid : string -> outcome bool) (addr : string) (tested : list string)
    (acc : kept) :
  (forall a, valid a = ValidateAddress Decode Sum256 a) ->
  keptOf tested acc ->
  exists acc', keep valid addr acc = Ret acc' /\ keptOf (tested ++ [addr]) acc'.
Proof.
  intros Hvalid (Hnd & Hseen & Hkept). unfold keep.
  assert (Hsame : (addr ∈ tested /\ accepts addr) \/ ~ accepts addr ->
            keptOf (tested ++ [addr]) acc).
  { intros Hcase. split; [exact Hnd|]. split; [exact Hseen|].
    intros a. rewrite Hkept, elem_of_app, list_elem_of_singleton. split; [tauto|].
    intros [[Hin | ->] Hacc]; [tauto|]. destruct Hcase as [[Hin _] | Hno]; tauto. }
  destruct (String.eqb_spec addr "") as [Hempty | Hne]; cbn [negb andb].
  { exists acc. split; [reflexivity|]. apply Hsame. right. intros [H _]. exact (H Hempty). }
  destruct (bool_decide (addr ∈ acc.2)) eqn:Hdup; cbn [negb].
  { apply bool_decide_eq_true_1 in Hdup. exists acc. split; [reflexivity|].
    apply Hsame. left. apply Hkept, Hseen, Hdup. }
  apply bool_decide_eq_false_1 in Hdup.
  rewrite Hvalid. destruct (ValidateAddress_total addr) as [[|] Hok]; rewrite Hok; cbn.
  - eexists. split; [reflexivity|]. unfold keptFrom. cbn [fst snd]. split; [|split].
    + apply NoDup_app. split; [exact Hnd|]. split; [|apply NoDup_singleton].
      intros a Hin Hin'. apply list_elem_of_singleton in Hin'. subst a.
      apply Hdup, Hseen, Hin.
    + intros a. rewrite elem_of_union, elem_of_singleton, elem_of_app,
        list_elem_of_singleton, Hseen. tauto.
    + intros a. rewrite !elem_of_app, !list_elem_of_singleton, Hkept. split.
      * intros [[Hin Hacc] | ->]; [tauto|]. split; [auto|]. split; assumption.
      * intros [[Hin | ->] Hacc]; tauto.
  - exists acc. split; [reflexivity|]. apply Hsame. right. intros [_ H]. congruence.
Qed.

Lemma forEach_tested {A : Type} (body : A -> kept -> outcome kept) (tests : A -> list string) :
  (forall x tested acc,
     keptOf tested acc ->
     exists acc', body x acc = Ret acc' /\ keptOf (tested ++ tests x) acc') ->
  forall l tested acc,
    keptOf tested acc ->
    exists acc', forEach body l acc = Ret acc' /\ keptOf (tested ++ flat_map tests l) acc'.
Proof.
  intros Hbody. induction l as [|x l IH]; intros tested acc Hacc; cbn [forEach flat_map].
  - exists acc. rewrite app_nil_r. auto.
  - destruct (Hbody x tested acc Hacc) as (acc1 & -> & Hacc1).
    destruct (IH _ _ Hacc1) as (acc' & Hrun & Hacc'). cbn.
    exists acc'. split; [exact Hrun|]. now rewrite app_assoc.
Qed.

Lemma forEach_keep (valid : string -> outcome bool) (parts : list string)
    (tested : list string) (acc : kept) :
  (forall a, valid a = ValidateAddress Decode Sum256 a) ->
  keptOf tested acc ->
  exists acc',
    forEach (fun part acc => keep valid (TrimSpace part) acc) parts acc = Ret acc'
    /\ keptOf (tested ++ (TrimSpace <$> parts)) acc'.
Proof.
  intros Hvalid Hacc.
  destruct (forEach_tested (fun part acc => keep valid (TrimSpace part) acc)
              (fun part => [TrimSpace part])
              (fun x tested acc H => keep_step valid (TrimSpace x) tested acc Hvalid H)
              parts tested acc Hacc) as (acc' & Hrun & Hacc').
  exists acc'. split; [exact Hrun|].
  replace (TrimSpace <$> parts) with (flat_map (fun part => [TrimSpace part]) parts);
    [exact Hacc'|].
  clear. induction parts as [|p parts IH]; [reflexivity|]. cbn. now rewrite IH.
Qed.

Lemma keptFrom_start : keptOf [] (([], ∅) : kept).
Proof.
  split; [apply NoDup_nil_2|]. split.
  - intros a. cbn. split; [intros H; exfalso; set_solver | intros H; inversion H].
  - intros a. cbn. split; [intros H; inversion H | intros [H _]; inversion H].
Qed.

Lemma keptFrom_result (tested : list string) (acc : kept) :
  keptOf tested acc ->
  (if decide (length acc.1 = 0)%nat then forall a, a ∈ tested -> ~ accepts a
   else acc.1 <> [] /\ NoDup acc.1
        /\ (forall a, a ∈ acc.1 <-> a ∈ tested /\ accepts a)).
Proof.
  intros (Hnd & _ & Hkept). destruct (decide _) as [Hz | Hnz].
  - intros a Hin Hacc. apply length_zero_iff_nil in Hz.
    assert (Ha : a ∈ acc.1) by (apply Hkept; auto). rewrite Hz in Ha. inversion Ha.
  - split; [intros Hnil; rewrite Hnil in Hnz; apply Hnz; reflexivity|]. auto.
Qed.

Lemma LoadAddressesFromText_cases (text : string) :
  (LoadAddressesFromText Decode Sum256 text = Fail noAddressInText
   /\ forall a, a ∈ textCandidates text -> ~ accepts a)
  \/ exists addresses,
       LoadAddressesFromText Decode Sum256 text = Ret addresses
       /\ addresses <> [] /\ NoDup addresses
       /\ (forall a, a ∈ addresses <-> a ∈ textCandidates text /\ accepts a).
Proof.
  unfold LoadAddressesFromText.
  destruct (forEach_tested
              (fun line acc =>
                 let line := TrimSpace line in
                 if String.eqb line "" then Ret acc
                 else forEach (fun part acc => keep (validNoError Decode Sum256)
                                                    (TrimSpace part) acc)
                              (foldl splitParts [line] separators) acc)
              (fun line => if String.eqb (TrimSpace line) "" then []
                           else TrimSpace <$> foldl splitParts [TrimSpace line] separators))
    with (l := Split text newline) (tested := @nil string) (acc := (([], ∅) : kept))
    as (acc & Hrun & Hacc).
  { intros line tested acc Hacc. cbn zeta.
    destruct (String.eqb (TrimSpace line) "").
    - exists acc. rewrite app_nil_r. auto.
    - apply forEach_keep; [apply validNoError_agrees | exact Hacc]. }
  { apply keptFrom_start. }
  cbn [app] in Hacc. fold (textCandidates text) in Hacc.
  cbn zeta in Hrun. unfold mbind, outcome_bind, obind. rewrite Hrun.
  pose proof (keptFrom_result _ _ Hacc) as Hres.
  destruct (decide (length acc.1 = 0)%nat); [left; auto | right; eauto].
Qed.

Lemma LoadAddressesFromFile_cases (f : inputFile) (filepath : string) :
  ((String.length filepath < 4)%nat
   /\ LoadAddressesFromFile Decode Sum256 (Opened f) filepath = Panic)
  \/ ((4 <= String.length filepath)%nat
      /\ ((exists err,
             isCSV filepath = true /\ asCSV f = CSVError err
             /\ LoadAddressesFromFile Decode Sum256 (Opened f) filepath
                = Fail (String.append "读取 CSV 失败: " err))
          \/ (exists err,
                isCSV filepath = false /\ scanErr (asText f) = Some err
                /\ LoadAddressesFromFile Decode Sum256 (Opened f) filepath
                   = Fail (String.append "读取文件失败: " err))
          \/ (LoadAddressesFromFile Decode Sum256 (Opened f) filepath = Fail noAddressInFile
              /\ forall a, a ∈ fileCandidates f filepath -> ~ accepts a)
          \/ exists addresses,
               LoadAddressesFromFile Decode Sum256 (Opened f) filepath = Ret addresses
               /\ addresses <> [] /\ NoDup addresses
               /\ (forall a, a ∈ addresses <-> a ∈ fileCandidates f filepath /\ accepts a))).
Proof.
  destruct (le_lt_dec 4 (String.length filepath)) as [Hlong | Hshort].
  2: { left. split; [exact Hshort|]. unfold LoadAddressesFromFile, string_from.
       destruct (decide _) as [Hin | _]; [lia | reflexivity]. }
  right. split; [exact Hlong|].
  assert (Hsuffix : string_from filepath (Z.of_nat (String.length filepath) - 4)
                    = Ret (String.substring (String.length filepath - 4) 4 filepath)).
  { unfold string_from. destruct (decide _) as [_ | Hout]; [|lia].
    do 2 f_equal; lia. }
  unfold LoadAddressesFromFile. rewrite Hsuffix.
  rewrite !bind_Ret. cbv beta zeta.
  unfold fileCandidates, isCSV.
  destruct (String.eqb (ToLower (String.substring (String.length filepath - 4) 4 filepath))
                       ".csv").
  - destruct (asCSV f) as [err | records].
    { left. exists err. auto. }
    right. right.
    destruct (forEach_tested
                (fun record acc =>
                   forEach (fun field acc => keep (ValidateAddress Decode Sum256)
                                                  (TrimSpace field) acc) record acc)
                (fun record => TrimSpace <$> record))
      with (l := records) (tested := @nil string) (acc := (([], ∅) : kept))
      as (acc & Hrun & Hacc).
    { intros record tested acc Hacc. apply forEach_keep; [reflexivity | exact Hacc]. }
    { apply keptFrom_start. }
    cbn [app] in Hacc. unfold mbind, outcome_bind, obind. rewrite Hrun.
    pose proof (keptFrom_result _ _ Hacc) as Hres.
    destruct (decide (length acc.1 = 0)%nat); [left; auto | right; eauto].
  - unfold mbind, outcome_bind, obind. cbv beta zeta.
    match goal with
    | |- context [forEach ?body (fileLines (asText f)) ?init] =>
        destruct (forEach_tested body lineCandidates)
          with (l := fileLines (asText f)) (tested := @nil string) (acc := init)
          as (acc & Hrun & Hacc)
    end.
    { intros text tested acc Hacc. unfold lineCandidates.
      destruct (String.eqb_spec (TrimSpace text) "") as [Hempty | Hne].
      - exists acc. rewrite app_nil_r. auto.
      - destruct (Contains (TrimSpace text) ","%char).
        + apply forEach_keep; [reflexivity | exact Hacc].
        + destruct (keep_step (ValidateAddress Decode Sum256) (TrimSpace text) tested acc
                      ltac:(reflexivity) Hacc) as (acc' & Hkeep & Hacc').
          exists acc'. split; [|exact Hacc'].
          rewrite <- Hkeep. unfold keep.
          destruct (String.eqb_spec (TrimSpace text) "") as [Hempty | _]; [contradiction|].
          reflexivity. }
    { apply keptFrom_start. }
    cbn [app] in Hacc. rewrite Hrun.
    destruct (scanErr (asText f)) as [err|].
    { right. left. exists err. auto. }
    right. right.
    pose proof (keptFrom_result _ _ Hacc) as Hres.
    destruct (decide (length acc.1 = 0)%nat); [left; auto | right; eauto].
Qed.

(** An accepted address converts into a call parameter. *)
Lemma accepted_converts (a : string) :
  accepts a -> exists param, AddressToParameter Decode a = Ret param.
Proof.
  intros [_ Hvalid]. rewrite (ValidateAddress_unfold Decode Sum256 Sum256_length) in Hvalid.
  injection Hvalid as Hvalid. apply bool_decide_eq_true_1 in Hvalid as [Hlen _].
  rewrite AddressToParameter_unfold. destruct (decide _) as [Hlt | _]; [lia | eauto].
Qed.

End Loading.

(** X19.  What LoadAddressesFromText returns.  The text is cut into lines,
    the lines at commas, spaces, tabs and semicolons, and the pieces are
    trimmed; the call never panics; it fails exactly when none of these
    strings is a non-empty string that ValidateAddress accepts, and
    otherwise returns the accepted ones, each once.  Every address it
    returns converts into a call parameter. *)
Theorem LoadAddressesFromText_accepted (Decode : string -> list Z)
    (Sum256 : list Z -> list Z) (text : string) :
  (forall data, length (Sum256 data) = 32%nat) ->
  (LoadAddressesFromText Decode Sum256 text = Fail noAddressInText
   /\ forall a, a ∈ textCandidates text -> ~ accepted Decode Sum256 a)
  \/ exists addresses,
       LoadAddressesFromText Decode Sum256 text = Ret addresses
       /\ addresses <> [] /\ NoDup addresses
       /\ (forall a, a ∈ addresses <-> a ∈ textCandidates text /\ accepted Decode Sum256 a)
       /\ (forall a, a ∈ addresses -> exists param, AddressToParameter Decode a = Ret param).
Proof.
  intros Hlen.
  destruct (LoadAddressesFromText_cases Decode Sum256 Hlen text)
    as [Hnone | (addresses & Hcall & Hne & Hnd & Hmem)]; [left; exact Hnone | right].
  exists addresses. split; [exact Hcall|]. split; [exact Hne|]. split; [exact Hnd|].
  split; [exact Hmem|].
  intros a Ha. apply (accepted_converts Decode Sum256 Hlen), Hmem, Ha.
Qed.

Lemma LoadAddressesFromText_accepted_witness :
  LoadAddressesFromText base58.Decode sha256.Sum256 pastedText = Ret [USDTContractAddress].
Proof.
  destruct (LoadAddressesFromText_accepted base58.Decode sha256.Sum256 pastedText
              sha256_Sum256_length) as [[Hfail _] | (addresses & Hcall & _)].
  - exfalso. vm_compute in Hfail. discriminate Hfail.
  - rewrite Hcall. vm_compute in Hcall. injection Hcall as <-. reflexivity.
Defined.

(** X20.  What LoadAddressesFromFile returns.  When the file cannot be
    opened it fails with the error of the system.  When the file is open
    and its path has fewer than 4 bytes, cutting the extension off the path
    panics.  Otherwise the call does not panic: it fails when the reader of
    its format fails or when no string it tests (the trimmed fields of a
    .csv file; the trimmed lines of another file, a line with a comma cut
    at the commas) is accepted by ValidateAddress, and else returns the
    accepted strings, each once; every one converts into a call
    parameter. *)
Theorem LoadAddressesFromFile_accepted (Decode : string -> list Z)
    (Sum256 : list Z -> list Z) (f : inputFile) (filepath : string) :
  (forall data, length (Sum256 data) = 32%nat) ->
  (forall err, LoadAddressesFromFile Decode Sum256 (OpenError err) filepath
               = Fail (String.append "打开文件失败: " err))
  /\ (((String.length filepath < 4)%nat
       /\ LoadAddressesFromFile Decode Sum256 (Opened f) filepath = Panic)
      \/ ((4 <= String.length filepath)%nat
          /\ ((exists err,
                 isCSV filepath = true /\ asCSV f = CSVError err
                 /\ LoadAddressesFromFile Decode Sum256 (Opened f) filepath
                    = Fail (String.append "读取 CSV 失败: " err))
              \/ (exists err,
                    isCSV filepath = false /\ scanErr (asText f) = Some err
                    /\ LoadAddressesFromFile Decode Sum256 (Opened f) filepath
                       = Fail (String.append "读取文件失败: " err))
              \/ (LoadAddressesFromFile Decode Sum256 (Opened f) filepath
                  = Fail noAddressInFile
                  /\ forall a, a ∈ fileCandidates f filepath -> ~ accepted Decode Sum256 a)
              \/ exists addresses,
                   LoadAddressesFromFile Decode Sum256 (Opened f) filepath = Ret addresses
                   /\ addresses <> [] /\ NoDup addresses
                   /\ (forall a, a ∈ addresses
                                 <-> a ∈ fileCandidates f filepath /\ accepted Decode Sum256 a)
                   /\ (forall a, a ∈ addresses ->
                         exists param, AddressToParameter Decode a = Ret param)))).
Proof.
  intros Hlen. split; [reflexivity|].
  destruct (LoadAddressesFromFile_cases Decode Sum256 Hlen f filepath)
    as [Hshort | (Hlong & [Hcsv | [Hscan | [Hnone | (addresses & Hcall & Hne & Hnd & Hmem)]]])].
  - left. exact Hshort.
  - right. split; [exact Hlong|]. left. exact Hcsv.
  - right. split; [exact Hlong|]. right. left. exact Hscan.
  - right. split; [exact Hlong|]. right. right. left. exact Hnone.
  - right. split; [exact Hlong|]. right. right. right.
    exists addresses. split; [exact Hcall|]. split; [exact Hne|]. split; [exact Hnd|].
    split; [exact Hmem|].
    intros a Ha. apply (accepted_converts Decode Sum256 Hlen), Hmem, Ha.
Qed.

Lemma LoadAddressesFromFile_accepted_witness :
  LoadAddressesFromFile base58.Decode sha256.Sum256 (Opened addressFile) "a.txt"
  = Ret [USDTContractAddress]
  /\ LoadAddressesFromFile base58.Decode sha256.Sum256 (Opened addressFile) "a" = Panic.
Proof.
  split.
  - destruct (LoadAddressesFromFile_accepted base58.Decode sha256.Sum256 addressFile "a.txt"
                sha256_Sum256_length)
      as [_ [[Hshort _] | (_ & [(err & H & _) | [(err & _ & H & _) | [[H _]
                                                | (addresses & Hcall & _)]]])]].
    + exfalso. cbn in Hshort. lia.
    + exfalso. vm_compute in H. discriminate H.
    + exfalso. discriminate H.
    + exfalso. vm_compute in H. discriminate H.
    + rewrite Hcall. vm_compute in Hcall. injection Hcall as <-. reflexivity.
  - destruct (LoadAddressesFromFile_accepted base58.Decode sha256.Sum256 addressFile "a"
                sha256_Sum256_length) as [_ [[_ Hpanic] | (Hlong & _)]].
    + exact Hpanic.
    + exfalso. cbn in Hlong. lia.
Defined.

(** ** The AES helpers *)

Lemma xorBytes_cancel (a : list Z) :
  forall b, length a = length b -> xorBytes (xorBytes a b) b = a.
Proof.
  unfold xorBytes. induction a as [|x a IH]; intros [|y b] Hlen; try discriminate Hlen.
  - reflexivity.
  - cbn. rewrite Z.lxor_assoc, Z.lxor_nilpotent, Z.lxor_0_r. f_equal.
    apply IH. cbn in Hlen. lia.
Qed.

Lemma xorBytes_length (a b : list Z) :
  length (xorBytes a b) = Nat.min (length a) (length b).
Proof. unfold xorBytes. apply length_zip_with. Qed.

Section AESProperties.

Variable Encrypt : list Z -> list Z -> list Z.
Variable Decrypt : list Z -> list Z -> list Z.
Hypothesis Encrypt_length :
  forall key block, length block = 16%nat -> length (Encrypt key block) = 16%nat.
Hypothesis Decrypt_Encrypt :
  forall key block, length block = 16%nat -> Decrypt key (Encrypt key block) = block.

Lemma cbc_round_trip (key : list Z) (n : nat) :
  forall prev src,
    length prev = 16%nat -> length src = (16 * n)%nat ->
    length (cbcEncrypt Encrypt key prev src n) = (16 * n)%nat
    /\ cbcDecrypt Decrypt key prev (cbcEncrypt Encrypt key prev src n) n = src.
Proof.
  induction n as [|n IH]; intros prev src Hprev Hsrc; cbn [cbcEncrypt cbcDecrypt].
  - split; [reflexivity|]. symmetry. apply length_zero_iff_nil. lia.
  - unfold BlockSize.
    set (x := xorBytes (take 16 src) prev).
    assert (Hx : length x = 16%nat)
      by (unfold x; rewrite xorBytes_length, length_take; lia).
    pose proof (Encrypt_length key x Hx) as Hc.
    destruct (IH (Encrypt key x) (drop 16 src) Hc) as [Hlen Hback];
      [rewrite length_drop; lia|].
    split; [rewrite length_app, Hlen, Hc; lia|].
    rewrite take_app_length' by (symmetry; exact Hc).
    rewrite drop_app_length' by (symmetry; exact Hc).
    rewrite Hback, (Decrypt_Encrypt key x Hx). unfold x.
    rewrite xorBytes_cancel by (rewrite length_take; lia).
    apply take_drop.
Qed.

Lemma NewCipher_accepts (key : list Z) :
  (length key = 16 \/ length key = 24 \/ length key = 32)%nat -> NewCipher key = Ret key.
Proof. intros H. unfold NewCipher. now rewrite bool_decide_eq_true_2. Qed.

Lemma encryptAES_cases (plaintext key iv : list Z) :
  (length key = 16 \/ length key = 24 \/ length key = 32)%nat -> length iv = 16%nat ->
  ((length plaintext mod 16 <> 15)%nat ->
   encryptAES Encrypt plaintext key (Ret iv) = Panic)
  /\ ((length plaintext mod 16 = 15)%nat ->
      exists ciphertext,
        encryptAES Encrypt plaintext key (Ret iv) = Ret ciphertext
        /\ length ciphertext = (length plaintext + 17)%nat
        /\ decryptAES Decrypt ciphertext key = Ret plaintext).
Proof.
  intros Hkey Hiv. unfold encryptAES, decryptAES. rewrite (NewCipher_accepts key Hkey).
  unfold mbind, outcome_bind, obind, CryptBlocks, BlockSize. cbv zeta.
  rewrite length_app. cbn [length].
  pose proof (Nat.div_mod_eq (length plaintext) 16) as Hdiv.
  pose proof (Nat.mod_upper_bound (length plaintext) 16 ltac:(lia)) as Hmod.
  split.
  - intros Hne. destruct (decide _) as [_ | Hzero]; [reflexivity|].
    exfalso. apply Hzero. intros Hz.
    apply Nat.Div0.mod_divides in Hz as [k Hk].
    apply Hne. replace (length plaintext) with (15 + (k - 1) * 16)%nat by lia.
    rewrite Nat.Div0.mod_add. reflexivity.
  - intros H15.
    assert (Hfull : (length plaintext + 1 = 16 * (length plaintext / 16 + 1))%nat) by lia.
    assert (Hm0 : ((length plaintext + 1) mod 16 = 0)%nat).
    { rewrite Hfull, Nat.mul_comm. apply Nat.Div0.mod_mul. }
    assert (Hq : ((length plaintext + 1) / 16 = length plaintext / 16 + 1)%nat).
    { rewrite Hfull at 1. rewrite Nat.mul_comm. apply Nat.div_mul. lia. }
    destruct (decide _) as [Hbad | _]; [contradiction|].
    rewrite H15, Hq. change (Z.of_nat (16 - 15) mod 256) with 1.
    set (m := (length plaintext / 16 + 1)%nat) in *.
    destruct (cbc_round_trip key m iv (plaintext ++ [1]) Hiv) as [Hlen Hback].
    { rewrite length_app. cbn [length]. lia. }
    set (enc := cbcEncrypt Encrypt key iv (plaintext ++ [1]) m) in *.
    exists (iv ++ enc). split; [reflexivity|].
    split; [rewrite length_app, Hiv, Hlen; lia|].
    rewrite length_app, Hiv, Hlen.
    destruct (decide (16 + 16 * m < 16)%nat) as [Hlt | _]; [lia|].
    unfold slice_from. rewrite !slice_in_range by (rewrite length_app, Hiv, Hlen; lia).
    rewrite length_app, Hiv, Hlen, drop_0.
    replace (16 - 0)%nat with (length iv) by lia. rewrite take_app_length.
    replace (16 + 16 * m - 16)%nat with (length enc) by lia.
    assert (Hrest : take (length enc) (drop 16 (iv ++ enc)) = enc).
    { pose proof (drop_app_length iv enc) as Hdrop. rewrite Hiv in Hdrop.
      rewrite Hdrop. apply firstn_all. }
    rewrite Hrest, Hlen.
    destruct (decide ((16 * m) mod 16 <> 0)%nat) as [Hbad | _].
    { exfalso. apply Hbad. rewrite Nat.mul_comm. apply Nat.Div0.mod_mul. }
    replace (16 * m / 16)%nat with m by (rewrite Nat.mul_comm, Nat.div_mul; lia).
    rewrite Hback, length_app. cbn [length].
    destruct (decide (length plaintext + 1 = 0)%nat) as [Hz | _]; [lia|].
    unfold index.
    replace (length plaintext + 1 - 1)%nat with (length plaintext + 0)%nat by lia.
    rewrite lookup_app_r by lia.
    replace (length plaintext + 0 - length plaintext)%nat with 0%nat by lia.
    cbn [lookup list_lookup]. change (Z.to_nat 1) with 1%nat.
    destruct (decide (length plaintext + 1 < 1)%nat) as [Hlt | _]; [lia|].
    rewrite slice_in_range by (rewrite length_app; cbn [length]; lia).
    rewrite drop_0. replace (length plaintext + 1 - 1 - 0)%nat with (length plaintext) by lia.
    rewrite take_app_length. reflexivity.
Qed.

End AESProperties.

(** X21.  encryptAES pads the plaintext with a single byte.  Under a key
    of a valid size (such as the 32 bytes of generateKey), it panics in
    CryptBlocks unless the length of the plaintext is 15 modulo 16; when it
    is, the result is the 16 bytes of the IV followed by the encrypted
    blocks, and decryptAES gives the plaintext back. *)
Theorem encryptAES_single_byte_padding (Encrypt Decrypt : list Z -> list Z -> list Z)
    (Sum256 : list Z -> list Z) (plaintext iv : list Z) (password : string) :
  (forall key block, length block = 16%nat -> length (Encrypt key block) = 16%nat) ->
  (forall key block, length block = 16%nat -> Decrypt key (Encrypt key block) = block) ->
  (forall data, length (Sum256 data) = 32%nat) ->
  length iv = 16%nat ->
  let key := generateKey Sum256 password in
  NewCipher key = Ret key
  /\ ((length plaintext mod 16 <> 15)%nat ->
      encryptAES Encrypt plaintext key (Ret iv) = Panic)
  /\ ((length plaintext mod 16 = 15)%nat ->
      exists ciphertext,
        encryptAES Encrypt plaintext key (Ret iv) = Ret ciphertext
        /\ length ciphertext = (length plaintext + 17)%nat
        /\ decryptAES Decrypt ciphertext key = Ret plaintext).
Proof.
  intros HE HD HS Hiv key.
  assert (Hkey : (length key = 16 \/ length key = 24 \/ length key = 32)%nat)
    by (right; right; apply HS).
  split; [apply NewCipher_accepts, Hkey|].
  apply (encryptAES_cases Encrypt Decrypt HE HD plaintext key iv Hkey Hiv).
Qed.

(** With a toy cipher that reverses a block: three bytes make encryptAES
    panic, fifteen bytes are encrypted and decrypted back. *)
Lemma encryptAES_single_byte_padding_witness :
  encryptAES (fun _ block => reverse block) [1; 2; 3]
             (generateKey sha256.Sum256 "password") (Ret (replicate 16 7)) = Panic
  /\ exists ciphertext,
       encryptAES (fun _ block => reverse block) (replicate 15 9)
                  (generateKey sha256.Sum256 "password") (Ret (replicate 16 7))
       = Ret ciphertext
       /\ decryptAES (fun _ block => reverse block) ciphertext
                     (generateKey sha256.Sum256 "password")
          = Ret (replicate 15 9).
Proof.
  split.
  - apply (encryptAES_single_byte_padding
             (fun _ block => reverse block) (fun _ block => reverse block)
             sha256.Sum256 [1; 2; 3] (replicate 16 7) "password").
    + intros _ block H. now rewrite length_reverse.
    + intros _ block _. apply reverse_involutive.
    + apply sha256_Sum256_length.
    + reflexivity.
    + cbn. lia.
  - destruct (encryptAES_single_byte_padding
                (fun _ block => reverse block) (fun _ block => reverse block)
                sha256.Sum256 (replicate 15 9) (replicate 16 7) "password")
      as (_ & _ & Hround).
    + intros _ block H. now rewrite length_reverse.
    + intros _ block _. apply reverse_involutive.
    + apply sha256_Sum256_length.
    + reflexivity.
    + destruct Hround as (ciphertext & Henc & _ & Hdec); [reflexivity|].
      exists ciphertext. split; [exact Henc | exact Hdec].
Defined.

(** ** The key manager: exhaustion *)

Section ScanFails.

Variable ks : list APIKeyInfo.
Variable start : nat.
Variable tu : Z.
Hypothesis start_in_range : (start < length ks)%nat.

(** A scan that fails has found every key from its offset on unavailable
    and has brought the cursor back to where the scan started. *)
Lemma scanKeys_failed (n : nat) :
  forall d m' e,
    (d + n = length ks)%nat -> (0 < n)%nat ->
    scanKeys (atOffset ks start tu d) start n = (m', Fail e) ->
    m' = mkManager ks start tu /\ e = exhaustedAll
    /\ forall d' here,
         (d <= d' < length ks)%nat -> ks !! ((start + d') mod length ks)%nat = Some here ->
         available here = false.
Proof.
  induction n as [|n IH]; intros d m' e Hn Hpos Hscan; [lia|].
  cbn [scanKeys atOffset keys current totalUsed] in Hscan.
  destruct (offset_key ks start start_in_range d) as [here Hhere]. rewrite Hhere in Hscan.
  rewrite cursor_step in Hscan by exact start_in_range.
  destruct (available here) eqn:Havail; [discriminate Hscan|].
  destruct (decide _) as [Hback | Hon].
  - cbn in Hback. injection Hscan as <- <-. rewrite Hback.
    split; [reflexivity|]. split; [reflexivity|].
    intros d' other Hd' Hother.
    assert (d' = d) as -> by (apply cursor_back in Hback; lia).
    rewrite Hhere in Hother. injection Hother as <-. exact Havail.
  - cbn in Hon.
    assert (Hmore : (0 < n)%nat).
    { destruct (decide (n = 0)%nat) as [-> | ]; [|lia].
      exfalso. apply Hon. apply cursor_back; lia. }
    destruct (IH (d + 1)%nat m' e ltac:(lia) Hmore Hscan) as (Hm & He & Hrest).
    split; [exact Hm|]. split; [exact He|].
    intros d' other Hd' Hother. destruct (decide (d' = d)) as [-> | Hne].
    + rewrite Hhere in Hother. injection Hother as <-. exact Havail.
    + apply (Hrest d' other); [lia | exact Hother].
Qed.

End ScanFails.

Lemma GetNextKey_failed (m m' : APIKeyManager) (e : string) :
  cursor_in_range m -> GetNextKey m = (m', Fail e) ->
  m' = m /\ Forall (fun keyInfo => available keyInfo = false) (keys m).
Proof.
  intros Hcursor Hcall. destruct m as [ks cur tu].
  unfold GetNextKey, cursor_in_range in *. cbn [keys current totalUsed] in *.
  destruct (decide (length ks = 0)%nat) as [Hz | Hnz].
  { injection Hcall as <- <-. split; [reflexivity|].
    apply length_zero_iff_nil in Hz. subst ks. constructor. }
  destruct Hcursor as [Hcur | [-> _]]; [|contradiction].
  destruct (decide (length ks = 1)%nat) as [Hone | Hmany].
  - destruct ks as [|keyInfo [|]]; try discriminate Hone. cbn in Hcall.
    destruct (available keyInfo) eqn:Havail; [discriminate Hcall|].
    injection Hcall as <- <-. split; [reflexivity|]. repeat constructor. exact Havail.
  - pose proof (scanKeys_failed ks cur tu Hcur (length ks) 0 m' e) as Hfailed.
    unfold atOffset in Hfailed. rewrite Nat.add_0_r, (Nat.mod_small cur) in Hfailed by lia.
    destruct (Hfailed ltac:(lia) ltac:(lia) Hcall) as (-> & _ & Hnone).
    split; [reflexivity|].
    apply Forall_lookup. intros i keyInfo Hi.
    destruct (offset_surj cur (length ks) i Hcur) as (d & Hd & Hpos);
      [eapply lookup_lt_Some, Hi|].
    apply (Hnone d keyInfo); [lia | now rewrite Hpos].
Qed.

Lemma GetNextKeys_failed (m : APIKeyManager) (e : string) (n : nat) :
  GetNextKey m = (m, Fail e) -> GetNextKeys m n = (m, replicate n (Fail e)).
Proof.
  intros Hcall. induction n as [|n IH]; [reflexivity|].
  rewrite GetNextKeys_step, Hcall. cbn [fst snd]. rewrite IH. reflexivity.
Qed.

(** X22.  Exhaustion is permanent.  A call of GetNextKey that fails has
    found no key available and leaves the manager exactly as it was, so
    that every later call fails with the same error: within a run, once an
    address got the key error, every address checked after it gets it
    too. *)
Theorem exhaustion_is_permanent (m m' : APIKeyManager) (e : string) :
  cursor_in_range m -> GetNextKey m = (m', Fail e) ->
  m' = m
  /\ Forall (fun keyInfo => available keyInfo = false) (keys m)
  /\ forall n, GetNextKeys m n = (m, replicate n (Fail e)).
Proof.
  intros Hcursor Hcall.
  destruct (GetNextKey_failed m m' e Hcursor Hcall) as [-> Hnone].
  split; [reflexivity|]. split; [exact Hnone|].
  intros n. apply GetNextKeys_failed, Hcall.
Qed.

Lemma exhaustion_is_permanent_witness :
  GetNextKeys (mkManager [mkKey "k1" 3 3 true; mkKey "k2" 0 5 false] 1 3) 2
  = (mkManager [mkKey "k1" 3 3 true; mkKey "k2" 0 5 false] 1 3,
     [Fail exhaustedAll; Fail exhaustedAll]).
Proof.
  destruct (exhaustion_is_permanent
              (mkManager [mkKey "k1" 3 3 true; mkKey "k2" 0 5 false] 1 3)
              (mkManager [mkKey "k1" 3 3 true; mkKey "k2" 0 5 false] 1 3)
              exhaustedAll) as (_ & _ & Hlater).
  - left. cbn. lia.
  - reflexivity.
  - exact (Hlater 2%nat).
Defined.

(** ** api.go: reading a rendered balance back *)

Lemma scanDigits_uint_acc (d : Decimal.uint) :
  forall acc : positive,
    scanDigits 10 (NilEmpty.string_of_uint d) (Z.pos acc)
    = Some (Z.pos (Pos.of_uint_acc d acc)).
Proof.
  induction d as [|d IH|d IH|d IH|d IH|d IH|d IH|d IH|d IH|d IH|d IH]; intros acc;
    [reflexivity|..]; scan_digit;
    match goal with
    | |- scanDigits _ _ ?z = Some (Z.pos (Pos.of_uint_acc _ ?q)) =>
        replace z with (Z.pos q) by lia
    end;
    apply IH.
Qed.

Lemma scanDigits_uint (d : Decimal.uint) :
  scanDigits 10 (NilEmpty.string_of_uint d) 0 = Some (Z.of_N (Pos.of_uint d)).
Proof.
  induction d as [|d IH|d IH|d IH|d IH|d IH|d IH|d IH|d IH|d IH|d IH];
    [reflexivity | scan_digit; exact IH | ..];
    scan_digit; apply scanDigits_uint_acc.
Qed.

Lemma Int_String_scan (r : Z) : 0 <= r -> scanDigits 10 (Int_String r) 0 = Some r.
Proof.
  intros Hr. unfold Int_String. destruct r as [|p|p]; [reflexivity | | lia].
  cbn [Z.to_int NilEmpty.string_of_int].
  rewrite scanDigits_uint, DecimalPos.Unsigned.of_to. reflexivity.
Qed.

Lemma digitVal_point : digitVal "." = None.
Proof. reflexivity. Qed.

Lemma digitVal_nonneg (c : ascii) (d : Z) : digitVal c = Some d -> 0 <= d.
Proof.
  unfold digitVal. cbv zeta.
  destruct (ascii_in 48 57 c) eqn:H1; [|destruct (ascii_in 97 122 c) eqn:H2;
                                        [|destruct (ascii_in 65 90 c) eqn:H3]];
    intros H; try discriminate H; injection H as <-;
    unfold ascii_in in *;
    repeat match goal with
           | Hb : _ && _ = true |- _ => apply andb_true_iff in Hb as [Hb _]; apply Nat.leb_le in Hb
           end; lia.
Qed.

(** A string of digits holds no point. *)
Lemma scanDigits_no_point (s : string) :
  forall acc v t,
    scanDigits 10 s acc = Some v ->
    beforePoint (String.append s t) = String.append s (beforePoint t)
    /\ afterPoint (String.append s t) = afterPoint t.
Proof.
  induction s as [|c s IH]; intros acc v t Hscan; [auto|].
  cbn [scanDigits] in Hscan.
  change (String.append (String c s) t) with (String c (String.append s t)).
  cbn [beforePoint afterPoint].
  destruct (Ascii.eqb_spec c ".") as [-> | Hne].
  - rewrite digitVal_point in Hscan. discriminate Hscan.
  - destruct (digitVal c) as [d|]; [|discriminate Hscan].
    destruct (d <? 10); [|discriminate Hscan].
    destruct (IH _ _ t Hscan) as [-> ->]. auto.
Qed.

(** The value of a string of digits grows with its length. *)
Lemma scanDigits_grows (s : string) :
  forall acc v,
    scanDigits 10 s acc = Some v -> 0 <= acc ->
    acc * 10 ^ Z.of_nat (String.length s) <= v.
Proof.
  induction s as [|c s IH]; intros acc v Hscan Hacc.
  - injection Hscan as <-. cbn. lia.
  - cbn [scanDigits] in Hscan.
    destruct (digitVal c) as [d|] eqn:Hd; [|discriminate Hscan].
    destruct (d <? 10); [|discriminate Hscan].
    pose proof (digitVal_nonneg c d Hd) as Hpos.
    specialize (IH _ _ Hscan ltac:(lia)).
    cbn [String.length]. rewrite Nat2Z.inj_succ, Z.pow_succ_r by lia.
    pose proof (Z.pow_nonneg 10 (Z.of_nat (String.length s)) ltac:(lia)). nia.
Qed.

Lemma scanDigits_zeros (k : nat) (s : string) :
  scanDigits 10 (String.append (Repeat "0" k) s) 0 = scanDigits 10 s 0.
Proof.
  induction k as [|k IH]; [reflexivity|].
  change (String.append (Repeat "0" (S k)) s)
    with (String "0" (String.append (Repeat "0" k) s)).
  scan_digit. exact IH.
Qed.

Lemma nzhead_head (u : Decimal.uint) :
  match Decimal.nzhead u with Decimal.D0 _ => False | _ => True end.
Proof. induction u; cbn; auto. Qed.

(** The decimal digits of a positive number do not start with a zero. *)
Lemma to_uint_head (p : positive) :
  match Pos.to_uint p with Decimal.Nil | Decimal.D0 _ => False | _ => True end.
Proof.
  pose proof (DecimalN.Unsigned.to_of (N.to_uint (N.pos p))) as Hnorm.
  rewrite DecimalN.Unsigned.of_to in Hnorm. cbn [N.to_uint] in Hnorm.
  pose proof (DecimalPos.Unsigned.of_to p) as Hvalue.
  destruct (Pos.to_uint p) as [|u|u|u|u|u|u|u|u|u|u] eqn:Hd; try exact I.
  - discriminate Hvalue.
  - unfold Decimal.unorm in Hnorm. cbn [Decimal.nzhead] in Hnorm.
    pose proof (nzhead_head u) as Hhead.
    destruct (Decimal.nzhead u); try discriminate Hnorm; try contradiction.
    injection Hnorm as Hu. subst u. discriminate Hvalue.
Qed.

Lemma Int_String_length (r : Z) :
  0 <= r < 10 ^ 6 -> (String.length (Int_String r) <= 6)%nat.
Proof.
  intros Hr. pose proof (Int_String_scan r ltac:(lia)) as Hscan.
  unfold Int_String in *. destruct r as [|p|p]; [cbn; lia | | lia].
  cbn [Z.to_int NilEmpty.string_of_int] in *.
  pose proof (to_uint_head p) as Hhead.
  destruct (Pos.to_uint p) as [|u|u|u|u|u|u|u|u|u|u]; try contradiction;
    cbn [NilEmpty.string_of_uint String.length] in *;
    cbn [scanDigits] in Hscan;
    match type of Hscan with
    | context [digitVal ?c] =>
        let v := eval vm_compute in (digitVal c) in change (digitVal c) with v in Hscan
    end;
    cbv iota in Hscan;
    match type of Hscan with
    | context [?a <? ?b] =>
        let v := eval vm_compute in (a <? b) in change (a <? b) with v in Hscan
    end;
    cbv iota in Hscan;
    apply scanDigits_grows in Hscan; try lia;
    destruct (le_lt_dec (String.length (NilEmpty.string_of_uint u)) 5) as [Hle | Hgt];
    try lia;
    exfalso;
    assert (Hpow : 10 ^ 6 <= 10 ^ Z.of_nat (String.length (NilEmpty.string_of_uint u)))
      by (apply Z.pow_le_mono_r; lia);
    lia.
Qed.

Lemma append_nil_l (s : string) : String.append "" s = s.
Proof. reflexivity. Qed.

Lemma append_cons (c : ascii) (s t : string) :
  String.append (String c s) t = String c (String.append s t).
Proof. reflexivity. Qed.

Lemma TrimRight_rest (s : string) :
  (String.length (TrimRight s "0") <= String.length s)%nat
  /\ String.append (TrimRight s "0")
                   (Repeat "0" (String.length s - String.length (TrimRight s "0"))) = s.
Proof.
  induction s as [|c s [IHlen IH]]; [auto|].
  cbn [TrimRight inCutset]. rewrite orb_false_r.
  destruct (String.eqb_spec (TrimRight s "0") "") as [Hempty | Hne]; cbn [andb].
  - rewrite Hempty in IH. rewrite append_nil_l in IH. cbn [String.length] in IH.
    rewrite Nat.sub_0_r in IH.
    destruct (Ascii.eqb_spec c "0") as [-> | Hc].
    + rewrite append_nil_l. cbn [String.length]. rewrite Nat.sub_0_r. cbn [Repeat].
      split; [lia|]. f_equal. exact IH.
    + rewrite Hempty, append_cons, append_nil_l. cbn [String.length].
      replace (S (String.length s) - 1)%nat with (String.length s) by lia.
      split; [lia|]. f_equal. exact IH.
  - rewrite append_cons. cbn [String.length].
    replace (S (String.length s) - S (String.length (TrimRight s "0")))%nat
      with (String.length s - String.length (TrimRight s "0"))%nat by lia.
    split; [lia|]. f_equal. exact IH.
Qed.

Lemma Repeat_length (c : ascii) (k : nat) : String.length (Repeat c k) = k.
Proof. induction k as [|k IH]; [reflexivity|]. cbn. now rewrite IH. Qed.

Lemma append_empty (s : string) : String.append s "" = s.
Proof. induction s as [|c s IH]; [reflexivity|]. now rewrite append_cons, IH. Qed.

Lemma formatDecimals_read_back (n : Z) :
  0 <= n -> readBalance (formatDecimals n 6) = Some n.
Proof.
  intros Hn. unfold formatDecimals.
  destruct (decide (6 = 0)) as [H | _]; [discriminate H|].
  change (6 <? 0) with false. cbv iota zeta.
  set (q := n / 10 ^ 6). set (r := n mod 10 ^ 6).
  assert (Hr : 0 <= r < 10 ^ 6) by (apply Z.mod_pos_bound; lia).
  assert (Hq : 0 <= q) by (apply Z.div_pos; lia).
  assert (Hn' : n = q * 10 ^ 6 + r) by (unfold q, r; rewrite Z.mul_comm; apply Z.div_mod; lia).
  pose proof (Int_String_scan q Hq) as Hwhole.
  pose proof (Int_String_scan r ltac:(lia)) as Hfrac.
  pose proof (Int_String_length r Hr) as Hlen.
  set (padded := Sprintf_0d 6 r).
  assert (Hpadded : padded
                    = String.append (Repeat "0" (6 - String.length (Int_String r)))
                                    (Int_String r)).
  { unfold padded, Sprintf_0d. rewrite Z.abs_eq by lia.
    destruct (r <? 0) eqn:Hneg; [apply Z.ltb_lt in Hneg; lia|].
    rewrite append_nil_l. cbn [String.length Nat.add]. f_equal. f_equal. lia. }
  assert (Hsize : String.length padded = 6%nat).
  { rewrite Hpadded, append_length, Repeat_length. lia. }
  assert (Hvalue : scanDigits 10 padded 0 = Some r).
  { rewrite Hpadded, scanDigits_zeros. exact Hfrac. }
  destruct (TrimRight_rest padded) as [Htlen Hrest]. rewrite Hsize in Hrest.
  unfold readBalance.
  destruct (String.eqb_spec (TrimRight padded "0") "") as [Hempty | Hne].
  - destruct (scanDigits_no_point _ _ _ "" Hwhole) as [Hb Ha].
    rewrite append_empty in Hb, Ha. rewrite Hb, Ha. cbn [beforePoint afterPoint].
    rewrite append_empty, Hwhole.
    rewrite Hempty in Hrest. rewrite append_nil_l in *. cbn [String.length] in *.
    rewrite Hrest, Hvalue. f_equal. lia.
  - destruct (scanDigits_no_point _ _ _ (String.append "." (TrimRight padded "0")) Hwhole)
      as [Hb Ha].
    rewrite Hb, Ha, append_cons, append_nil_l.
    cbn [beforePoint afterPoint Ascii.eqb Bool.eqb].
    rewrite append_empty, Hwhole, Hrest, Hvalue. f_equal. lia.
Qed.

(** X23.  The rendering of a balance loses nothing.  For an amount of
    n >= 0 millionths, reading formatDecimals n 6 back (the digits before
    the point as units, the digits after it as millionths) gives n, so that
    two different amounts are never rendered the same. *)
Theorem formatDecimals_exact (n : Z) :
  0 <= n ->
  readBalance (formatDecimals n 6) = Some n
  /\ forall m, 0 <= m -> formatDecimals m 6 = formatDecimals n 6 -> m = n.
Proof.
  intros Hn. split; [apply formatDecimals_read_back, Hn|].
  intros m Hm Heq.
  pose proof (formatDecimals_read_back m Hm) as Hback.
  rewrite Heq, (formatDecimals_read_back n Hn) in Hback. congruence.
Qed.

Lemma formatDecimals_exact_witness :
  formatDecimals 1500000 6 = "1.5" /\ readBalance "1.5" = Some 1500000.
Proof.
  destruct (formatDecimals_exact 1500000) as [Hback _]; [lia|].
  assert (Hrender : formatDecimals 1500000 6 = "1.5") by (vm_compute; reflexivity).
  split; [exact Hrender|]. rewrite <- Hrender. exact Hback.
Defined.
